(** * ShopAI orchestration core: a shallow embedding of the Go AI service

    The development follows the Go sources of [go-ai-service]:
    - [handlers/xml_parser.go]   : [parseToolCallFromXML], [buildFinalReply]
    - [handlers/chat_handler.go] : [HandleChat], [chatWithToolCalling]
    - [rag/chroma_client.go]     : [FormatContext]
    - [llm/dashscope_client.go]  : [ShouldCallTool], [GetToolCalls], [GetTextResponse]
    - [mcp/client.go]            : [nextID], [sendRequest], [CallTool]
    - [mcp/executor.go]          : [Execute]

    and, beyond the orchestration core:
    - [handlers/chat_handler.go] : [handleOrderIntent], [extractOrderInfo],
                                   [extractOrderNumber]
    - [llm/dashscope_client.go]  : [Embedding]
    - [rag/chroma_client.go]     : [SearchKnowledge], [initializeCollection],
                                   [generateEmbedding], [queryChroma],
                                   [generateBatchEmbeddings], [AddDocuments]
    - [mcp/client.go]            : [InitMCPClient], [NewMCPClient], [initialize],
                                   [ListTools], [Close]
    and the order side of [java-shop]: [OrderService], [ProductService],
    [Order], [OrderController].

    A Go [string] is an immutable sequence of bytes; it is modelled as a
    [list ascii] (one [ascii] per byte), so that string literals of the
    source, including the UTF-8 encoded Chinese messages, keep their bytes. *)

From Stdlib Require Import ZArith Ascii String DecimalString.
From stdpp Require Import gmap strings list sorting.

Definition gostring : Type := list ascii.

(** [str "lit"] is the byte sequence of a Go string literal. *)
Definition str (s : string) : gostring := list_ascii_of_string s.

(** * Package [strings] and [strconv] *)

Module Strings.

(** [strings.HasPrefix]: byte-wise comparison. *)
Fixpoint HasPrefix (s prefix : gostring) {struct prefix} : bool :=
  match prefix, s with
  | [], _ => true
  | p :: prefix', c :: s' => Ascii.eqb p c && HasPrefix s' prefix'
  | _ :: _, [] => false
  end.

(** [strings.Contains]: some position of [s] starts with [substr]. *)
Fixpoint Contains (s substr : gostring) : bool :=
  HasPrefix s substr ||
  match s with
  | [] => false
  | _ :: s' => Contains s' substr
  end.

(** The six ASCII bytes of Go's [asciiSpace] table:
    tab, line feed, vertical tab, form feed, carriage return, space. *)
Definition asciiSpace (c : ascii) : bool :=
  let n := N_of_ascii c in
  ((9 <=? n) && (n <=? 13))%N || (n =? 32)%N.

Definition byte_is (c : ascii) (n : N) : bool := (N_of_ascii c =? n)%N.

(** [unicode.IsSpace] on the two-byte UTF-8 encodings: U+0085 and U+00A0. *)
Definition space2 (c1 c2 : ascii) : bool :=
  byte_is c1 194 && (byte_is c2 133 || byte_is c2 160).

(** [unicode.IsSpace] on the three-byte UTF-8 encodings: U+1680,
    U+2000..U+200A, U+2028, U+2029, U+202F, U+205F and U+3000. *)
Definition space3 (c1 c2 c3 : ascii) : bool :=
  let n3 := N_of_ascii c3 in
  (byte_is c1 225 && byte_is c2 154 && byte_is c3 128)
  || (byte_is c1 226 && byte_is c2 128
      && (((128 <=? n3) && (n3 <=? 138))%N || byte_is c3 168 || byte_is c3 169
          || byte_is c3 175))
  || (byte_is c1 226 && byte_is c2 129 && byte_is c3 159)
  || (byte_is c1 227 && byte_is c2 128 && byte_is c3 128).

(** [strings.TrimLeftFunc(s, unicode.IsSpace)]: drop leading white-space
    runes.  A byte sequence that is not one of the encodings above decodes
    to a rune that is not a space (possibly U+FFFD), and trimming stops. *)
Fixpoint TrimLeftSpace (s : gostring) : gostring :=
  match s with
  | [] => []
  | c1 :: s1 =>
    if asciiSpace c1 then TrimLeftSpace s1
    else match s1 with
         | [] => s
         | c2 :: s2 =>
           if space2 c1 c2 then TrimLeftSpace s2
           else match s2 with
                | [] => s
                | c3 :: s3 => if space3 c1 c2 c3 then TrimLeftSpace s3 else s
                end
         end
  end.

(** The same scan on the reversed string, for the trailing runes
    ([utf8.DecodeLastRuneInString] finds the rune that ends the string). *)
Fixpoint TrimLeftSpaceRev (r : gostring) : gostring :=
  match r with
  | [] => []
  | c1 :: r1 =>
    if asciiSpace c1 then TrimLeftSpaceRev r1
    else match r1 with
         | [] => r
         | c2 :: r2 =>
           if space2 c2 c1 then TrimLeftSpaceRev r2
           else match r2 with
                | [] => r
                | c3 :: r3 => if space3 c3 c2 c1 then TrimLeftSpaceRev r3 else r
                end
         end
  end.

Definition TrimRightSpace (s : gostring) : gostring :=
  reverse (TrimLeftSpaceRev (reverse s)).

(** [strings.TrimSpace]: leading, then trailing Unicode white space. *)
Definition TrimSpace (s : gostring) : gostring :=
  TrimRightSpace (TrimLeftSpace s).

End Strings.

Module Strconv.

Definition is_digit (c : ascii) : bool :=
  let n := N_of_ascii c in ((48 <=? n) && (n <=? 57))%N.

Definition digit_val (c : ascii) : Z := Z.of_N (N_of_ascii c) - 48.

(** Decimal value of a digit string, [None] on any other byte or on the empty string. *)
Fixpoint digits_from (acc : Z) (s : gostring) : option Z :=
  match s with
  | [] => Some acc
  | c :: s' => if is_digit c then digits_from (acc * 10 + digit_val c) s' else None
  end.

Definition parse_digits (s : gostring) : option Z :=
  match s with
  | [] => None
  | _ :: _ => digits_from 0 s
  end.

Definition MinInt : Z := - 2 ^ 63.
Definition MaxInt : Z := 2 ^ 63 - 1.

Definition in_int (n : Z) : bool := (MinInt <=? n)%Z && (n <=? MaxInt)%Z.

(** [strconv.Atoi] on a 64-bit platform: an optional sign, at least one
    decimal digit, nothing else, and a value that fits an [int].
    [Some n] stands for [(n, nil)] and [None] for a non-nil error
    (syntax or range). *)
Definition Atoi (s : gostring) : option Z :=
  let '(neg, body) :=
    match s with
    | c :: s' =>
      if Ascii.eqb c "-" then (true, s')
      else if Ascii.eqb c "+" then (false, s')
      else (false, s)
    | [] => (false, s)
    end in
  match parse_digits body with
  | Some v =>
    let n := if neg then (- v)%Z else v in
    if in_int n then Some n else None
  | None => None
  end.

(** [strconv.Itoa] / the [%d] verb. *)
Definition Itoa (n : Z) : gostring :=
  str (NilZero.string_of_int (Z.to_int n)).

End Strconv.

(** * Package [regexp]

    The patterns of the service use literals, one-character classes under
    [*?], [*] and [+], and capture groups that are not nested.  The
    matcher below is the backtracking reading of Go's leftmost-first
    semantics: a lazy star tries the rest of the pattern before it takes
    one more character, a greedy one after.  Classes are applied to bytes:
    every class used here either accepts all non-ASCII runes or none, and
    the bytes of a multi-byte rune are all non-ASCII, so the byte-wise and
    the rune-wise readings agree. *)

Module Regexp.

Inductive regex : Type :=
| Lit (l : gostring)
| StarLazy (cls : ascii → bool)
| Star (cls : ascii → bool)
| Plus (cls : ascii → bool)
| Group (r : regex)
| Cat (r1 r2 : regex).

Declare Scope regex_scope.
Delimit Scope regex_scope with re.
Bind Scope regex_scope with regex.
Infix "+>" := Cat (at level 60, right associativity) : regex_scope.

Section Backtrack.
Context {R : Type}.

(** [cls*?] followed by the continuation [k]. *)
Fixpoint star_lazy (cls : ascii → bool) (k : gostring → gostring → option R)
    (acc s : gostring) : option R :=
  match k acc s with
  | Some r => Some r
  | None =>
    match s with
    | c :: s' => if cls c then star_lazy cls k (acc ++ [c]) s' else None
    | [] => None
    end
  end.

(** [cls*] followed by the continuation [k]. *)
Fixpoint star_greedy (cls : ascii → bool) (k : gostring → gostring → option R)
    (acc s : gostring) : option R :=
  match s with
  | c :: s' =>
    if cls c then
      match star_greedy cls k (acc ++ [c]) s' with
      | Some r => Some r
      | None => k acc s
      end
    else k acc s
  | [] => k acc s
  end.

(** [cls+] followed by the continuation [k]. *)
Definition plus_greedy (cls : ascii → bool) (k : gostring → gostring → option R)
    (s : gostring) : option R :=
  match s with
  | c :: s' => if cls c then star_greedy cls k [c] s' else None
  | [] => None
  end.

(** [run r s caps k]: match [r] at the start of [s]; [k] receives the text
    matched by [r], the rest of the input and the groups closed so far. *)
Fixpoint run (r : regex) (s : gostring) (caps : list gostring)
    (k : gostring → gostring → list gostring → option R) : option R :=
  match r with
  | Lit l => if Strings.HasPrefix s l then k l (drop (length l) s) caps else None
  | StarLazy cls => star_lazy cls (λ u s', k u s' caps) [] s
  | Star cls => star_greedy cls (λ u s', k u s' caps) [] s
  | Plus cls => plus_greedy cls (λ u s', k u s' caps) s
  | Group r1 => run r1 s caps (λ u s' caps', k u s' (caps' ++ [u]))
  | Cat r1 r2 =>
    run r1 s caps (λ u s' caps',
      run r2 s' caps' (λ v s'' caps'', k (u ++ v) s'' caps''))
  end.

End Backtrack.

(** A match anchored at the start of [s]: the submatch list (whole match
    first, then the groups) and the input left after the match. *)
Definition match_here (r : regex) (s : gostring) : option (list gostring * gostring) :=
  run r s [] (λ u rest caps, Some (u :: caps, rest)).

(** Leftmost match: the text before it, the submatches, the text after. *)
Fixpoint search (r : regex) (s : gostring)
    : option (gostring * list gostring * gostring) :=
  match match_here r s with
  | Some (m, rest) => Some ([], m, rest)
  | None =>
    match s with
    | [] => None
    | c :: s' =>
      match search r s' with
      | Some (before, m, rest) => Some (c :: before, m, rest)
      | None => None
      end
    end
  end.

(** [Regexp.FindStringSubmatch]: [nil] (the empty list) without a match. *)
Definition FindStringSubmatch (r : regex) (s : gostring) : list gostring :=
  match search r s with
  | Some (_, m, _) => m
  | None => []
  end.

(** Successive non-overlapping leftmost matches.  The patterns it is used
    with never match the empty string, so each round consumes input and
    Go's special treatment of empty matches does not arise. *)
Fixpoint find_all (fuel : nat) (r : regex) (s : gostring) : list (list gostring) :=
  match fuel with
  | O => []
  | S fuel' =>
    match search r s with
    | Some (_, m, rest) => m :: find_all fuel' r rest
    | None => []
    end
  end.

(** [Regexp.FindAllStringSubmatch(s, -1)]. *)
Definition FindAllStringSubmatch (r : regex) (s : gostring) : list (list gostring) :=
  find_all (length s) r s.

Fixpoint replace_all (fuel : nat) (r : regex) (s repl : gostring) : gostring :=
  match fuel with
  | O => s
  | S fuel' =>
    match search r s with
    | Some (before, _, rest) => before ++ repl ++ replace_all fuel' r rest repl
    | None => s
    end
  end.

(** [Regexp.ReplaceAllString] with a replacement that has no dollar sign. *)
Definition ReplaceAllString (r : regex) (s repl : gostring) : gostring :=
  replace_all (length s) r s repl.

(** [Regexp.NumSubexp]: the number of capture groups. *)
Fixpoint NumSubexp (r : regex) : nat :=
  match r with
  | Lit _ | StarLazy _ | Star _ | Plus _ => 0
  | Group r1 => S (NumSubexp r1)
  | Cat r1 r2 => NumSubexp r1 + NumSubexp r2
  end.

(** Character classes of the service's patterns. *)
Definition any_char (_ : ascii) : bool := true.                       (* [\s\S] *)
Definition dot (c : ascii) : bool := negb (Ascii.eqb c "010").         (* .      *)
Definition not_lt (c : ascii) : bool := negb (Ascii.eqb c "<").        (* [^<]   *)
Definition word (c : ascii) : bool :=                                  (* \w     *)
  let n := N_of_ascii c in
  (((48 <=? n) && (n <=? 57)) || ((65 <=? n) && (n <=? 90))
   || ((97 <=? n) && (n <=? 122)) || (n =? 95))%N.

End Regexp.

(** * Package [encoding/json]: marshalling of the argument mapping

    [args] is a Go [map[string]interface{}] whose values are strings and
    ints.  [json.Marshal] writes the entries of a map sorted by key
    (byte-wise).  How a string becomes a JSON string literal (quoting,
    escaping) is the standard library's business: it is the function
    [quote], a parameter of the development. *)

Module JSON.

Inductive ArgValue : Type :=
| VString (s : gostring)
| VInt (n : Z).

#[global] Instance ArgValue_eq_dec : EqDecision ArgValue.
Proof. solve_decision. Defined.

(** Go's [<] on strings: lexicographic on bytes. *)
Fixpoint str_ltb (a b : gostring) : bool :=
  match a, b with
  | _, [] => false
  | [], _ :: _ => true
  | x :: a', y :: b' =>
    (N_of_ascii x <? N_of_ascii y)%N
    || ((N_of_ascii x =? N_of_ascii y)%N && str_ltb a' b')
  end.

Definition key_le {V : Type} (x y : gostring * V) : Prop :=
  str_ltb y.1 x.1 = false.

#[global] Instance key_le_dec {V : Type} (x y : gostring * V) : Decision (key_le x y).
Proof. unfold key_le. apply _. Defined.

Fixpoint join (sep : gostring) (l : list gostring) : gostring :=
  match l with
  | [] => []
  | [x] => x
  | x :: l' => x ++ sep ++ join sep l'
  end.

Section Marshal.
Variable quote : gostring → gostring.

Definition encodeValue (v : ArgValue) : gostring :=
  match v with
  | VString s => quote s
  | VInt n => Strconv.Itoa n
  end.

Definition encodeEntry (kv : gostring * ArgValue) : gostring :=
  quote kv.1 ++ str ":" ++ encodeValue kv.2.

Definition Marshal (m : gmap gostring ArgValue) : gostring :=
  str "{" ++ join (str ",") (encodeEntry <$> merge_sort key_le (map_to_list m))
  ++ str "}".

End Marshal.

(** A string literal encoder for strings that need no escaping
    (used to run the examples). *)
Definition plainQuote (s : gostring) : gostring :=
  ["034"%char] ++ s ++ ["034"%char].

End JSON.

(** * [handlers/xml_parser.go] *)

Module XMLParser.
Import Strings Regexp JSON.

Record ToolCallInfo : Type := {
  ToolName : gostring;
  Arguments : gostring   (* the arguments as a JSON object *)
}.

(** The zero value [ToolCallInfo{}]. *)
Definition noToolCall : ToolCallInfo := {| ToolName := []; Arguments := [] |}.

(** [<func_call>([\s\S]*?)</func_call>] *)
Definition funcCallRegex : regex :=
  (Lit (str "<func_call>") +> Group (StarLazy any_char) +> Lit (str "</func_call>"))%re.

(** [<tool_name>(.*?)</tool_name>] *)
Definition toolNameRegex : regex :=
  (Lit (str "<tool_name>") +> Group (StarLazy dot) +> Lit (str "</tool_name>"))%re.

(** [<arguments>([\s\S]*?)</arguments>] *)
Definition argsRegex : regex :=
  (Lit (str "<arguments>") +> Group (StarLazy any_char) +> Lit (str "</arguments>"))%re.

(** The generic tag pattern: [<(\w+)>], then a group of [[^<]] under a
    greedy star, then [</(\w+)>]. *)
Definition tagRegex : regex :=
  (Lit (str "<") +> Group (Plus word) +> Lit (str ">") +> Group (Star not_lt)
   +> Lit (str "</") +> Group (Plus word) +> Lit (str ">"))%re.

(** [<func_call>[\s\S]*?</func_call>], the pattern of [buildFinalReply]. *)
Definition funcCallBlockRegex : regex :=
  (Lit (str "<func_call>") +> StarLazy any_char +> Lit (str "</func_call>"))%re.

(** The body of the loop over [tagMatches]: one iteration on [match_],
    with the argument mapping built so far. *)
Definition recordTag (args : gmap gostring ArgValue) (match_ : list gostring)
    : gmap gostring ArgValue :=
  if (4 <=? length match_)%nat then
    let openTag := nth 1 match_ [] in
    let value := TrimSpace (nth 2 match_ []) in
    let closeTag := nth 3 match_ [] in
    if decide (openTag ≠ closeTag) then args
    else if decide (openTag = str "customerPhone" ∨ openTag = str "orderId")
    then <[openTag := VString value]> args
    else match Strconv.Atoi value with
         | Some intValue => <[openTag := VInt intValue]> args
         | None => <[openTag := VString value]> args
         end
  else args.

(** The argument mapping of an [<arguments>] content. *)
Definition parseArguments (argsContent : gostring) : gmap gostring ArgValue :=
  let tagMatches := FindAllStringSubmatch tagRegex argsContent in
  fold_left recordTag tagMatches ∅.

Section Parse.
Variable quote : gostring → gostring.

Definition parseToolCallFromXML (response : gostring) : ToolCallInfo * bool :=
  if negb (Contains response (str "<func_call>")) then (noToolCall, false)
  else
    let matches := FindStringSubmatch funcCallRegex response in
    if (length matches <? 2)%nat then (noToolCall, false)
    else
      let funcCallContent := nth 1 matches [] in
      let toolNameMatches := FindStringSubmatch toolNameRegex funcCallContent in
      if (length toolNameMatches <? 2)%nat then (noToolCall, false)
      else
        let toolName := TrimSpace (nth 1 toolNameMatches []) in
        let argsMatches := FindStringSubmatch argsRegex funcCallContent in
        if (length argsMatches <? 2)%nat then (noToolCall, false)
        else
          let argsContent := nth 1 argsMatches [] in
          let args := parseArguments argsContent in
          (* json.Marshal of a map of strings and ints has no error *)
          let argsJSON := Marshal quote args in
          ({| ToolName := toolName; Arguments := argsJSON |}, true).

End Parse.

(** [buildFinalReply]: strip every directive block, trim, append the result. *)
Definition buildFinalReply (llmResponse toolResult : gostring) : gostring :=
  let cleanResponse := ReplaceAllString funcCallBlockRegex llmResponse [] in
  let cleanResponse := TrimSpace cleanResponse in
  if decide (cleanResponse = []) then toolResult
  else cleanResponse ++ str "

" ++ toolResult.

End XMLParser.

(** * Go's [(value, error)] results *)

Inductive result (A : Type) : Type :=
| Ok (a : A)
| Err (msg : gostring).   (* a non-nil [error], with its [Error()] text *)
Arguments Ok {A} a.
Arguments Err {A} msg.

(** * [llm/dashscope_client.go]: the data the orchestration reads *)

Module LLM.
Import Strings.

Record Message : Type := { Role : gostring; Content : gostring }.

#[global] Instance Message_eq_dec : EqDecision Message.
Proof. solve_decision. Defined.

(** [Tool]: a tool definition offered to the model (its JSON schema
    [Parameters] is only forwarded to the endpoint and is left out). *)
Record Tool : Type := {
  ToolType : gostring;
  FunctionName : gostring;
  FunctionDescription : gostring
}.

Record ToolCall : Type := {
  CallID : gostring;
  CallType : gostring;
  CallName : gostring;        (* Function.Name *)
  CallArguments : gostring    (* Function.Arguments *)
}.

Record Choice : Type := {
  FinishReason : gostring;
  MessageContent : gostring;
  ToolCalls : list ToolCall
}.

(** [ChatResponse.Output] *)
Record ChatResponse : Type := {
  OutputText : gostring;
  Choices : list Choice
}.

Definition GetTextResponse (chatResp : ChatResponse) : gostring :=
  if decide (OutputText chatResp ≠ []) then OutputText chatResp
  else match Choices chatResp with
       | [] => []
       | c :: _ => MessageContent c
       end.

Definition GetToolCalls (chatResp : ChatResponse) : list ToolCall :=
  if decide (OutputText chatResp ≠ []) then []
  else match Choices chatResp with
       | [] => []
       | c :: _ => ToolCalls c
       end.

Definition ShouldCallTool (chatResp : ChatResponse) : bool :=
  if decide (OutputText chatResp ≠ []) then false
  else match Choices chatResp with
       | [] => false
       | c :: _ => Contains (FinishReason c) (str "tool_calls")
       end.

End LLM.

(** * [rag/chroma_client.go] *)

Module RAG.

(** A dynamically typed metadata value: the service only asks whether it
    is a string. *)
Inductive Any : Type :=
| AString (s : gostring)
| AOther.

(** [Document] (the [float64] distance is never read by the service). *)
Record Document : Type := {
  DocID : gostring;
  Text : gostring;
  Metadata : gmap gostring Any
}.

(** The body of the loop of [FormatContext], at index [i]. *)
Definition formatEntry (context : gostring) (i : Z) (doc : Document) : gostring :=
  let context := context ++ Strconv.Itoa (i + 1) ++ str ". " ++ Text doc ++ str "
" in
  match Metadata doc !! str "category" with
  | Some (AString category) => context ++ str "   分类: " ++ category ++ str "
"
  | _ => context
  end.

(** [for i, doc := range documents]: the accumulator and the next index. *)
Definition formatLoop (documents : list Document) (context : gostring) : gostring * Z :=
  fold_left (λ '(context, i) doc, (formatEntry context i doc, (i + 1)%Z))
            documents (context, 0%Z).

Definition FormatContext (documents : list Document) : gostring :=
  if decide (length documents = 0%nat) then []
  else
    let context := str "以下是相关的知识库信息:

" in
    (formatLoop documents context).1.

End RAG.

(** * [mcp/client.go] and [mcp/executor.go]: one caller at a time *)

Module MCP.

Section Client.
(** [JVal]: the values of a decoded JSON argument object
    ([map[string]interface{}] after [json.Unmarshal]). *)
Context {JVal : Type}.

Inductive Params : Type :=
| ParamsNone                                                (* omitted *)
| ParamsInitialize                                          (* protocol version, client info *)
| ParamsCall (name : gostring) (arguments : gmap gostring JVal).

Record MCPRequest : Type := {
  Jsonrpc : gostring;
  ID : Z;
  Method : gostring;
  ReqParams : Params
}.

Record MCPError : Type := { Code : Z; ErrMessage : gostring }.

Record ContentBlock : Type := { BlockType : gostring; BlockText : gostring }.

(** [json.RawMessage] of a result, by what [json.Unmarshal] makes of it:
    a JSON object (or [null]) gives the [content] blocks and the [tools]
    names it holds, both empty when absent; anything else is an error. *)
Inductive RawMessage : Type :=
| RawObject (content : list ContentBlock) (tools : list gostring)
| RawInvalid (err : gostring).

Record MCPResponse : Type := {
  RespID : Z;
  Result : RawMessage;
  Error : option MCPError
}.

(** What one write-then-read on the pipes gives: the four exits of
    [sendRequest] after the request is serialized. *)
Inductive Exchange : Type :=
| WriteFailed (err : gostring)
| ReadFailed (err : gostring)
| Garbled (err : gostring)          (* the line is not a JSON envelope *)
| Envelope (resp : MCPResponse).

(** What [NewMCPClient] gets when it creates the three pipes and starts
    the process: one of its four error exits before the handshake, or the
    running sidecar. *)
Inductive Spawn : Type :=
| StdinPipeFailed (err : gostring)
| StdoutPipeFailed (err : gostring)
| StderrPipeFailed (err : gostring)
| StartFailed (err : gostring)
| Started.

(** The client object; the process handle and the three pipes belong to
    the world outside. *)
Record MCPClient : Type := { msgID : Z }.

(** Go's [int] is 64 bits wide and wraps around. *)
Definition wrap_int (n : Z) : Z := ((n + 2 ^ 63) mod 2 ^ 64 - 2 ^ 63)%Z.

(** [nextID]: [c.msgID++; return c.msgID]. *)
Definition nextID (c : MCPClient) : Z * MCPClient :=
  let c' := {| msgID := wrap_int (msgID c + 1) |} in
  (msgID c', c').

End Client.
Arguments Params : clear implicits.
Arguments MCPRequest : clear implicits.

End MCP.

(** * The running service: [mcp/client.go], [mcp/executor.go] and
      [handlers/chat_handler.go]

    The model endpoint, the vector store and the sidecar process are
    outside the service.  Their state is a value of an arbitrary type [W],
    and what they answer is given by the functions of [External]; the
    JSON codecs of the standard library that the service calls on data
    from outside are the functions of [Codec].  The service threads a
    [State] through its calls; [trace] records what it sent outside. *)

Module Service.
Import Strings Regexp JSON XMLParser LLM RAG MCP.

Section Service.
Context {JVal W : Type}.

Record Codec : Type := {
  (** JSON string literal of a Go string ([json.Marshal]) *)
  quote : gostring → gostring;
  (** [json.Unmarshal] of an argument string into a [map[string]interface{}] *)
  unmarshalArgs : gostring → result (gmap gostring JVal);
  (** [json.Valid], [json.Unmarshal] into a map and [json.MarshalIndent]:
      the indented form of a text that is a JSON object *)
  indentObject : gostring → option gostring
}.

Record External : Type := {
  (** the embedding call and the vector-store query of [SearchKnowledge]:
      the documents and the error it returns, or [None] when it does not
      return, the run-time panic of [queryChroma] on an answer with fewer
      ids than documents *)
  ragSearch : gostring → Z → W → option (list Document * option gostring) * W;
  (** [DashScopeClient.Chat] *)
  llmChat : list Message → list Tool → W → result ChatResponse * W;
  (** [os.Getenv] *)
  getenv : gostring → W → gostring;
  (** [exec.Command] with the script path, the three pipes, [cmd.Start] *)
  startSidecar : gostring → W → Spawn * W;
  (** [Close]: the input pipe closed, the process awaited *)
  closeSidecar : W → W;
  (** the pipes and the sidecar: one request line written, one line read *)
  sidecar : MCPRequest JVal → W → Exchange * W
}.

Variable codec : Codec.
Variable ext : External.

Inductive Event : Type :=
| EvSearch (query : gostring) (topK : Z)
| EvChat (messages : list Message) (tools : list Tool) (answer : result ChatResponse)
| EvStart (mcpServerPath : gostring) (answer : Spawn)
| EvClose
| EvSend (req : MCPRequest JVal) (answer : Exchange).

Record State : Type := {
  world : W;
  client : MCPClient;     (* the object behind [globalMCPClient] *)
  ready : bool;           (* [globalMCPClient != nil] *)
  trace : list Event
}.

Definition M (A : Type) : Type := State → A * State.

Definition ret {A : Type} (a : A) : M A := λ st, (a, st).

Definition bind {A B : Type} (m : M A) (k : A → M B) : M B :=
  λ st, let '(a, st') := m st in k a st'.

Notation "'let*' x ':=' m 'in' k" := (bind m (λ x, k))
  (at level 10, x name, m at level 100, k at level 200).

Definition emit (w : W) (e : Event) (st : State) : State :=
  {| world := w; client := client st; ready := ready st; trace := trace st ++ [e] |}.

(** ** The three calls that leave the service *)

Definition defaultTopK : Z := 3.

(** [ChromaClient.SearchKnowledge]; [None] when the call panics. *)
Definition SearchKnowledge (query : gostring) (topK : Z)
    : M (option (list Document * option gostring)) :=
  λ st,
    let topK := if (topK <=? 0)%Z then defaultTopK else topK in
    let '(r, w) := ragSearch ext query topK (world st) in
    (r, emit w (EvSearch query topK) st).

(** [DashScopeClient.Chat] *)
Definition Chat (messages : list Message) (tools : list Tool) : M (result ChatResponse) :=
  λ st,
    let '(r, w) := llmChat ext messages tools (world st) in
    (r, emit w (EvChat messages tools r) st).

(** ** [mcp/client.go] *)

(** [c.nextID()] on the client object. *)
Definition allocID : M Z :=
  λ st,
    let '(id, c) := nextID (client st) in
    (id, {| world := world st; client := c; ready := ready st; trace := trace st |}).

(** [sendRequest]: with [c.mu] held from entry to return, serialize the
    request, write it and a newline, read one line, decode it. *)
Definition sendRequest (req : MCPRequest JVal) : M (result MCPResponse) :=
  λ st,
    let '(x, w) := sidecar ext req (world st) in
    let st' := emit w (EvSend req x) st in
    match x with
    | WriteFailed e => (Err (str "发送请求失败: " ++ e), st')
    | ReadFailed e => (Err (str "读取响应失败: " ++ e), st')
    | Garbled e => (Err (str "解析响应失败: " ++ e), st')
    | Envelope resp => (Ok resp, st')
    end.

Definition initialize : M (option gostring) :=
  let* id := allocID in
  let req := {| Jsonrpc := str "2.0"; ID := id; Method := str "initialize";
                ReqParams := ParamsInitialize |} in
  let* r := sendRequest req in
  match r with
  | Err e => ret (Some e)
  | Ok resp =>
    match Error resp with
    | Some e => ret (Some (str "MCP 初始化错误: " ++ ErrMessage e))
    | None => ret None
    end
  end.

Definition ListTools : M (result (list gostring)) :=
  let* id := allocID in
  let req := {| Jsonrpc := str "2.0"; ID := id; Method := str "tools/list";
                ReqParams := ParamsNone |} in
  let* r := sendRequest req in
  match r with
  | Err e => ret (Err e)
  | Ok resp =>
    match Error resp with
    | Some e => ret (Err (str "列出工具失败: " ++ ErrMessage e))
    | None =>
      match Result resp with
      | RawInvalid e => ret (Err e)
      | RawObject _ tools => ret (Ok tools)
      end
    end
  end.

(** The request of [CallTool]. *)
Definition toolsCallRequest (id : Z) (toolName : gostring)
    (arguments : gmap gostring JVal) : MCPRequest JVal :=
  {| Jsonrpc := str "2.0"; ID := id; Method := str "tools/call";
     ReqParams := ParamsCall toolName arguments |}.

Definition CallTool (toolName : gostring) (arguments : gmap gostring JVal)
    : M (result gostring) :=
  let* id := allocID in
  let req := toolsCallRequest id toolName arguments in
  let* r := sendRequest req in
  match r with
  | Err e => ret (Err e)
  | Ok resp =>
    match Error resp with
    | Some e => ret (Err (str "工具调用失败: " ++ ErrMessage e))
    | None =>
      match Result resp with
      | RawInvalid e => ret (Err (str "解析工具结果失败: " ++ e))
      | RawObject content _ =>
        match content with
        | block :: _ => ret (Ok (BlockText block))
        | [] => ret (Err (str "工具返回空结果"))
        end
      end
    end
  end.

(** [Close]: [c.stdin.Close()], [c.cmd.Wait()]; it returns [nil]. *)
Definition Close : M unit :=
  λ st, (tt, emit (closeSidecar ext (world st)) EvClose st).

(** The methods of a client object that is not the global one run on
    that object: [onClient c st] is the state in which they do. *)
Definition onClient (c : MCPClient) (st : State) : State :=
  {| world := world st; client := c; ready := ready st; trace := trace st |}.

(** [NewMCPClient]: the pipes and the process, with the four error
    returns before any message is written; then the client object with
    the counter at 0 and the handshake, after a failure of which the
    client is closed.  The global client is not touched. *)
Definition NewMCPClient (mcpServerPath : gostring) : M (result MCPClient) :=
  λ st,
    let '(x, w) := startSidecar ext mcpServerPath (world st) in
    let st0 := emit w (EvStart mcpServerPath x) st in
    match x with
    | StdinPipeFailed e => (Err (str "创建 stdin 管道失败: " ++ e), st0)
    | StdoutPipeFailed e => (Err (str "创建 stdout 管道失败: " ++ e), st0)
    | StderrPipeFailed e => (Err (str "创建 stderr 管道失败: " ++ e), st0)
    | StartFailed e => (Err (str "启动 MCP Server 失败: " ++ e), st0)
    | Started =>
      let '(err, st1) := initialize (onClient {| msgID := 0 |} st0) in
      match err with
      | Some e =>
        let '(_, st2) := Close st1 in
        (Err (str "初始化 MCP 会话失败: " ++ e), onClient (client st) st2)
      | None => (Ok (client st1), onClient (client st) st1)
      end
    end.

Definition defaultServerPath : gostring := str "/root/mcp-server/server.py".

(** [InitMCPClient]: the path of the script from the environment, the
    new client; on success the global client is set and the tools are
    listed, a failure of the listing being only logged. *)
Definition InitMCPClient : M (option gostring) :=
  λ st,
    let mcpServerPath := getenv ext (str "MCP_SERVER_PATH") (world st) in
    let mcpServerPath :=
      if decide (mcpServerPath = []) then defaultServerPath else mcpServerPath in
    let '(r, st1) := NewMCPClient mcpServerPath st in
    match r with
    | Err err => (Some err, st1)
    | Ok c =>
      let st2 := {| world := world st1; client := c; ready := true;
                    trace := trace st1 |} in
      let '(_, st3) := ListTools st2 in
      (None, st3)
    end.

(** ** [mcp/executor.go] *)

Definition Execute (toolName arguments : gostring) : M (result gostring) :=
  λ st,
    if negb (ready st) then (Err (str "MCP Client 未初始化"), st)
    else
      match unmarshalArgs codec arguments with
      | Err e => (Err (str "参数格式错误: " ++ e), st)
      | Ok args =>
        let '(r, st') := CallTool toolName args st in
        match r with
        | Err e => (Err (str "工具调用失败: " ++ e), st')
        | Ok res => (Ok res, st')
        end
      end.

(** ** [handlers/chat_handler.go] *)

Record HistoryMessage : Type := { HRole : gostring; HContent : gostring }.

Record ChatRequest : Type := {
  ReqMessage : gostring;
  UserID : gostring;
  SessionID : gostring;
  History : list HistoryMessage
}.

Record ChatResponseBody : Type := { Reply : gostring; ReplySessionID : gostring }.

Inductive Body : Type :=
| ErrorJSON (error : gostring)            (* [gin.H{"error": ...}] *)
| ChatJSON (r : ChatResponseBody).

Record HTTPResponse : Type := { Status : Z; RespBody : Body }.

Definition StatusOK : Z := 200.
Definition StatusBadRequest : Z := 400.
Definition StatusInternalServerError : Z := 500.

(** [c.ShouldBindJSON(&req)]: [None] is a body that does not decode;
    [binding:"required"] refuses an empty message. *)
Definition ShouldBindJSON (body : option ChatRequest) : result ChatRequest :=
  match body with
  | None => Err (str "invalid request body")
  | Some req =>
    if decide (ReqMessage req = []) then Err (str "Message is required") else Ok req
  end.

Definition systemPrompt : Message :=
  {| Role := str "system";
     Content := str "你是一个智能客服助手,负责帮助用户完成订单操作和解答问题。

你的能力:
1. 搜索商品 (search_product) - 当用户询问商品信息、价格、库存时
2. 创建订单 (create_order) - 当用户提供商品名称、数量、姓名、电话、地址时
3. 查询订单 (query_order) - 当用户询问订单状态时
4. 取消订单 (cancel_order) - 当用户要求取消订单时
5. 回答售后问题

⚠️ 工具调用格式规范:
当需要调用工具时,必须使用以下 XML 格式输出,参数名称必须精确匹配:

搜索商品示例:
<func_call>
<tool_name>search_product</tool_name>
<arguments>
<keyword>山地自行车</keyword>
</arguments>
</func_call>

创建订单示例:
<func_call>
<tool_name>create_order</tool_name>
<arguments>
<productName>山地自行车</productName>
<quantity>2</quantity>
<customerName>张三</customerName>
<customerPhone>13800138000</customerPhone>
<shippingAddress>北京市朝阳区建国路1号</shippingAddress>
</arguments>
</func_call>

查询订单示例:
<func_call>
<tool_name>query_order</tool_name>
<arguments>
<orderNumber>ORD-1234567890</orderNumber>
</arguments>
</func_call>

取消订单示例:
<func_call>
<tool_name>cancel_order</tool_name>
<arguments>
<orderNumber>ORD-1234567890</orderNumber>
</arguments>
</func_call>

重要:
- 必须严格按照上述 XML 格式输出
- 在 <func_call> 标签前后可以添加说明文字
- 如果信息不完整,先询问用户,不要调用工具" |}.

(** One iteration of the loop over [req.History]. *)
Definition appendHistory (req : ChatRequest) (messages : list Message)
    (histMsg : HistoryMessage) : list Message :=
  if decide (HContent histMsg = ReqMessage req ∧ HRole histMsg = str "user")
  then messages
  else messages ++ [{| Role := HRole histMsg; Content := HContent histMsg |}].

(** Step 2 of [HandleChat]: the message list sent to the model. *)
Definition assembleMessages (req : ChatRequest) (knowledgeDocs : list Document)
    : list Message :=
  let messages := [systemPrompt] in
  let messages :=
    if (0 <? length knowledgeDocs)%nat
    then messages ++ [{| Role := str "system"; Content := FormatContext knowledgeDocs |}]
    else messages in
  let messages :=
    if (0 <? length (History req))%nat
    then fold_left (appendHistory req) (History req) messages
    else messages in
  messages ++ [{| Role := str "user"; Content := ReqMessage req |}].

(** [c.JSON(status, body)] and the return of the handler. *)
Definition respond (status : Z) (body : Body) : M (option HTTPResponse) :=
  ret (Some {| Status := status; RespBody := body |}).

(** [HandleChat]; [None] when the handler panics: it has written no
    response, and the panic goes up to the caller. *)
Definition HandleChat (body : option ChatRequest) : M (option HTTPResponse) :=
  match ShouldBindJSON body with
  | Err _ => respond StatusBadRequest (ErrorJSON (str "无效的请求"))
  | Ok req =>
    (* 1. retrieval; an error is logged and the turn goes on *)
    let* found := SearchKnowledge (ReqMessage req) 3 in
    match found with
    | None => ret None
    | Some (knowledgeDocs, _) =>
    (* 2. the message list *)
    let messages := assembleMessages req knowledgeDocs in
    (* 3. the model, without tools *)
    let* r := Chat messages [] in
    match r with
    | Err _ => respond StatusInternalServerError (ErrorJSON (str "处理失败,请稍后再试"))
    | Ok response =>
      let responseText := OutputText response in
      (* 4. a directive in the text *)
      let '(toolCall, found) := parseToolCallFromXML (quote codec) responseText in
      if found then
        let* r := Execute (ToolName toolCall) (Arguments toolCall) in
        match r with
        | Err err =>
          respond StatusOK
            (ChatJSON {| Reply := str "抱歉，订单处理失败: " ++ err;
                         ReplySessionID := SessionID req |})
        | Ok res =>
          let finalReply := buildFinalReply responseText res in
          respond StatusOK
            (ChatJSON {| Reply := finalReply; ReplySessionID := SessionID req |})
        end
      else
        (* 5. no directive: the text of the model as it is *)
        respond StatusOK
          (ChatJSON {| Reply := responseText; ReplySessionID := SessionID req |})
    end
    end
  end.

(** ** [chatWithToolCalling] *)

Definition maxIterations : nat := 5.

Definition fallbackReply : gostring := str "抱歉,处理您的请求时遇到了问题,请稍后再试。".

(** The body of the loop over [toolCalls]. *)
Definition runToolCall (currentMessages : list Message) (toolCall : ToolCall)
    : M (list Message) :=
  let* r := Execute (CallName toolCall) (CallArguments toolCall) in
  let res := match r with
             | Ok res => res
             | Err err => str "工具执行失败: " ++ err
             end in
  let content := match indentObject codec res with
                 | Some pretty => pretty
                 | None => res
                 end in
  ret (currentMessages ++ [{| Role := str "tool"; Content := content |}]).

Fixpoint runToolCalls (toolCalls : list ToolCall) (currentMessages : list Message)
    : M (list Message) :=
  match toolCalls with
  | [] => ret currentMessages
  | toolCall :: rest =>
    let* currentMessages := runToolCall currentMessages toolCall in
    runToolCalls rest currentMessages
  end.

(** [for i := 0; i < maxIterations; i++], by the rounds that remain. *)
Fixpoint toolRounds (tools : list Tool) (remaining : nat)
    (currentMessages : list Message) : M (result gostring) :=
  match remaining with
  | O => ret (Ok fallbackReply)
  | S remaining' =>
    let* r := Chat currentMessages tools in
    match r with
    | Err err => ret (Err err)
    | Ok response =>
      if ShouldCallTool response then
        let toolCalls := GetToolCalls response in
        let assistantMsg := {| Role := str "assistant"; Content := [] |} in
        let currentMessages := currentMessages ++ [assistantMsg] in
        let* currentMessages := runToolCalls toolCalls currentMessages in
        toolRounds tools remaining' currentMessages
      else ret (Ok (GetTextResponse response))
    end
  end.

Definition chatWithToolCalling (messages : list Message) (tools : list Tool)
    : M (result gostring) :=
  toolRounds tools maxIterations messages.

End Service.

Arguments Codec : clear implicits.
Arguments External : clear implicits.
Arguments Event : clear implicits.
Arguments State : clear implicits.

End Service.

(** * The directive grammar of the system prompt

    A directive block as the prompt shows it: the tool name field, then
    the arguments block with flat tag pairs, with text free of [<]
    between the tags.  A pair may carry a close tag that differs from its
    open tag. *)

Module Directive.
Import Strings Regexp JSON.

Record Field : Type := {
  key : gostring;        (* name of the open tag *)
  value : gostring;
  closeKey : gostring;   (* name of the close tag *)
  gap : gostring         (* text after the pair *)
}.

Record Block : Type := {
  lead0 : gostring;      (* after [<func_call>] *)
  name : gostring;
  lead1 : gostring;      (* after [</tool_name>] *)
  lead2 : gostring;      (* after [<arguments>] *)
  fields : list Field;
  lead3 : gostring       (* after [</arguments>] *)
}.

Definition openTag (k : gostring) : gostring := str "<" ++ k ++ str ">".
Definition closeTag (k : gostring) : gostring := str "</" ++ k ++ str ">".

Definition renderPair (f : Field) : gostring :=
  openTag (key f) ++ value f ++ closeTag (closeKey f).

Definition renderField (f : Field) : gostring := renderPair f ++ gap f.

Definition renderFields (fs : list Field) : gostring := concat (renderField <$> fs).

Definition argsText (b : Block) : gostring := lead2 b ++ renderFields (fields b).

Definition content (b : Block) : gostring :=
  lead0 b ++ openTag (str "tool_name") ++ name b ++ closeTag (str "tool_name")
  ++ lead1 b ++ openTag (str "arguments") ++ argsText b ++ closeTag (str "arguments")
  ++ lead3 b.

Definition render (b : Block) : gostring :=
  openTag (str "func_call") ++ content b ++ closeTag (str "func_call").

(** Text without [<]. *)
Definition clean (s : gostring) : bool := forallb not_lt s.

(** A tag name: [\w+]. *)
Definition is_word (s : gostring) : bool :=
  forallb word s && negb (bool_decide (s = [])).

Definition wf_field (f : Field) : bool :=
  is_word (key f) && is_word (closeKey f) && clean (value f) && clean (gap f)
  && negb (bool_decide (closeKey f = str "arguments"))
  && negb (bool_decide (closeKey f = str "func_call")).

Definition wf_block (b : Block) : bool :=
  clean (lead0 b) && clean (name b) && forallb dot (name b)
  && bool_decide (TrimSpace (name b) = name b)
  && clean (lead1 b) && clean (lead2 b) && clean (lead3 b)
  && forallb wf_field (fields b).

(** The value typing policy, in the words of the specification: the phone
    and order-identifier fields stay text, any other field is an integer
    when its text parses fully as one. *)
Definition typedValue (k v : gostring) : ArgValue :=
  if bool_decide (k = str "customerPhone") || bool_decide (k = str "orderId")
  then VString v
  else match Strconv.Atoi v with
       | Some n => VInt n
       | None => VString v
       end.

Definition matching (k : gostring) (f : Field) : bool :=
  bool_decide (key f = k) && bool_decide (closeKey f = k).

(** What the mapping must hold for [k]: the last matching pair named [k]. *)
Definition recorded (fs : list Field) (k : gostring) : option ArgValue :=
  (λ f, typedValue k (TrimSpace (value f))) <$> last (filter (λ f, matching k f = true) fs).

(** A response with several blocks: each segment is a narrative text and
    the content of the block that follows it; [post] is the text after the
    last block. *)
Definition withBlocks (segments : list (gostring * gostring)) (post : gostring) : gostring :=
  concat ((λ seg, seg.1 ++ str "<func_call>" ++ seg.2 ++ str "</func_call>") <$> segments)
  ++ post.

(** The narrative has no opening marker and the content no closing one. *)
Definition closed_segment (seg : gostring * gostring) : Prop :=
  Contains seg.1 (str "<func_call>") = false
  ∧ Contains seg.2 (str "</func_call>") = false.

(** The same response without its blocks. *)
Definition narrative (segments : list (gostring * gostring)) (post : gostring) : gostring :=
  concat (fst <$> segments) ++ post.

(** The submatches of the tag pattern on the pair of [f]. *)
Definition tagMatch (f : Field) : list gostring :=
  [renderPair f; key f; value f; closeKey f].

(** No position of [x] starts an occurrence of [p], whatever follows [x]. *)
Definition quiet (p x : gostring) : Prop :=
  ∀ tail a c b, x = a ++ c :: b → HasPrefix (c :: b ++ tail) p = false.

End Directive.

(** * The retrieved-context message and the kept history, as the
      specification words them *)

Module Assembly.
Import LLM RAG Service.

Definition contextHeader : gostring := str "以下是相关的知识库信息:

".

(** Entry [i] (from 0) of the enumerated list. *)
Definition contextEntry (i : nat) (doc : Document) : gostring :=
  Strconv.Itoa (Z.of_nat i + 1) ++ str ". " ++ Text doc ++ str "
" ++
  match Metadata doc !! str "category" with
  | Some (AString category) => str "   分类: " ++ category ++ str "
"
  | _ => []
  end.

Definition contextMessage (docs : list Document) : Message :=
  {| Role := str "system";
     Content := contextHeader ++ concat (imap contextEntry docs) |}.

Definition echoes (req : ChatRequest) (h : HistoryMessage) : Prop :=
  HRole h = str "user" ∧ HContent h = ReqMessage req.

#[global] Instance echoes_dec req h : Decision (echoes req h).
Proof. unfold echoes. apply _. Defined.

Definition toMessage (h : HistoryMessage) : Message :=
  {| Role := HRole h; Content := HContent h |}.

(** The history without the echoes of the current turn, in its order. *)
Definition keptHistory (req : ChatRequest) : list Message :=
  toMessage <$> filter (λ h, ¬ echoes req h) (History req).

Definition currentMessage (req : ChatRequest) : Message :=
  {| Role := str "user"; Content := ReqMessage req |}.

(** The HTTP success response that carries a reply. *)
Definition replied (text sessionID : gostring) : HTTPResponse :=
  {| Status := StatusOK;
     RespBody := ChatJSON {| Reply := text; ReplySessionID := sessionID |} |}.

(** A request line written to the sidecar. *)
Definition is_send {JVal : Type} (e : Event JVal) : Prop :=
  match e with EvSend _ _ => True | _ => False end.

End Assembly.

(** * The iterative tool-calling loop, as the specification words it

    An explicit loop with an upper bound on its rounds: a round that
    requests no tool call ends it with the text of that round; a round
    that requests tool calls appends the assistant message, executes the
    calls in their order and appends one tool-result message per executed
    call, and the next round sees that conversation. *)

Module ToolLoop.
Import LLM Service.

Section Rounds.
Context {JVal W : Type} (codec : Codec JVal) (ext : External JVal W).

(** The rounds of a trace: the conversation sent and the answer. *)
Definition chatRounds (evs : list (Event JVal))
    : list (list Message * result ChatResponse) :=
  omap (λ e, match e with
             | EvChat messages _ answer => Some (messages, answer)
             | _ => None
             end) evs.

Definition assistantTurn : Message := {| Role := str "assistant"; Content := [] |}.

Definition requestsTools (round : list Message * result ChatResponse) : Prop :=
  ∃ r, round.2 = Ok r ∧ ShouldCallTool r = true.

(** The tool-result message of an executed call: the result text, or
    the failure text followed by the error; a text that is a JSON object
    goes in its indented form. *)
Definition toolMessage (r : result gostring) : Message :=
  let text := match r with
              | Ok res => res
              | Err err => str "工具执行失败: " ++ err
              end in
  {| Role := str "tool"; Content := default text (indentObject codec text) |}.

(** [Executed calls st toolMessages st']: from the state [st] the calls
    are executed one after the other, each on the state its predecessor
    has left, and [toolMessages] holds the tool-result message of each, in
    the order of the calls. *)
Inductive Executed : list ToolCall → State JVal W → list Message → State JVal W → Prop :=
| executed_none st :
    Executed [] st [] st
| executed_call toolCall toolCalls st r st1 toolMessages st2 :
    Execute codec ext (CallName toolCall) (CallArguments toolCall) st = (r, st1) →
    Executed toolCalls st1 toolMessages st2 →
    Executed (toolCall :: toolCalls) st (toolMessage r :: toolMessages) st2.

(** [Rounds tools n conversation st rounds res st']: the loop with [n]
    rounds left, from the state [st], calls the model as [rounds] tells,
    returns [res] and leaves the state [st']. *)
Inductive Rounds (tools : list Tool)
  : nat → list Message → State JVal W → list (list Message * result ChatResponse)
    → result gostring → State JVal W → Prop :=
| rounds_exhausted conversation st :
    Rounds tools 0 conversation st [] (Ok fallbackReply) st
| rounds_failed n conversation st err st1 :
    Chat ext conversation tools st = (Err err, st1) →
    Rounds tools (S n) conversation st [(conversation, Err err)] (Err err) st1
| rounds_answered n conversation st r st1 :
    Chat ext conversation tools st = (Ok r, st1) →
    ShouldCallTool r = false →
    Rounds tools (S n) conversation st [(conversation, Ok r)]
           (Ok (GetTextResponse r)) st1
| rounds_called n conversation st r st1 toolMessages st2 rounds res st3 :
    Chat ext conversation tools st = (Ok r, st1) →
    ShouldCallTool r = true →
    Executed (GetToolCalls r) st1 toolMessages st2 →
    Rounds tools n (conversation ++ assistantTurn :: toolMessages) st2 rounds res st3 →
    Rounds tools (S n) conversation st ((conversation, Ok r) :: rounds) res st3.

End Rounds.

End ToolLoop.

(** * Goroutines on the one client: [CallTool] step by step

    [CallTool] first runs [nextID] ([c.msgID++], [return c.msgID]) and
    then [sendRequest], which takes [c.mu], writes, reads and releases the
    lock when it returns.  Each access to shared memory is one step; a
    schedule names the goroutine that moves next and tells whether the
    input or output of that step succeeds. *)

Module Concurrent.

Inductive pc : Type :=
| AtLoad      (* nextID: read [c.msgID] *)
| AtStore     (* nextID: write [c.msgID] *)
| AtReturn    (* nextID: read [c.msgID] for the result *)
| AtLock      (* sendRequest: [c.mu.Lock()] *)
| AtWrite     (* serialize, [c.stdin.Write] *)
| AtRead      (* [reader.ReadBytes], decode *)
| AtUnlock    (* the deferred [c.mu.Unlock()] *)
| AtDone.

#[global] Instance pc_eq_dec : EqDecision pc.
Proof. solve_decision. Defined.

Record goroutine : Type := { at_pc : pc; tmp : Z; reqID : Z }.

Inductive wire : Type :=
| Wrote (g : nat) (id : Z)     (* goroutine [g] wrote the request line with [id] *)
| ReadLine (g : nat).          (* goroutine [g] read one response line *)

Record conn : Type := {
  msgID : Z;
  mu : option nat;             (* the goroutine that holds the lock *)
  pipe : list wire;
  goroutines : list goroutine
}.

Definition calling : goroutine := {| at_pc := AtLoad; tmp := 0; reqID := 0 |}.

Definition move (c : conn) (g : nat) (t : goroutine) (id : Z) (m : option nat)
    (p : list wire) : conn :=
  {| msgID := id; mu := m; pipe := p; goroutines := <[g := t]> (goroutines c) |}.

Definition step (g : nat) (io_ok : bool) (c : conn) : conn :=
  match goroutines c !! g with
  | None => c
  | Some t =>
    let at_ p := {| at_pc := p; tmp := tmp t; reqID := reqID t |} in
    match at_pc t with
    | AtLoad =>
      move c g {| at_pc := AtStore; tmp := msgID c; reqID := reqID t |}
           (msgID c) (mu c) (pipe c)
    | AtStore => move c g (at_ AtReturn) (MCP.wrap_int (tmp t + 1)) (mu c) (pipe c)
    | AtReturn =>
      move c g {| at_pc := AtLock; tmp := tmp t; reqID := msgID c |}
           (msgID c) (mu c) (pipe c)
    | AtLock =>
      match mu c with
      | None => move c g (at_ AtWrite) (msgID c) (Some g) (pipe c)
      | Some _ => c                      (* blocked *)
      end
    | AtWrite =>
      if io_ok then move c g (at_ AtRead) (msgID c) (mu c) (pipe c ++ [Wrote g (reqID t)])
      else move c g (at_ AtUnlock) (msgID c) (mu c) (pipe c)
    | AtRead =>
      if io_ok then move c g (at_ AtUnlock) (msgID c) (mu c) (pipe c ++ [ReadLine g])
      else move c g (at_ AtUnlock) (msgID c) (mu c) (pipe c)
    | AtUnlock => move c g (at_ AtDone) (msgID c) None (pipe c)
    | AtDone => c
    end
  end.

Definition run (schedule : list (nat * bool)) (c : conn) : conn :=
  fold_left (λ c gi, step gi.1 gi.2 c) schedule c.

(** [n] goroutines about to call [CallTool], the counter at [id0]. *)
Definition start (id0 : Z) (n : nat) : conn :=
  {| msgID := id0; mu := None; pipe := []; goroutines := replicate n calling |}.

(** One goroutine runs its whole call without failure. *)
Definition whole_call (g : nat) : list (nat * bool) := replicate 7 (g, true).

(** Two goroutines whose [nextID] calls overlap: both increments happen
    before either goroutine reads its result. *)
Definition racing : list (nat * bool) :=
  [(0, true); (0, true); (1, true); (1, true); (0, true); (1, true)]
  ++ replicate 4 (0%nat, true) ++ replicate 4 (1%nat, true).

(** The request ids on the wire, in the order of the writes. *)
Definition sent_ids (p : list wire) : list Z :=
  omap (λ e, match e with Wrote _ id => Some id | ReadLine _ => None end) p.

(** Every line read follows at once the request line of the same goroutine. *)
Definition paired (p : list wire) : Prop :=
  ∀ i g, p !! i = Some (ReadLine g) →
         ∃ j id, i = S j ∧ p !! j = Some (Wrote g id).

(** Between [c.mu.Lock()] and the deferred [c.mu.Unlock()]. *)
Definition in_exchange (p : pc) : Prop := p = AtWrite ∨ p = AtRead ∨ p = AtUnlock.

(** The lock is held by the goroutine that is inside [sendRequest], and a
    goroutine about to read has just written its request. *)
Definition exclusive (c : conn) : Prop :=
  paired (pipe c)
  ∧ (∀ g t, goroutines c !! g = Some t → in_exchange (at_pc t) → mu c = Some g)
  ∧ (∀ g t, goroutines c !! g = Some t → at_pc t = AtRead →
            ∃ id, last (pipe c) = Some (Wrote g id)).

End Concurrent.

(** * A scripted world, to run the service on concrete inputs *)

Module Fixture.
Import Strings JSON LLM RAG MCP Service.

Record Script : Type := {
  docs : list Document;
  answers : list (result ChatResponse);
  exchanges : list Exchange
}.

Definition scripted : External gostring Script :=
  {| ragSearch := λ _ _ w, (Some (docs w, None), w);
     llmChat := λ _ _ w,
       match answers w with
       | a :: rest => (a, {| docs := docs w; answers := rest; exchanges := exchanges w |})
       | [] => (Err (str "no answer"), w)
       end;
     getenv := λ _ _, [];
     startSidecar := λ _ w, (Started, w);
     closeSidecar := λ w, w;
     sidecar := λ _ w,
       match exchanges w with
       | x :: rest => (x, {| docs := docs w; answers := answers w; exchanges := rest |})
       | [] => (ReadFailed (str "EOF"), w)
       end |}.

(** The same world with a vector store whose answer has fewer ids than
    documents: the retrieval panics. *)
Definition shortOfIds : External gostring Script :=
  {| ragSearch := λ _ _ w, (None, w);
     llmChat := llmChat scripted;
     getenv := getenv scripted;
     startSidecar := startSidecar scripted;
     closeSidecar := closeSidecar scripted;
     sidecar := sidecar scripted |}.


(** A stand-in for the JSON codecs: strings are quoted as they are, an
    argument text that opens a JSON object is kept undecoded under the key
    [raw] (the empty object decodes to the empty mapping), and no tool
    result is re-indented. *)
Definition rawCodec : Codec gostring :=
  {| quote := plainQuote;
     unmarshalArgs := λ s,
       if HasPrefix s (str "{")
       then Ok (if decide (s = str "{}") then ∅ else {[ str "raw" := s ]})
       else Err (str "invalid character");
     indentObject := λ _, None |}.

(** The service after a successful start-up over the world [w]: the
    handshake and the tool listing have taken the ids 1 and 2. *)
Definition boot (w : Script) : State gostring Script :=
  {| world := w; client := {| MCP.msgID := 2 |}; ready := true; trace := [] |}.

(** The service before the start-up. *)
Definition cold (w : Script) : State gostring Script :=
  {| world := w; client := {| MCP.msgID := 0 |}; ready := false; trace := [] |}.

Definition says (text : gostring) : result ChatResponse :=
  Ok {| OutputText := text; Choices := [] |}.

Definition textResult (text : gostring) : Exchange :=
  Envelope {| RespID := 3;
              Result := RawObject [{| BlockType := str "text"; BlockText := text |}] [];
              Error := None |}.

Definition errorResult (message : gostring) : Exchange :=
  Envelope {| RespID := 3; Result := RawObject [] [];
              Error := Some {| Code := -32000; ErrMessage := message |} |}.

(** The reply text of a chat response ([error] text for an error body). *)
Definition replyText (r : HTTPResponse) : gostring :=
  match RespBody r with
  | ChatJSON body => Reply body
  | ErrorJSON e => e
  end.

(** Scenario B of the specification: a [create_order] directive. *)
Definition createOrder : Directive.Block :=
  let nl := str "
" in
  let field k v := {| Directive.key := str k; Directive.value := str v;
                      Directive.closeKey := str k; Directive.gap := nl |} in
  {| Directive.lead0 := nl;
     Directive.name := str "create_order";
     Directive.lead1 := nl;
     Directive.lead2 := nl;
     Directive.fields :=
       [field "productName" "山地自行车"; field "quantity" "2";
        field "customerName" "张三"; field "customerPhone" "13800138000";
        field "shippingAddress" "北京市朝阳区建国路1号"];
     Directive.lead3 := nl |}.

Definition faq : Document :=
  {| DocID := str "faq-7"; Text := str "支持七天无理由退货";
     Metadata := {[ str "category" := AString (str "售后") ]} |}.

(** The narrative the model puts before the directive. *)
Definition orderNarrative : gostring := str "好的，马上为您下单。
".

Definition orderResponse : gostring := orderNarrative ++ Directive.render createOrder.

(** The model answers with a plain text; no snippet is retrieved. *)
Definition plainWorld (text : gostring) : Script :=
  {| docs := []; answers := [says text]; exchanges := [] |}.

(** The model answers with the directive, the sidecar with [answer]. *)
Definition orderWorld (answer : Exchange) : Script :=
  {| docs := [faq]; answers := [says orderResponse]; exchanges := [answer] |}.


(** A history in which the client has echoed the current message. *)
Definition echoedHistory : list HistoryMessage :=
  [ {| HRole := str "user"; HContent := str "你好" |};
    {| HRole := str "assistant"; HContent := str "下单" |};
    {| HRole := str "user"; HContent := str "下单" |} ].

(** The model asks for a tool in every round. *)
Definition insistent : Script :=
  {| docs := [];
     answers := replicate 6 (Ok {| OutputText := [];
                                   Choices := [{| FinishReason := str "tool_calls";
                                                  MessageContent := [];
                                                  ToolCalls := [] |}] |});
     exchanges := [] |}.

(** The model asks for the status of an order, then answers in text;
    the sidecar answers the one tool call. *)
Definition asksStatus : ChatResponse :=
  {| OutputText := [];
     Choices := [{| FinishReason := str "tool_calls";
                    MessageContent := [];
                    ToolCalls := [{| CallID := str "call_1"; CallType := str "function";
                                     CallName := str "query_order";
                                     CallArguments := str "{}" |}] |}] |}.

Definition statusWorld : Script :=
  {| docs := [];
     answers := [Ok asksStatus; says (str "您的订单已发货")];
     exchanges := [textResult (str "已发货")] |}.

(** The sidecar answers the handshake and lists its tools. *)
Definition startingWorld : Script :=
  {| docs := []; answers := [];
     exchanges :=
       [Envelope {| RespID := 1; Result := RawObject [] []; Error := None |};
        Envelope {| RespID := 2;
                    Result := RawObject [] [str "query_order"; str "cancel_order"];
                    Error := None |}] |}.

Definition ask (message : gostring) (history : list HistoryMessage) : ChatRequest :=
  {| ReqMessage := message; UserID := str "u1"; SessionID := str "s1";
     History := history |}.

End Fixture.

(** * The argument mapping, in the words of the statements *)

Module ArgumentShape.
Import Strings Strconv JSON Directive.

(** The submatches of one match of the generic tag pattern. *)
Definition tag_shaped (m : list gostring) : Prop :=
  ∃ k1 v k2 whole, m = [whole; k1; v; k2]
    ∧ is_word k1 = true ∧ clean v = true ∧ is_word k2 = true.

(** An entry of the mapping: the key is a tag name; a text value is
    trimmed and free of [<]; an integer value fits an [int] and is not
    under one of the two names that stay text. *)
Definition well_typed (k : gostring) (v : ArgValue) : Prop :=
  is_word k = true
  ∧ match v with
    | VString s => clean s = true ∧ TrimSpace s = s
    | VInt n =>
      in_int n = true ∧ k ≠ str "customerPhone" ∧ k ≠ str "orderId"
    end.

End ArgumentShape.

(** * The HTTP endpoints of the retrieval side

    The embedding endpoint and the vector store are reached over HTTP.
    One round trip is a function of the world outside: it gives no
    response at all (the error of [http.Client.Do]) or a status code with
    what [io.ReadAll] read of the body.  The decoders of [encoding/json]
    and the widening of a [float32] are parameters; what the clients do
    with the decoded answers is modelled in full.  An index out of range
    is a run-time panic. *)

Module Endpoint.
Import RAG.

(** The three ways a call ends. *)
Inductive outcome (A : Type) : Type :=
| Value (a : A)
| Error (msg : gostring)     (* a non-nil [error] *)
| Panic.                     (* index out of range *)
Arguments Value {A} a.
Arguments Error {A} msg.
Arguments Panic {A}.

Section Endpoint.
Context {F32 F64 W : Type}.

(** One element of [Output.Embeddings]. *)
Record EmbeddingItem : Type := { Embedding : list F32; TextIndex : Z }.

(** [llm.EmbeddingResponse], and the anonymous struct of the same shape
    in [chroma_client.go]. *)
Record EmbeddingResponse : Type := {
  Embeddings : list EmbeddingItem;
  Code : gostring;
  Message : gostring
}.

(** The answer of the query endpoint: parallel arrays, one row per
    query embedding. *)
Record QueryResult : Type := {
  IDs : list (list gostring);
  Documents : list (list gostring);
  Metadatas : list (list (gmap gostring Any));
  Distances : list (list F64)
}.

Inductive Request : Type :=
| GetCollections
| PostEmbedding (texts : list gostring)
| PostQuery (collectionID : gostring) (query_embeddings : list (list F64)) (n_results : Z)
| PostAdd (collectionID : gostring) (ids documents : list gostring)
          (metadatas : list (gmap gostring Any)) (embeddings : list (list F64)).

Inductive Response : Type :=
| NoResponse (err : gostring)                          (* [Do] fails *)
| Answer (StatusCode : Z) (body : gostring) (readErr : option gostring).

Record Wire : Type := {
  roundTrip : Request → W → Response * W;
  (** [float64(v)] *)
  widen : F32 → F64;
  (** the zero value of [float64] *)
  zero : F64;
  (** [json.Unmarshal] into the three answer types *)
  decodeCollections : gostring → result (list (gmap gostring Any));
  decodeEmbeddings : gostring → result EmbeddingResponse;
  decodeQuery : gostring → result QueryResult
}.

(** The world outside and the requests sent to it so far. *)
Record Net : Type := { world : W; sent : list Request }.

(** [client.Do(req)] and [io.ReadAll(resp.Body)]. *)
Definition Do (wire : Wire) (req : Request) (n : Net) : Response * Net :=
  let '(resp, w) := roundTrip wire req (world n) in
  (resp, {| world := w; sent := sent n ++ [req] |}).

(** [embeddings[i] = v]: a negative index or one past the end panics. *)
Definition assign {V : Type} (embeddings : list V) (i : Z) (v : V) : option (list V) :=
  if ((0 <=? i) && (i <? Z.of_nat (length embeddings)))%Z
  then Some (<[Z.to_nat i := v]> embeddings)
  else None.

End Endpoint.

Arguments EmbeddingItem : clear implicits.
Arguments EmbeddingResponse : clear implicits.
Arguments QueryResult : clear implicits.
Arguments Request : clear implicits.
Arguments Wire : clear implicits.
Arguments Net : clear implicits.

End Endpoint.

(** * [llm/dashscope_client.go]: [Embedding] *)

Module Dashscope.
Import Endpoint.

Section Client.
Context {F32 F64 W : Type}.
Variable wire : Wire F32 F64 W.

(** The loop over [embeddingResp.Output.Embeddings]: an element whose
    index is not below the number of texts is passed over. *)
Fixpoint placeChecked (embeddings : list (list F32)) (items : list (EmbeddingItem F32))
    : option (list (list F32)) :=
  match items with
  | [] => Some embeddings
  | emb :: items' =>
    if (TextIndex emb <? Z.of_nat (length embeddings))%Z then
      match assign embeddings (TextIndex emb) (Endpoint.Embedding emb) with
      | Some embeddings' => placeChecked embeddings' items'
      | None => None
      end
    else placeChecked embeddings items'
  end.

Definition Embedding (texts : list gostring) (n : Net F64 W)
    : outcome (list (list F32)) * Net F64 W :=
  if decide (length texts = 0%nat) then (Value [], n)
  else
    let '(resp, n1) := Do wire (PostEmbedding texts) n in
    match resp with
    | NoResponse err => (Error (str "发送请求失败: " ++ err), n1)
    | Answer _ _ (Some err) => (Error (str "读取响应失败: " ++ err), n1)
    | Answer StatusCode body None =>
      if decide (StatusCode ≠ 200%Z)
      then (Error (str "API 错误 (状态码 " ++ Strconv.Itoa StatusCode
                   ++ str "): " ++ body), n1)
      else
        match decodeEmbeddings wire body with
        | Err err => (Error (str "解析响应失败: " ++ err), n1)
        | Ok embeddingResp =>
          if decide (Code embeddingResp ≠ [] ∧ Code embeddingResp ≠ str "Success")
          then (Error (str "API 错误: " ++ Code embeddingResp ++ str " - "
                       ++ Message embeddingResp), n1)
          else
            match placeChecked (replicate (length texts) []) (Embeddings embeddingResp) with
            | Some embeddings => (Value embeddings, n1)
            | None => (Panic, n1)
            end
        end
    end.

End Client.

End Dashscope.

(** * [rag/chroma_client.go]: the retrieval client in detail *)

Module Chroma.
Import RAG Endpoint.

Section Client.
Context {F32 F64 W : Type}.
Variable wire : Wire F32 F64 W.

(** A retrieved [Document] with its [Distance] field. *)
Record Scored : Type := { Doc : Document; Distance : F64 }.

(** [ChromaClient]: the collection id it has resolved, and the HTTP side. *)
Record Client : Type := {
  collectionID : gostring;
  net : Net F64 W
}.

Definition M (A : Type) : Type := Client → A * Client.

(** A request of the client's [httpClient]. *)
Definition request (req : Request F64) : M Response :=
  λ c,
    let '(resp, n) := Do wire req (net c) in
    (resp, {| collectionID := collectionID c; net := n |}).

Definition collectionName : gostring := str "shop_knowledge".

(** The loop of [initializeCollection] over the decoded collections. *)
Fixpoint findCollection (collections : list (gmap gostring Any)) : option gostring :=
  match collections with
  | [] => None
  | col :: collections' =>
    match col !! str "name" with
    | Some (AString name) =>
      if decide (name = collectionName) then
        match col !! str "id" with
        | Some (AString id) => Some id
        | _ => findCollection collections'
        end
      else findCollection collections'
    | _ => findCollection collections'
    end
  end.

(** [initializeCollection]: [None] is the nil error. *)
Definition initializeCollection : M (option gostring) :=
  λ c,
    let '(resp, c1) := request GetCollections c in
    match resp with
    | NoResponse err => (Some err, c1)
    | Answer _ _ (Some err) => (Some err, c1)
    | Answer StatusCode body None =>
      if decide (StatusCode ≠ 200%Z)
      then (Some (str "获取集合列表失败: " ++ body), c1)
      else
        match decodeCollections wire body with
        | Err err => (Some err, c1)
        | Ok collections =>
          match findCollection collections with
          | Some id => (None, {| collectionID := id; net := net c1 |})
          | None => (Some (str "集合 '" ++ collectionName ++ str "' 不存在"), c1)
          end
        end
    end.

(** What the two embedding functions of the client do with the response
    before they read the vectors. *)
Definition embeddingAnswer (resp : Response) : result (EmbeddingResponse F32) :=
  match resp with
  | NoResponse err => Err err
  | Answer _ _ (Some err) => Err err
  | Answer StatusCode body None =>
    if decide (StatusCode ≠ 200%Z)
    then Err (str "embedding API 错误 (状态码 " ++ Strconv.Itoa StatusCode ++ str "): " ++ body)
    else
      match decodeEmbeddings wire body with
      | Err err => Err (str "解析响应失败: " ++ err)
      | Ok result =>
        if decide (Code result ≠ str "Success" ∧ Code result ≠ [])
        then Err (str "embedding API 错误: " ++ Code result ++ str " - " ++ Message result)
        else Ok result
      end
  end.

(** [generateEmbedding]: the vector of the first element of the answer. *)
Definition generateEmbedding (text : gostring) : M (result (list F64)) :=
  λ c,
    let '(resp, c1) := request (PostEmbedding [text]) c in
    match embeddingAnswer resp with
    | Err err => (Err err, c1)
    | Ok result =>
      match Embeddings result with
      | [] => (Err (str "未返回嵌入向量"), c1)
      | first :: _ => (Ok (widen wire <$> Embedding first), c1)
      end
    end.

(** The body of the loop of [queryChroma] at index [i]: [result.IDs[0][i]]
    is read without a check of its bounds. *)
Definition documentAt (result : QueryResult F64) (i : nat) (text : gostring)
    : option Scored :=
  match IDs result with
  | [] => None
  | ids0 :: _ =>
    match ids0 !! i with
    | None => None
    | Some id =>
      let metadata :=
        match Metadatas result with
        | metadatas0 :: _ => default ∅ (metadatas0 !! i)
        | [] => ∅
        end in
      let distance :=
        match Distances result with
        | distances0 :: _ => default (zero wire) (distances0 !! i)
        | [] => zero wire
        end in
      Some {| Doc := {| DocID := id; Text := text; Metadata := metadata |};
              Distance := distance |}
    end
  end.

(** [for i := 0; i < len(result.Documents[0]); i++], from index [i] on. *)
Fixpoint documentsFrom (result : QueryResult F64) (i : nat) (texts : list gostring)
    : option (list Scored) :=
  match texts with
  | [] => Some []
  | text :: texts' =>
    match documentAt result i text with
    | None => None
    | Some doc =>
      match documentsFrom result (S i) texts' with
      | None => None
      | Some documents => Some (doc :: documents)
      end
    end
  end.

(** The documents of a decoded query answer; [None] is a panic. *)
Definition buildDocuments (result : QueryResult F64) : option (list Scored) :=
  match Documents result with
  | [] => Some []
  | documents0 :: _ => documentsFrom result 0 documents0
  end.

Definition queryChroma (embedding : list F64) (topK : Z) : M (outcome (list Scored)) :=
  λ c,
    let '(resp, c1) := request (PostQuery (collectionID c) [embedding] topK) c in
    match resp with
    | NoResponse err => (Error err, c1)
    | Answer _ _ (Some err) => (Error err, c1)
    | Answer StatusCode body None =>
      if decide (StatusCode ≠ 200%Z)
      then (Error (str "Chroma 查询错误 (状态码 " ++ Strconv.Itoa StatusCode
                   ++ str "): " ++ body), c1)
      else
        match decodeQuery wire body with
        | Err err => (Error err, c1)
        | Ok result =>
          match buildDocuments result with
          | Some documents => (Value documents, c1)
          | None => (Panic, c1)
          end
        end
    end.

(** The collection id is resolved when the client has none yet. *)
Definition ensureCollection : M (option gostring) :=
  λ c, if decide (collectionID c = []) then initializeCollection c else (None, c).

(** [SearchKnowledge] *)
Definition SearchKnowledge (query : gostring) (topK : Z) : M (outcome (list Scored)) :=
  λ c,
    let topK := if (topK <=? 0)%Z then Service.defaultTopK else topK in
    let '(initErr, c1) := ensureCollection c in
    match initErr with
    | Some err => (Error (str "初始化集合失败: " ++ err), c1)
    | None =>
      let '(r, c2) := generateEmbedding query c1 in
      match r with
      | Err err => (Error (str "生成嵌入向量失败: " ++ err), c2)
      | Ok embedding =>
        let '(r, c3) := queryChroma embedding topK c2 in
        match r with
        | Error err => (Error (str "查询 Chroma 失败: " ++ err), c3)
        | Panic => (Panic, c3)
        | Value documents => (Value documents, c3)
        end
      end
    end.

(** The loop of [generateBatchEmbeddings]: every element is stored at
    its index, without a check. *)
Fixpoint placeAll (embeddings : list (list F64)) (items : list (EmbeddingItem F32))
    : option (list (list F64)) :=
  match items with
  | [] => Some embeddings
  | emb :: items' =>
    match assign embeddings (TextIndex emb) (widen wire <$> Embedding emb) with
    | Some embeddings' => placeAll embeddings' items'
    | None => None
    end
  end.

Definition generateBatchEmbeddings (texts : list gostring)
    : M (outcome (list (list F64))) :=
  λ c,
    if decide (length texts = 0%nat) then (Value [], c)
    else
      let '(resp, c1) := request (PostEmbedding texts) c in
      match embeddingAnswer resp with
      | Err err => (Error err, c1)
      | Ok result =>
        match placeAll (replicate (length texts) []) (Embeddings result) with
        | Some embeddings => (Value embeddings, c1)
        | None => (Panic, c1)
        end
      end.

(** [AddDocuments]: [Value tt] is the nil error. *)
Definition AddDocuments (docs : list Document) : M (outcome unit) :=
  λ c,
    if decide (length docs = 0%nat) then (Value tt, c)
    else
      let '(initErr, c1) := ensureCollection c in
      match initErr with
      | Some err => (Error (str "初始化集合失败: " ++ err), c1)
      | None =>
        let texts := Text <$> docs in
        let '(r, c2) := generateBatchEmbeddings texts c1 in
        match r with
        | Error err => (Error (str "生成嵌入向量失败: " ++ err), c2)
        | Panic => (Panic, c2)
        | Value embeddings =>
          let ids := DocID <$> docs in
          let documents := Text <$> docs in
          let metadatas := Metadata <$> docs in
          let '(resp, c3) :=
            request (PostAdd (collectionID c2) ids documents metadatas embeddings) c2 in
          match resp with
          | NoResponse err => (Error err, c3)
          | Answer StatusCode body _ =>
            if decide (StatusCode ≠ 200%Z)
            then (Error (str "Chroma 添加文档错误 (状态码 " ++ Strconv.Itoa StatusCode
                         ++ str "): " ++ body), c3)
            else (Value tt, c3)
          end
        end
      end.

End Client.

Arguments Client : clear implicits.
Arguments Scored : clear implicits.

End Chroma.

(** * The answers of the endpoints, in the words of the statements *)

Module Answers.
Import RAG Endpoint.

Section Answers.
Context {F32 F64 W : Type}.

(** The element of the answer that carries the tag [i]: the last one,
    when the endpoint repeats a tag. *)
Definition tagged (items : list (EmbeddingItem F32)) (i : nat)
    : option (EmbeddingItem F32) :=
  last (filter (λ emb, TextIndex emb = Z.of_nat i) items).

(** The vector for the text at index [i]: nil when no element has the tag. *)
Definition vectorFor (items : list (EmbeddingItem F32)) (i : nat) : list F32 :=
  match tagged items i with
  | Some emb => Embedding emb
  | None => []
  end.

(** The client [c] once the requests [reqs] are sent, the world being [w]. *)
Definition after (c : Chroma.Client F64 W) (w : W) (reqs : list (Request F64))
    : Chroma.Client F64 W :=
  {| Chroma.collectionID := Chroma.collectionID c;
     Chroma.net := {| world := w; sent := sent (Chroma.net c) ++ reqs |} |}.

End Answers.

End Answers.

(** * The shop: [OrderService], [ProductService], [Order], [OrderController]

    The two repositories are the tables of the database: the products by
    their id, the orders in the order of their insertion.  A method
    marked [@Transactional] that throws leaves the tables as they were,
    so a call gives either its result with the new tables or only the
    exception.  The clock is read once when an order is stored, for its
    number.  A Java [String] is kept as its bytes; a reference that may
    be [null] is an [option]. *)

Module Shop.

(** Java's [int]: 32 bits, two's complement. *)
Definition wrap32 (n : Z) : Z := ((n + 2 ^ 31) mod 2 ^ 32 - 2 ^ 31)%Z.

Definition MIN_VALUE : Z := - 2 ^ 31.
Definition MAX_VALUE : Z := 2 ^ 31 - 1.

(** The values of an [int] or [Integer]. *)
Definition is_int (n : Z) : Prop := (MIN_VALUE ≤ n ≤ MAX_VALUE)%Z.

(** [java.math.BigDecimal]: an unscaled value and a scale. *)
Record BigDecimal : Type := { unscaledValue : Z; scale : Z }.

#[global] Instance BigDecimal_eq_dec : EqDecision BigDecimal.
Proof. solve_decision. Defined.

(** [BigDecimal.valueOf(long)] *)
Definition valueOf (n : Z) : BigDecimal := {| unscaledValue := n; scale := 0 |}.

(** [BigDecimal.multiply] *)
Definition multiply (a b : BigDecimal) : BigDecimal :=
  {| unscaledValue := unscaledValue a * unscaledValue b; scale := scale a + scale b |}.

Inductive OrderStatus : Type := PENDING | CONFIRMED | SHIPPED | DELIVERED | CANCELLED.

#[global] Instance OrderStatus_eq_dec : EqDecision OrderStatus.
Proof. solve_decision. Defined.

(** [Product], with the fields the initializer sets. *)
Record Product : Type := {
  name : gostring;
  description : gostring;
  price : BigDecimal;
  stock : Z;
  category : gostring;
  imageUrl : gostring;
  specifications : gostring
}.

(** [Order]; [product] is the id in the join column [product_id].  The id
    of the row and the two time stamps are written by the persistence
    layer and never read by the services. *)
Record Order : Type := {
  orderNumber : gostring;
  product : Z;
  quantity : Z;
  totalPrice : BigDecimal;
  customerName : gostring;
  customerPhone : option gostring;
  shippingAddress : option gostring;
  status : OrderStatus
}.

#[global] Instance Order_eq_dec : EqDecision Order.
Proof. solve_decision. Defined.

Record Tables : Type := {
  products : gmap Z Product;
  orders : list Order
}.

Inductive Exception : Type :=
| RuntimeException (message : gostring)
| NullPointerException       (* a [null] is unboxed *)
| DataAccessException.       (* the persistence layer refuses: a null id,
                                a null in a column that is not nullable,
                                a second row with the same order number *)

(** A call returns or throws. *)
Inductive thrown (A : Type) : Type :=
| Returns (a : A)
| Throws (e : Exception).
Arguments Returns {A} a.
Arguments Throws {A} e.

Definition withStock (p : Product) (newStock : Z) : Product :=
  {| name := name p; description := description p; price := price p;
     stock := newStock; category := category p; imageUrl := imageUrl p;
     specifications := specifications p |}.

Definition withStatus (o : Order) (newStatus : OrderStatus) : Order :=
  {| orderNumber := orderNumber o; product := product o; quantity := quantity o;
     totalPrice := totalPrice o; customerName := customerName o;
     customerPhone := customerPhone o; shippingAddress := shippingAddress o;
     status := newStatus |}.

(** ** [ProductService] *)

(** [getProductById]: [productRepository.findById]. *)
Definition getProductById (id : Z) (t : Tables) : option Product := products t !! id.

(** [updateStock(productId, quantity)] *)
Definition updateStock (productId : Z) (quantity : Z) (t : Tables) : thrown Tables :=
  match products t !! productId with
  | None => Throws (RuntimeException (str "商品不存在"))
  | Some product =>
    let newStock := wrap32 (stock product + quantity) in
    if (newStock <? 0)%Z then Throws (RuntimeException (str "库存不足"))
    else Returns {| products := <[productId := withStock product newStock]> (products t);
                    orders := orders t |}
  end.

(** ** [Order] *)

(** [generateOrderNumber], at the clock value [now]. *)
Definition generateOrderNumber (now : Z) : gostring := str "ORD-" ++ Strconv.Itoa now.

(** ** [OrderService] *)

(** [orderRepository.findByOrderNumber]: the row and its place. *)
Definition findByOrderNumber (number : gostring) (t : Tables) : option (nat * Order) :=
  list_find (λ o, orderNumber o = number) (orders t).

(** [createOrder]; [now] is the clock when the order is stored. *)
Definition createOrder (productId quantity : option Z) (customerName : option gostring)
    (customerPhone shippingAddress : option gostring) (now : Z) (t : Tables)
    : thrown (Order * Tables) :=
  match productId with
  | None => Throws DataAccessException
  | Some productId =>
    match getProductById productId t with
    | None => Throws (RuntimeException (str "商品不存在"))
    | Some product =>
      match quantity with
      | None => Throws NullPointerException
      | Some quantity =>
        if (stock product <? quantity)%Z then Throws (RuntimeException (str "库存不足"))
        else
          let totalPrice := multiply (price product) (valueOf quantity) in
          match customerName with
          | None => Throws DataAccessException
          | Some customerName =>
            let order :=
              {| orderNumber := generateOrderNumber now; product := productId;
                 quantity := quantity; totalPrice := totalPrice;
                 customerName := customerName; customerPhone := customerPhone;
                 shippingAddress := shippingAddress; status := PENDING |} in
            match updateStock productId (wrap32 (- quantity)) t with
            | Throws e => Throws e
            | Returns t1 =>
              if decide (orderNumber order ∈ orderNumber <$> orders t)
              then Throws DataAccessException
              else Returns (order, {| products := products t1;
                                      orders := orders t1 ++ [order] |})
            end
          end
      end
    end
  end.

Definition getAllOrders (t : Tables) : list Order := orders t.

Definition getOrderByOrderNumber (number : gostring) (t : Tables) : option Order :=
  snd <$> findByOrderNumber number t.

(** [updateOrderStatus]; a [null] status is refused when the row is written. *)
Definition updateOrderStatus (number : gostring) (newStatus : option OrderStatus)
    (t : Tables) : thrown (Order * Tables) :=
  match findByOrderNumber number t with
  | None => Throws (RuntimeException (str "订单不存在"))
  | Some (i, order) =>
    match newStatus with
    | None => Throws DataAccessException
    | Some newStatus =>
      let updatedOrder := withStatus order newStatus in
      Returns (updatedOrder, {| products := products t;
                                orders := <[i := updatedOrder]> (orders t) |})
    end
  end.

(** [cancelOrder] *)
Definition cancelOrder (number : gostring) (t : Tables) : thrown (Order * Tables) :=
  match findByOrderNumber number t with
  | None => Throws (RuntimeException (str "订单不存在"))
  | Some (i, order) =>
    if decide (status order ≠ PENDING ∧ status order ≠ CONFIRMED)
    then Throws (RuntimeException (str "订单状态不允许取消"))
    else
      match updateStock (product order) (quantity order) t with
      | Throws e => Throws e
      | Returns t1 =>
        let cancelledOrder := withStatus order CANCELLED in
        Returns (cancelledOrder, {| products := products t1;
                                    orders := <[i := cancelledOrder]> (orders t1) |})
      end
  end.

(** ** [OrderController] *)

Inductive Request : Type :=
| PostOrder (productId quantity : option Z) (customerName : option gostring)
            (customerPhone shippingAddress : option gostring)     (* POST /api/orders *)
| GetOrders                                                       (* GET /api/orders *)
| GetOrder (orderNumber : gostring)                               (* GET /{orderNumber} *)
| DeleteOrder (orderNumber : gostring)                            (* DELETE /{orderNumber} *)
| PutStatus (orderNumber : gostring) (status : option OrderStatus).

Inductive Response : Type :=
| OkOrder (order : Order)                  (* 200, the order *)
| OkOrders (orders : list Order)           (* 200, the list *)
| OkCancelled (order : Order)              (* 200, success, message and order *)
| BadRequest (e : Exception)               (* 400, the message of the exception *)
| NotFound.                                (* 404 *)

Definition answer {A : Type} (r : thrown (A * Tables)) (ok : A → Response) (t : Tables)
    : Response * Tables :=
  match r with
  | Returns (a, t') => (ok a, t')
  | Throws e => (BadRequest e, t)
  end.

(** One request of the order API, at the clock value [now]. *)
Definition handle (req : Request) (now : Z) (t : Tables) : Response * Tables :=
  match req with
  | PostOrder productId quantity customerName customerPhone shippingAddress =>
    answer (createOrder productId quantity customerName customerPhone shippingAddress now t)
           OkOrder t
  | GetOrders => (OkOrders (getAllOrders t), t)
  | GetOrder number =>
    match getOrderByOrderNumber number t with
    | Some order => (OkOrder order, t)
    | None => (NotFound, t)
    end
  | DeleteOrder number => answer (cancelOrder number t) OkCancelled t
  | PutStatus number newStatus => answer (updateOrderStatus number newStatus t) OkOrder t
  end.

(** The requests of a session, each with its clock value. *)
Definition serve (reqs : list (Request * Z)) (t : Tables) : Tables :=
  fold_left (λ t r, (handle r.1 r.2 t).2) reqs t.

(** ** Words for the statements *)

(** No product has a negative stock. *)
Definition stocked (t : Tables) : Prop :=
  ∀ id p, products t !! id = Some p → (0 ≤ stock p ≤ MAX_VALUE)%Z.

(** The stock of a product (0 when there is none). *)
Definition stockOf (id : Z) (t : Tables) : Z :=
  match products t !! id with
  | Some p => stock p
  | None => 0
  end.

(** The units of product [id] in orders that are not cancelled. *)
Definition ordered (id : Z) (os : list Order) : Z :=
  foldr (λ o n, if decide (product o = id ∧ status o ≠ CANCELLED)
                then (quantity o + n)%Z else n) 0%Z os.

End Shop.

(** * The shop, in the words of the statements *)

Module ShopWords.
Import Shop.

(** The quantities of the stored orders are values of an [Integer]. *)
Definition int_quantities (t : Tables) : Prop :=
  Forall (λ o, is_int (quantity o)) (orders t).

(** A request of the order API other than the change of a status, with
    a quantity that is a value of an [Integer]. *)
Definition orderly (req : Request) : Prop :=
  match req with
  | PostOrder _ (Some q) _ _ _ => is_int q
  | PutStatus _ _ => False
  | _ => True
  end.

(** The units of product [id] that the order [o] holds. *)
Definition units (o : Order) (id : Z) : Z :=
  if decide (product o = id ∧ status o ≠ CANCELLED) then quantity o else 0%Z.

End ShopWords.

(** * The retrieval side on concrete inputs

    Scripted endpoints: the world is the list of the responses still to
    come; a vector is a list of integers, widened as it is. *)

Module Scripted.
Import RAG Endpoint.

Definition knowledge : gmap gostring Any :=
  {[ str "name" := AString (str "shop_knowledge"); str "id" := AString (str "c-1") ]}.

Definition drafts : gmap gostring Any :=
  {[ str "name" := AString (str "drafts"); str "id" := AString (str "c-0") ]}.

(** The endpoint answers the second text first. *)
Definition shuffled : EmbeddingResponse Z :=
  {| Embeddings := [ {| Embedding := [20%Z]; TextIndex := 1 |};
                     {| Embedding := [10%Z]; TextIndex := 0 |} ];
     Code := []; Message := [] |}.

Definition hits : QueryResult Z :=
  {| IDs := [[str "faq-7"; str "faq-2"]];
     Documents := [[str "支持七天无理由退货"; str "全国包邮"]];
     Metadatas := [[ {[ str "category" := AString (str "售后") ]} ]];
     Distances := [[3%Z; 5%Z]] |}.

(** An answer with fewer ids than documents. *)
Definition shortHits : QueryResult Z :=
  {| IDs := [[str "faq-7"]];
     Documents := [[str "支持七天无理由退货"; str "全国包邮"]];
     Metadatas := []; Distances := [] |}.

Definition scriptedWire : Wire Z Z (list Response) :=
  {| roundTrip := λ _ w,
       match w with
       | resp :: rest => (resp, rest)
       | [] => (NoResponse (str "EOF"), [])
       end;
     widen := λ v, v;
     zero := 0%Z;
     decodeCollections := λ body,
       if decide (body = str "collections") then Ok [drafts; knowledge]
       else if decide (body = str "drafts") then Ok [drafts]
       else Err (str "invalid character");
     decodeEmbeddings := λ body,
       if decide (body = str "embeddings") then Ok shuffled
       else Err (str "invalid character");
     decodeQuery := λ body,
       if decide (body = str "hits") then Ok hits
       else if decide (body = str "short") then Ok shortHits
       else Err (str "invalid character") |}.

Definition ok (body : string) : Response := Answer 200 (str body) None.

(** The HTTP side before any request, with the responses to come. *)
Definition online (responses : list Response) : Net Z (list Response) :=
  {| world := responses; sent := [] |}.

(** A client that has not resolved its collection yet. *)
Definition fresh (responses : list Response) : Chroma.Client Z (list Response) :=
  {| Chroma.collectionID := []; Chroma.net := online responses |}.

Definition faqs : list Document :=
  [ {| DocID := str "faq-7"; Text := str "支持七天无理由退货";
       Metadata := {[ str "category" := AString (str "售后") ]} |};
    {| DocID := str "faq-2"; Text := str "全国包邮"; Metadata := ∅ |} ].

End Scripted.

(** * The shop after [DataInitializer]: the first product and the two
      sample orders *)

Module Seeded.
Import Shop.

Definition bike1 : Product :=
  {| name := str "山地自行车 Pro X1";
     description := str "专业级山地自行车,适合越野和山地骑行。配备27速变速系统,前后避震,碳纤维车架。";
     price := {| unscaledValue := 399900; scale := 2 |};
     stock := 50;
     category := str "自行车";
     imageUrl := str "/images/bike1.jpg";
     specifications := str "车架材质:碳纤维 | 轮径:27.5英寸 | 变速:27速 | 重量:12kg" |}.

Definition order1 : Order :=
  {| orderNumber := str "ORD-001"; product := 1; quantity := 1;
     totalPrice := price bike1; customerName := str "张三";
     customerPhone := Some (str "13800138000");
     shippingAddress := Some (str "北京市朝阳区XX路XX号"); status := SHIPPED |}.

Definition order2 : Order :=
  {| orderNumber := str "ORD-002"; product := 1; quantity := 1;
     totalPrice := price bike1; customerName := str "李四";
     customerPhone := Some (str "13900139000");
     shippingAddress := Some (str "上海市浦东新区YY路YY号"); status := PENDING |}.

Definition seeded : Tables :=
  {| products := {[ 1%Z := bike1 ]}; orders := [order1; order2] |}.

(** A customer orders two bikes. *)
Definition twoBikes : Request :=
  PostOrder (Some 1%Z) (Some 2%Z) (Some (str "王五")) (Some (str "13700137000"))
            (Some (str "广州市天河区ZZ路ZZ号")).

(** The order stored at the clock value 1729512345000, and the tables
    after it. *)
Definition firstOrder : Order :=
  {| orderNumber := str "ORD-1729512345000"; product := 1; quantity := 2;
     totalPrice := {| unscaledValue := 799800; scale := 2 |};
     customerName := str "王五"; customerPhone := Some (str "13700137000");
     shippingAddress := Some (str "广州市天河区ZZ路ZZ号"); status := PENDING |}.

Definition afterFirstOrder : Tables :=
  {| products := {[ 1%Z := withStock bike1 48 ]};
     orders := [order1; order2; firstOrder] |}.

(** Two bikes are ordered, the order is cancelled, two bikes are ordered
    again. *)
Definition session : list (Request * Z) :=
  [ (twoBikes, 1729512345000%Z);
    (DeleteOrder (str "ORD-1729512345000"), 1729512350000%Z);
    (twoBikes, 1729512360000%Z) ].

End Seeded.

(** * Package [regexp], for the patterns of the keyword matcher

    These patterns have classes with multi-byte members, counted
    repetitions, an alternative and the end of the text.  The matcher is
    again the backtracking reading of leftmost-first matching, on bytes:
    a class with multi-byte members is the list of their UTF-8 encodings
    (an input that starts with the encoding of a rune decodes to that
    rune); a class of ASCII members is a predicate on one byte (no byte
    of a multi-byte rune is ASCII); the dot is every byte but the line
    feed, which takes a rune byte by byte: what follows the lazy dot in
    its one pattern starts with an ASCII byte or a lead byte, or is the
    end of the text, and so never matches inside a rune.  No group of
    these patterns is under a repetition or an alternative: the groups
    closed during a match are the submatches. *)

Module Pattern.
Import Strings.

Inductive rx : Type :=
| Text (l : gostring)
| OneOf (members : list gostring)
| Byte (cls : ascii → bool)
| EndOfText                                               (* [$] *)
| Or (r1 r2 : rx)
| Then (r1 r2 : rx)
| Capture (r : rx)
| Rep (r : rx) (min : nat) (max : option nat) (greedy : bool).

Declare Scope rx_scope.
Delimit Scope rx_scope with rx.
Bind Scope rx_scope with rx.
Infix "+>" := Then (at level 60, right associativity) : rx_scope.

(** The member of a class that the input starts with. *)
Fixpoint takeOneOf (members : list gostring) (s : gostring) : option gostring :=
  match members with
  | [] => None
  | m :: members' => if HasPrefix s m then Some m else takeOneOf members' s
  end.

(** Whether a repetition that has run [count] times may run once more. *)
Definition below (max : option nat) (count : nat) : bool :=
  match max with
  | Some m => (count <? m)%nat
  | None => true
  end.

Section Backtrack.
Context {R : Type}.

Definition cont : Type := gostring → gostring → list gostring → option R.

(** A repetition of [body] followed by [k], [count] rounds done: a greedy
    one tries one more round first, a lazy one the continuation.  Every
    round consumes input, so [fuel], the length of the input, is never
    used up. *)
Fixpoint rep (body : gostring → list gostring → cont → option R)
    (min : nat) (max : option nat) (greedy : bool) (k : cont)
    (fuel count : nat) (acc s : gostring) (caps : list gostring) : option R :=
  let stop := if (min <=? count)%nat then k acc s caps else None in
  let more :=
    match fuel with
    | O => None
    | S fuel' =>
      if below max count then
        body s caps (λ u s' caps',
          match u with
          | [] => None
          | _ :: _ => rep body min max greedy k fuel' (S count) (acc ++ u) s' caps'
          end)
      else None
    end in
  if greedy then match more with Some x => Some x | None => stop end
  else match stop with Some x => Some x | None => more end.

(** [run r s caps k]: match [r] at the start of [s]; [k] receives the
    text matched, the rest of the input and the groups closed so far. *)
Fixpoint run (r : rx) (s : gostring) (caps : list gostring) (k : cont) : option R :=
  match r with
  | Text l => if HasPrefix s l then k l (drop (length l) s) caps else None
  | OneOf members =>
    match takeOneOf members s with
    | Some m => k m (drop (length m) s) caps
    | None => None
    end
  | Byte cls =>
    match s with
    | c :: s' => if cls c then k [c] s' caps else None
    | [] => None
    end
  | EndOfText =>
    match s with
    | [] => k [] [] caps
    | _ :: _ => None
    end
  | Or r1 r2 =>
    match run r1 s caps k with
    | Some x => Some x
    | None => run r2 s caps k
    end
  | Then r1 r2 =>
    run r1 s caps (λ u s' caps',
      run r2 s' caps' (λ v s'' caps'', k (u ++ v) s'' caps''))
  | Capture r1 => run r1 s caps (λ u s' caps', k u s' (caps' ++ [u]))
  | Rep r1 min max greedy => rep (run r1) min max greedy k (length s) 0 [] s caps
  end.

End Backtrack.

Definition match_here (r : rx) (s : gostring) : option (list gostring * gostring) :=
  run r s [] (λ u rest caps, Some (u :: caps, rest)).

(** Leftmost match: the text before it, the submatches, the text after. *)
Fixpoint search (r : rx) (s : gostring)
    : option (gostring * list gostring * gostring) :=
  match match_here r s with
  | Some (m, rest) => Some ([], m, rest)
  | None =>
    match s with
    | [] => None
    | c :: s' =>
      match search r s' with
      | Some (before, m, rest) => Some (c :: before, m, rest)
      | None => None
      end
    end
  end.

(** [Regexp.FindStringSubmatch]: [nil] (the empty list) without a match. *)
Definition FindStringSubmatch (r : rx) (s : gostring) : list gostring :=
  match search r s with
  | Some (_, m, _) => m
  | None => []
  end.

(** The texts a pattern matches, with the groups they close. *)
Fixpoint lang (r : rx) (u : gostring) (caps : list gostring) : Prop :=
  match r with
  | Text l => u = l ∧ caps = []
  | OneOf members => u ∈ members ∧ caps = []
  | Byte cls => ∃ c, u = [c] ∧ cls c = true ∧ caps = []
  | EndOfText => u = [] ∧ caps = []
  | Or r1 r2 => lang r1 u caps ∨ lang r2 u caps
  | Then r1 r2 =>
    ∃ u1 u2 c1 c2, u = u1 ++ u2 ∧ caps = c1 ++ c2 ∧ lang r1 u1 c1 ∧ lang r2 u2 c2
  | Capture r1 => ∃ c, caps = c ++ [u] ∧ lang r1 u c
  | Rep r1 min max _ =>
    ∃ us cs, u = concat us ∧ caps = concat cs ∧ Forall2 (lang r1) us cs
             ∧ (min ≤ length us)%nat
             ∧ match max with Some m => (length us ≤ m)%nat | None => True end
  end.

End Pattern.

(** * [handlers/chat_handler.go]: the keyword matcher *)

Module OrderIntent.
Import Strings Strconv JSON MCP Service.

(** [ORD-\d+], in the syntax of the first matcher. *)
Definition orderNumberRegex : Regexp.regex :=
  Regexp.Cat (Regexp.Lit (str "ORD-")) (Regexp.Plus is_digit).

(** [extractOrderNumber] *)
Definition extractOrderNumber (message : gostring) : gostring :=
  let matched := Regexp.FindStringSubmatch orderNumberRegex message in
  if (0 <? length matched)%nat then nth 0 matched [] else [].

Import Pattern.

(** The [int] that [strconv.Atoi] returns beside its error: the value
    without an error, 0 with a syntax error, the nearest bound with a
    range error. *)
Definition AtoiValue (s : gostring) : Z :=
  let '(neg, body) :=
    match s with
    | c :: s' =>
      if Ascii.eqb c "-" then (true, s')
      else if Ascii.eqb c "+" then (false, s')
      else (false, s)
    | [] => (false, s)
    end in
  match parse_digits body with
  | Some v =>
    let n := if neg then (- v)%Z else v in
    if in_int n then n else if neg then MinInt else MaxInt
  | None => 0%Z
  end.

(** ** The classes *)

Definition one_of (members : string) (c : ascii) : bool :=
  existsb (Ascii.eqb c) (str members).

(** [\s]: tab, line feed, form feed, carriage return, space. *)
Definition space (c : ascii) : bool :=
  let n := N_of_ascii c in
  ((n =? 9) || (n =? 10) || (n =? 12) || (n =? 13) || (n =? 32))%N.

(** [[=是:：\s]] *)
Definition separators : rx :=
  OneOf [str "="; str "是"; str ":"; str "："; ["009"%char]; ["010"%char];
         ["012"%char]; ["013"%char]; str " "].

(** [[\\p{Han}]] in a raw string literal: the pattern text has two
    backslashes, an escaped backslash in the syntax of [regexp], and the
    class is the backslash and the six characters that follow it. *)
Definition hanLetters : ascii → bool := one_of "\p{Han}".

(** [[\\p{Han}\\d]] *)
Definition hanLettersOrD : ascii → bool := one_of "\p{Han}\d".

Definition digits (min : nat) (max : option nat) : rx :=
  Rep (Byte is_digit) min max true.

(** [[，,]] *)
Definition comma : rx := OneOf [str "，"; str ","].

(** ** The patterns of [extractOrderInfo] *)

(** [商品ID[=是:：\s]*(\d+)] *)
Definition productIDRegex : rx :=
  (Text (str "商品ID") +> Rep separators 0 None true +> Capture (digits 1 None))%rx.

(** [productId[=:]\s*(\d+)] *)
Definition productIdRegex : rx :=
  (Text (str "productId") +> Byte (one_of "=:") +> Rep (Byte space) 0 None true
   +> Capture (digits 1 None))%rx.

(** [数量[=是:：\s]*(\d+)] *)
Definition quantityRegex1 : rx :=
  (Text (str "数量") +> Rep separators 0 None true +> Capture (digits 1 None))%rx.

(** [quantity[=:]\s*(\d+)] *)
Definition quantityRegex2 : rx :=
  (Text (str "quantity") +> Byte (one_of "=:") +> Rep (Byte space) 0 None true
   +> Capture (digits 1 None))%rx.

(** [[姓名客户收货人][=是:：\s]*([\\p{Han}]{2,4})] *)
Definition nameRegex1 : rx :=
  (OneOf [str "姓"; str "名"; str "客"; str "户"; str "收"; str "货"; str "人"]
   +> Rep separators 0 None true
   +> Capture (Rep (Byte hanLetters) 2 (Some 4%nat) true))%rx.

(** [customerName[=:]\s*([\\p{Han}]+)] *)
Definition nameRegex2 : rx :=
  (Text (str "customerName") +> Byte (one_of "=:") +> Rep (Byte space) 0 None true
   +> Capture (Rep (Byte hanLetters) 1 None true))%rx.

(** [[，,]\s*([\\p{Han}]{2,4})[，,]] *)
Definition nameRegex3 : rx :=
  (comma +> Rep (Byte space) 0 None true
   +> Capture (Rep (Byte hanLetters) 2 (Some 4%nat) true) +> comma)%rx.

(** [1[3-9]\d{9}] *)
Definition phoneRegex : rx :=
  (Text (str "1") +> Byte (one_of "3456789") +> digits 9 (Some 9%nat))%rx.

(** [[地址配送收货][=是:：\s]*(.+?)(?:[，,。]|$)] *)
Definition addressRegex1 : rx :=
  (OneOf [str "地"; str "址"; str "配"; str "送"; str "收"; str "货"]
   +> Rep separators 0 None true
   +> Capture (Rep (Byte Regexp.dot) 1 None false)
   +> Or (OneOf [str "，"; str ","; str "。"]) EndOfText)%rx.

(** One group around [[\\p{Han}]+[市区县][\\p{Han}]+[路街道号]\d*号?] and a
    last [[\\p{Han}\\d]] under a star. *)
Definition addressRegex2 : rx :=
  Capture (Rep (Byte hanLetters) 1 None true
           +> OneOf [str "市"; str "区"; str "县"]
           +> Rep (Byte hanLetters) 1 None true
           +> OneOf [str "路"; str "街"; str "道"; str "号"]
           +> digits 0 None
           +> Rep (Text (str "号")) 0 (Some 1%nat) true
           +> Rep (Byte hanLettersOrD) 0 None true)%rx.

(** [if matched := ...; len(matched) > n { matched[i] } else { otherwise }] *)
Definition submatchOr (r : rx) (message : gostring) (n i : nat)
    (otherwise : gostring → gostring) : gostring :=
  let matched := FindStringSubmatch r message in
  if (n <? length matched)%nat then nth i matched [] else otherwise message.

(** The five values that [extractOrderInfo] reads off the message. *)
Definition productIDOf (message : gostring) : Z :=
  let matched := FindStringSubmatch productIDRegex message in
  if (1 <? length matched)%nat then AtoiValue (nth 1 matched [])
  else
    let matched := FindStringSubmatch productIdRegex message in
    if (1 <? length matched)%nat then AtoiValue (nth 1 matched []) else 0%Z.

Definition quantityOf (message : gostring) : Z :=
  let matched := FindStringSubmatch quantityRegex1 message in
  if (1 <? length matched)%nat then AtoiValue (nth 1 matched [])
  else
    let matched := FindStringSubmatch quantityRegex2 message in
    if (1 <? length matched)%nat then AtoiValue (nth 1 matched []) else 0%Z.

Definition nameOf (message : gostring) : gostring :=
  submatchOr nameRegex1 message 1 1
    (λ message, submatchOr nameRegex2 message 1 1
       (λ message, submatchOr nameRegex3 message 1 1 (λ _, []))).

Definition phoneOf (message : gostring) : gostring :=
  submatchOr phoneRegex message 0 0 (λ _, []).

Definition addressOf (message : gostring) : gostring :=
  submatchOr addressRegex1 message 1 1
    (λ message, submatchOr addressRegex2 message 0 0 (λ _, [])).

(** [extractOrderInfo]: [None] is the nil map. *)
Definition extractOrderInfo (message : gostring) : option (gmap gostring ArgValue) :=
  let productID := productIDOf message in
  let quantity := quantityOf message in
  let name := nameOf message in
  let phone := phoneOf message in
  let address := addressOf message in
  if (0 <? productID)%Z && (0 <? quantity)%Z
     && negb (bool_decide (name = [])) && negb (bool_decide (phone = []))
     && negb (bool_decide (address = []))
  then Some {[ str "productId" := VInt productID;
               str "quantity" := VInt quantity;
               str "customerName" := VString name;
               str "customerPhone" := VString phone;
               str "shippingAddress" := VString address ]}
  else None.

Section Handler.
Context {JVal W : Type}.
Variable codec : Codec JVal.
Variable ext : External JVal W.

Notation "'let*' x ':=' m 'in' k" := (bind m (λ x, k))
  (at level 10, x name, m at level 100, k at level 200).

Definition incompleteOrder : gostring :=
  str "我理解您想要下单，但订单信息不完整。请提供：商品ID、数量、姓名、电话、地址。或者您可以访问网站直接下单。".

(** The second and the third branch: the order number goes to [toolName]. *)
Definition withOrderNumber (toolName : gostring) (failure missing : gostring)
    (message : gostring) : @M JVal W (gostring * bool) :=
  let orderNumber := extractOrderNumber message in
  if negb (bool_decide (orderNumber = [])) then
    let args := Marshal (quote codec) {[ str "orderNumber" := VString orderNumber ]} in
    let* r := Execute codec ext toolName args in
    match r with
    | Err err => ret (failure ++ err, true)
    | Ok result => ret (result, true)
    end
  else ret (missing, true).

(** [handleOrderIntent] *)
Definition handleOrderIntent (message : gostring) : @M JVal W (gostring * bool) :=
  if Contains message (str "下单") || Contains message (str "购买")
     || Contains message (str "买") then
    match extractOrderInfo message with
    | Some orderInfo =>
      let args := Marshal (quote codec) orderInfo in
      let* r := Execute codec ext (str "create_order") args in
      match r with
      | Err err =>
        ret (str "订单创建失败：" ++ err ++ str "。请访问网站直接下单。", true)
      | Ok result => ret (result, true)
      end
    | None => ret (incompleteOrder, true)
    end
  else if Contains message (str "查询订单") || Contains message (str "订单状态") then
    withOrderNumber (str "query_order") (str "订单查询失败：")
      (str "请提供订单号，格式如：ORD-1729512345") message
  else if Contains message (str "取消订单") || Contains message (str "退单") then
    withOrderNumber (str "cancel_order") (str "订单取消失败：")
      (str "请提供要取消的订单号，格式如：ORD-1729512345") message
  else ret ([], false).

End Handler.

End OrderIntent.

(** * The keyword matcher, in the words of the statements *)

Module IntentWords.
Import Strings Strconv JSON OrderIntent.

(** What the group of a name pattern holds: a piece of the match, not
    empty, made of the characters of the class. *)
Definition name_of (u : gostring) (caps : list gostring) : Prop :=
  ∃ name a b, caps = [name] ∧ u = a ++ name ++ b
               ∧ name ≠ [] ∧ forallb hanLetters name = true.

(** The text starts with [ORD-] and a digit. *)
Definition starts_order_number (s : gostring) : Prop :=
  ∃ d t, s = str "ORD-" ++ d :: t ∧ is_digit d = true.

(** The text does not go on with a digit. *)
Definition no_digit_ahead (rest : gostring) : Prop :=
  match rest with
  | d :: _ => is_digit d = false
  | [] => True
  end.

(** One of the three keywords of an order. *)
Definition buying (message : gostring) : bool :=
  Contains message (str "下单") || Contains message (str "购买")
  || Contains message (str "买").

(** The example of the source: the name is written in Chinese. *)
Definition orderInChinese : gostring :=
  str "下单：商品ID=1，数量1，鹿城，13800138000，北京朝阳区建国路1号".

(** A message whose name goes through. *)
Definition orderInLatin : gostring :=
  str "买 商品ID=1 数量2 姓名:Hannah 13800138000 地址:Beijing".

(** The order that is read off it. *)
Definition infoInLatin : gmap gostring ArgValue :=
  {[ str "productId" := VInt 1;
     str "quantity" := VInt 2;
     str "customerName" := VString (str "Hann");
     str "customerPhone" := VString (str "13800138000");
     str "shippingAddress" := VString (str "址:Beijing") ]}.

End IntentWords.

(** * Theorems *)

(** * Facts on [strings] *)

Module StringFacts.
Import Strings.

Lemma HasPrefix_app (p s : gostring) : HasPrefix (p ++ s) p = true.
Proof.
  induction p as [|c p IH]; simpl; [done|].
  by rewrite Ascii.eqb_refl.
Qed.

Lemma HasPrefix_inv (s p : gostring) : HasPrefix s p = true → ∃ k, s = p ++ k.
Proof.
  revert s. induction p as [|c p IH]; intros s H.
  - by exists s.
  - destruct s as [|d s]; simpl in H; [done|].
    apply andb_true_iff in H as [Hc Hp].
    apply Ascii.eqb_eq in Hc. subst d.
    destruct (IH _ Hp) as [k ->]. by exists k.
Qed.

Lemma HasPrefix_head (c d : ascii) (s p : gostring) :
  c ≠ d → HasPrefix (c :: s) (d :: p) = false.
Proof.
  intros Hne. simpl. destruct (Ascii.eqb_spec d c); [congruence|done].
Qed.

Lemma HasPrefix_same (c : ascii) (s p : gostring) :
  HasPrefix (c :: s) (c :: p) = HasPrefix s p.
Proof. simpl. by rewrite Ascii.eqb_refl. Qed.

Lemma Contains_unfold (s p : gostring) :
  Contains s p = HasPrefix s p || match s with [] => false | _ :: s' => Contains s' p end.
Proof. by destruct s. Qed.

Lemma Contains_suffix (a b p : gostring) :
  Contains b p = true → Contains (a ++ b) p = true.
Proof.
  intros H. induction a as [|c a IH]; [done|].
  simpl. rewrite IH. apply orb_true_r.
Qed.

Lemma Contains_here (s p : gostring) : HasPrefix s p = true → Contains s p = true.
Proof. intros H. rewrite Contains_unfold, H. done. Qed.

Lemma Contains_occurrence (a p b : gostring) : Contains (a ++ p ++ b) p = true.
Proof. apply Contains_suffix, Contains_here, HasPrefix_app. Qed.

Lemma Contains_false_at (a b p : gostring) :
  Contains (a ++ b) p = false → HasPrefix b p = false.
Proof.
  intros H. destruct (HasPrefix b p) eqn:Hb; [|done].
  by rewrite (Contains_suffix a b p (Contains_here _ _ Hb)) in H.
Qed.

(** An occurrence of [< w] cannot start inside [pre] and run over its end
    when [w] has no [<]: positions of a text without the marker stay
    silent when the marker follows. *)
Lemma marker_no_straddle (pre w tail a b : gostring) (c : ascii) :
  Contains pre ("<"%char :: w) = false →
  forallb Regexp.not_lt w = true →
  pre = a ++ c :: b →
  HasPrefix (c :: b ++ ("<"%char :: w) ++ tail) ("<"%char :: w) = false.
Proof.
  intros Hpre Hw ->.
  destruct (HasPrefix (c :: b ++ _ ++ tail) _) eqn:Hp; [|done].
  exfalso. apply HasPrefix_inv in Hp as [k Hk].
  assert (Hno : HasPrefix (c :: b) ("<"%char :: w) = false)
    by exact (Contains_false_at a (c :: b) _ Hpre).
  change (c :: b ++ ("<"%char :: w) ++ tail)
    with ((c :: b) ++ ("<"%char :: w) ++ tail) in Hk.
  apply app_eq_inv in Hk as [(k' & Hcb & _)|(k' & Ho & Hk)].
  - rewrite Hcb, HasPrefix_app in Hno. done.
  - destruct k' as [|d k'].
    + rewrite app_nil_r in Ho. rewrite <- Ho in Hno.
      pose proof (HasPrefix_app ("<"%char :: w) []) as Hx.
      rewrite app_nil_r in Hx. congruence.
    + simpl in Hk. injection Hk as <- _.
      simpl in Ho. injection Ho as _ Hw'.
      rewrite Hw', forallb_app in Hw. simpl in Hw.
      apply andb_true_iff in Hw as [_ Hw]. done.
Qed.

End StringFacts.

(** * Facts on the matcher *)

Module RegexpFacts.
Import Strings Regexp StringFacts.

Section Stars.
Context {R : Type}.
Implicit Types (k : gostring → gostring → option R) (cls : ascii → bool).

Lemma star_lazy_unfold cls k acc s :
  star_lazy cls k acc s =
  match k acc s with
  | Some r => Some r
  | None =>
    match s with
    | c :: s' => if cls c then star_lazy cls k (acc ++ [c]) s' else None
    | [] => None
    end
  end.
Proof. by destruct s. Qed.

(** The lazy star stops at the first place where the continuation succeeds. *)
Lemma star_lazy_first cls k acc mid rest r :
  forallb cls mid = true →
  (∀ a c b, mid = a ++ c :: b → k (acc ++ a) (c :: b ++ rest) = None) →
  k (acc ++ mid) rest = Some r →
  star_lazy cls k acc (mid ++ rest) = Some r.
Proof.
  revert acc. induction mid as [|c mid IH]; intros acc Hcls Hno Hk.
  - rewrite star_lazy_unfold. rewrite app_nil_r in Hk. simpl. by rewrite Hk.
  - simpl in Hcls. apply andb_true_iff in Hcls as [Hc Hcls].
    rewrite star_lazy_unfold.
    pose proof (Hno [] c mid eq_refl) as H0. rewrite app_nil_r in H0.
    simpl. rewrite H0, Hc.
    apply IH; [done| |].
    + intros a d b ->. rewrite <- app_assoc. apply (Hno (c :: a) d b). done.
    + by rewrite <- app_assoc.
Qed.

Lemma star_lazy_inv cls k acc s r :
  star_lazy cls k acc s = Some r →
  ∃ mid rest, s = mid ++ rest ∧ forallb cls mid = true ∧ k (acc ++ mid) rest = Some r.
Proof.
  revert acc. induction s as [|c s IH]; intros acc H; rewrite star_lazy_unfold in H.
  - destruct (k acc []) eqn:Hk; [|done]. injection H as ->.
    exists [], []. by rewrite (app_nil_r acc).
  - destruct (k acc (c :: s)) eqn:Hk.
    + injection H as ->. exists [], (c :: s). rewrite app_nil_r. done.
    + destruct (cls c) eqn:Hc; [|done].
      apply IH in H as (mid & rest & -> & Hm & Hk').
      exists (c :: mid), rest. simpl. rewrite Hc.
      rewrite <- app_assoc in Hk'. done.
Qed.

(** The place where the lazy star stops is the first one the
    continuation accepts. *)
Lemma star_lazy_shortest cls k acc s r :
  star_lazy cls k acc s = Some r →
  ∃ mid rest,
    s = mid ++ rest ∧ k (acc ++ mid) rest = Some r
    ∧ ∀ a c b, mid = a ++ c :: b → k (acc ++ a) (c :: b ++ rest) = None.
Proof.
  revert acc. induction s as [|c s IH]; intros acc H; rewrite star_lazy_unfold in H.
  - destruct (k acc []) eqn:Hk; [|done]. injection H as ->.
    exists [], []. rewrite (app_nil_r acc). split; [done|]. split; [done|].
    intros a d b E. by destruct a.
  - destruct (k acc (c :: s)) eqn:Hk.
    + injection H as ->. exists [], (c :: s). rewrite app_nil_r.
      split; [done|]. split; [done|]. intros a d b E. by destruct a.
    + destruct (cls c) eqn:Hc; [|done].
      apply IH in H as (mid & rest & -> & Hk' & Hmin).
      exists (c :: mid), rest. rewrite <- app_assoc in Hk'.
      split; [done|]. split; [done|].
      intros a d b E. destruct a as [|e a]; simpl in E.
      * injection E as <- <-. by rewrite app_nil_r.
      * injection E as <- E. specialize (Hmin a d b E).
        by rewrite <- app_assoc in Hmin.
Qed.

(** The greedy star takes the whole run when the continuation accepts it. *)
Lemma star_greedy_max cls k acc mid rest r :
  forallb cls mid = true →
  match rest with c :: _ => cls c = false | [] => True end →
  k (acc ++ mid) rest = Some r →
  star_greedy cls k acc (mid ++ rest) = Some r.
Proof.
  revert acc. induction mid as [|c mid IH]; intros acc Hcls Hstop Hk.
  - rewrite app_nil_r in Hk. destruct rest as [|c rest]; simpl; [done|].
    by rewrite Hstop.
  - simpl in Hcls. apply andb_true_iff in Hcls as [Hc Hcls].
    simpl. rewrite Hc, IH; [done..|]. by rewrite <- app_assoc.
Qed.

Lemma star_greedy_inv cls k acc s r :
  star_greedy cls k acc s = Some r →
  ∃ mid rest, s = mid ++ rest ∧ forallb cls mid = true ∧ k (acc ++ mid) rest = Some r.
Proof.
  revert acc. induction s as [|c s IH]; intros acc H; simpl in H.
  - exists [], []. by rewrite (app_nil_r acc).
  - destruct (cls c) eqn:Hc.
    + destruct (star_greedy cls k (acc ++ [c]) s) eqn:Hs.
      * injection H as ->. apply IH in Hs as (mid & rest & -> & Hm & Hk').
        exists (c :: mid), rest. simpl. rewrite Hc.
        rewrite <- app_assoc in Hk'. done.
      * exists [], (c :: s). rewrite app_nil_r. done.
    + exists [], (c :: s). rewrite app_nil_r. done.
Qed.

Lemma plus_greedy_max cls k c mid rest r :
  forallb cls (c :: mid) = true →
  match rest with d :: _ => cls d = false | [] => True end →
  k (c :: mid) rest = Some r →
  plus_greedy cls k ((c :: mid) ++ rest) = Some r.
Proof.
  intros Hcls Hstop Hk. simpl in Hcls. apply andb_true_iff in Hcls as [Hc Hcls].
  simpl. rewrite Hc. by apply star_greedy_max.
Qed.

Lemma plus_greedy_inv cls k s r :
  plus_greedy cls k s = Some r →
  ∃ mid rest, s = mid ++ rest ∧ mid ≠ [] ∧ forallb cls mid = true ∧ k mid rest = Some r.
Proof.
  destruct s as [|c s]; simpl; [done|].
  destruct (cls c) eqn:Hc; [|done]. intros H.
  apply star_greedy_inv in H as (mid & rest & -> & Hm & Hk).
  exists (c :: mid), rest. simpl. by rewrite Hc.
Qed.

(** A successful run splits the input into the matched text and the rest,
    and closes as many groups as the pattern has. *)
Lemma run_sound (r : regex) :
  ∀ s caps (k : gostring → gostring → list gostring → option R) x,
    run r s caps k = Some x →
    ∃ u rest caps',
      s = u ++ rest ∧ length caps' = (length caps + NumSubexp r)%nat
      ∧ k u rest caps' = Some x.
Proof.
  induction r as [l|cls|cls|cls|r IH|r1 IH1 r2 IH2]; simpl; intros s caps k x H.
  - destruct (HasPrefix s l) eqn:Hp; [|done].
    apply HasPrefix_inv in Hp as [t ->]. rewrite drop_app_length in H.
    exists l, t, caps. by rewrite Nat.add_0_r.
  - apply star_lazy_inv in H as (mid & rest & -> & _ & Hk).
    exists mid, rest, caps. by rewrite Nat.add_0_r.
  - apply star_greedy_inv in H as (mid & rest & -> & _ & Hk).
    exists mid, rest, caps. by rewrite Nat.add_0_r.
  - apply plus_greedy_inv in H as (mid & rest & -> & _ & _ & Hk).
    exists mid, rest, caps. by rewrite Nat.add_0_r.
  - apply IH in H as (u & rest & caps' & -> & Hlen & Hk).
    exists u, rest, (caps' ++ [u]). rewrite length_app. simpl.
    split; [done|]. split; [lia|done].
  - apply IH1 in H as (u & s' & caps' & -> & Hlen & H).
    apply IH2 in H as (v & s'' & caps'' & -> & Hlen' & H).
    exists (u ++ v), s'', caps''. rewrite <- app_assoc.
    split; [done|]. split; [lia|done].
Qed.

End Stars.

Lemma match_here_sound r s m rest :
  match_here r s = Some (m, rest) →
  ∃ u caps, m = u :: caps ∧ s = u ++ rest ∧ length caps = NumSubexp r.
Proof.
  unfold match_here. intros H.
  apply run_sound in H as (u & rest' & caps & -> & Hlen & H).
  injection H as <- <-. by exists u, caps.
Qed.

Lemma search_unfold r s :
  search r s =
  match match_here r s with
  | Some (m, rest) => Some ([], m, rest)
  | None =>
    match s with
    | [] => None
    | c :: s' =>
      match search r s' with
      | Some (before, m, rest) => Some (c :: before, m, rest)
      | None => None
      end
    end
  end.
Proof. by destruct s. Qed.

Lemma search_sound r s before m rest :
  search r s = Some (before, m, rest) →
  ∃ u caps, m = u :: caps ∧ s = before ++ u ++ rest ∧ length caps = NumSubexp r
            ∧ match_here r (u ++ rest) = Some (m, rest).
Proof.
  revert before. induction s as [|c s IH]; intros before H; rewrite search_unfold in H.
  - destruct (match_here r []) as [[m' rest']|] eqn:Hm; [|done].
    injection H as <- <- <-.
    destruct (match_here_sound _ _ _ _ Hm) as (u & caps & -> & Hs & Hl).
    exists u, caps. rewrite <- Hs. done.
  - destruct (match_here r (c :: s)) as [[m' rest']|] eqn:Hm.
    + injection H as <- <- <-.
      destruct (match_here_sound _ _ _ _ Hm) as (u & caps & -> & Hs & Hl).
      exists u, caps. rewrite <- Hs. done.
    + destruct (search r s) as [[[b' m'] rest']|] eqn:Hs; [|done].
      injection H as <- <- <-.
      destruct (IH _ eq_refl) as (u & caps & -> & -> & Hl & Hm').
      by exists u, caps.
Qed.

(** The search passes over a text none of whose positions starts a match. *)
Lemma search_skip r pre s :
  (∀ a c b, pre = a ++ c :: b → match_here r (c :: b ++ s) = None) →
  search r (pre ++ s) =
  match search r s with
  | Some (before, m, rest) => Some (pre ++ before, m, rest)
  | None => None
  end.
Proof.
  induction pre as [|c pre IH]; intros Hno.
  - simpl. by destruct (search r s) as [[[? ?] ?]|].
  - simpl. rewrite (Hno [] c pre eq_refl).
    rewrite IH; [by destruct (search r s) as [[[? ?] ?]|]|].
    intros a d b ->. apply (Hno (c :: a) d b). done.
Qed.

Lemma search_here r s m rest :
  match_here r s = Some (m, rest) → search r s = Some ([], m, rest).
Proof. intros H. by rewrite search_unfold, H. Qed.

(** The match that [search] returns is the leftmost one. *)
Lemma search_leftmost r s before m rest :
  search r s = Some (before, m, rest) →
  ∃ tail, s = before ++ tail ∧ match_here r tail = Some (m, rest)
          ∧ ∀ a c b, before = a ++ c :: b → match_here r (c :: b ++ tail) = None.
Proof.
  revert before. induction s as [|c s IH]; intros before H; rewrite search_unfold in H.
  - destruct (match_here r []) as [[m' rest']|] eqn:Hm; [|done].
    injection H as <- <- <-. exists []. split; [done|]. split; [done|].
    intros a d b E. by destruct a.
  - destruct (match_here r (c :: s)) as [[m' rest']|] eqn:Hm.
    + injection H as <- <- <-. exists (c :: s). split; [done|]. split; [done|].
      intros a d b E. by destruct a.
    + destruct (search r s) as [[[b' m'] rest']|] eqn:Hs; [|done].
      injection H as <- <- <-.
      destruct (IH _ eq_refl) as (tail & -> & Hm' & Hmin).
      exists tail. split; [done|]. split; [done|].
      intros a d b E. destruct a as [|e a]; simpl in E.
      * by injection E as <- <-.
      * injection E as <- E. by apply (Hmin a d b).
Qed.

Lemma search_none r s :
  (∀ a b, s = a ++ b → match_here r b = None) → search r s = None.
Proof.
  induction s as [|c s IH]; intros Hno; rewrite search_unfold.
  - by rewrite (Hno [] [] eq_refl).
  - rewrite (Hno [] (c :: s) eq_refl), IH; [done|].
    intros a b ->. apply (Hno (c :: a) b). done.
Qed.

(** Patterns that open with a literal. *)
Lemma match_here_lit_fail o r s :
  HasPrefix s o = false → match_here (Lit o +> r) s = None.
Proof. unfold match_here. simpl. by intros ->. Qed.

Lemma match_here_lit_inv o r s m rest :
  match_here (Lit o +> r) s = Some (m, rest) →
  HasPrefix s o = true ∧ (length o + length rest ≤ length s)%nat.
Proof.
  unfold match_here. simpl. destruct (HasPrefix s o) eqn:Hp; [|done].
  intros H. split; [done|].
  apply HasPrefix_inv in Hp as [t ->]. rewrite drop_app_length in H.
  apply run_sound in H as (v & rest' & caps & -> & _ & H).
  injection H as _ <-. rewrite !length_app. lia.
Qed.

Lemma search_lit_shrinks o r s before m rest :
  o ≠ [] → search (Lit o +> r) s = Some (before, m, rest) →
  (length rest < length s)%nat.
Proof.
  intros Ho H. apply search_sound in H as (u & caps & -> & -> & _ & Hm).
  apply match_here_lit_inv in Hm as [_ Hlen].
  rewrite !length_app in *. destruct o; [done|]. simpl in Hlen. lia.
Qed.


(** With a pattern that opens with a non-empty literal every match
    consumes input: the fuel of [find_all] and [replace_all] never runs
    out, any larger amount gives the same result. *)
Lemma find_all_fuel o r (n m : nat) s :
  o ≠ [] → (length s ≤ n)%nat → (length s ≤ m)%nat →
  find_all n (Lit o +> r) s = find_all m (Lit o +> r) s.
Proof.
  intros Ho. revert m s. induction n as [|n IH]; intros m s Hn Hm.
  - destruct s; [|simpl in Hn; lia]. destruct m; [done|]. simpl.
    unfold match_here. simpl. by destruct o.
  - destruct m as [|m].
    + destruct s; [|simpl in Hm; lia]. simpl.
      unfold match_here. simpl. by destruct o.
    + simpl. destruct (search (Lit o +> r) s) as [[[b mm] rest]|] eqn:Hs; [|done].
      apply search_lit_shrinks in Hs; [|done].
      f_equal. apply IH; lia.
Qed.

Lemma replace_all_fuel o r (n m : nat) s repl :
  o ≠ [] → (length s ≤ n)%nat → (length s ≤ m)%nat →
  replace_all n (Lit o +> r) s repl = replace_all m (Lit o +> r) s repl.
Proof.
  intros Ho. revert m s. induction n as [|n IH]; intros m s Hn Hm.
  - destruct s; [|simpl in Hn; lia]. destruct m; [done|]. simpl.
    unfold match_here. simpl. by destruct o.
  - destruct m as [|m].
    + destruct s; [|simpl in Hm; lia]. simpl.
      unfold match_here. simpl. by destruct o.
    + simpl. destruct (search (Lit o +> r) s) as [[[b mm] rest]|] eqn:Hs; [|done].
      apply search_lit_shrinks in Hs; [|done].
      do 2 f_equal. apply IH; lia.
Qed.

(** The patterns run under [FindAllStringSubmatch] and [ReplaceAllString]
    open with a literal: the fuel taken from the length of the input is
    enough. *)
Lemma FindAll_any_fuel o r (n : nat) s :
  o ≠ [] → (length s ≤ n)%nat →
  find_all n (Lit o +> r) s = FindAllStringSubmatch (Lit o +> r) s.
Proof. intros Ho Hn. unfold FindAllStringSubmatch. by apply find_all_fuel. Qed.

Lemma ReplaceAll_any_fuel o r (n : nat) s repl :
  o ≠ [] → (length s ≤ n)%nat →
  replace_all n (Lit o +> r) s repl = ReplaceAllString (Lit o +> r) s repl.
Proof. intros Ho Hn. unfold ReplaceAllString. by apply replace_all_fuel. Qed.

End RegexpFacts.

(** * Facts on [strconv] *)

Module StrconvFacts.
Import Strconv.

Lemma digits_from_digits s : ∀ acc v,
  digits_from acc s = Some v → forallb is_digit s = true.
Proof.
  induction s as [|c s IH]; intros acc v H; [done|].
  simpl in *. destruct (is_digit c); [|done]. by apply (IH _ v H).
Qed.

(** What [Atoi] accepts: an optional sign and at least one digit, nothing
    else, with a value in the range of [int]. *)
Lemma Atoi_syntax s n :
  Atoi s = Some n →
  ∃ body, body ≠ [] ∧ forallb is_digit body = true
          ∧ (s = body ∨ s = "+"%char :: body ∨ s = "-"%char :: body)
          ∧ (MinInt ≤ n ≤ MaxInt)%Z.
Proof.
  unfold Atoi. intros H.
  assert (∀ (neg : bool) (body : gostring),
            match parse_digits body with
            | Some v => let n := if neg then (- v)%Z else v in
                        if in_int n then Some n else None
            | None => None
            end = Some n →
            body ≠ [] ∧ forallb is_digit body = true ∧ (MinInt ≤ n ≤ MaxInt)%Z) as Hbody.
  { intros neg body Hb. unfold parse_digits in Hb.
    destruct body as [|c body]; [done|].
    destruct (digits_from 0 (c :: body)) as [v|] eqn:Hd; [|done].
    cbv zeta in Hb. destruct (in_int _) eqn:Hr; [|done]. injection Hb as <-.
    split; [done|]. split; [by apply (digits_from_digits _ 0%Z v)|].
    unfold in_int in Hr. apply andb_true_iff in Hr as [H1 H2]. lia. }
  destruct s as [|c s].
  - by apply (Hbody false) in H as [Hne _].
  - destruct (Ascii.eqb_spec c "-") as [->|Hm].
    + apply (Hbody true) in H as (Hne & Hd & Hr). exists s. tauto.
    + destruct (Ascii.eqb_spec c "+") as [->|Hp].
      * apply (Hbody false) in H as (Hne & Hd & Hr). exists s. tauto.
      * apply (Hbody false) in H as (Hne & Hd & Hr). exists (c :: s). tauto.
Qed.

End StrconvFacts.

(** * Facts on the directive grammar and on the extractor *)

Module DirectiveFacts.
Import Strings Regexp JSON XMLParser Directive StringFacts RegexpFacts.

(** ** Lazy blocks: an opening literal, a lazy run, a closing literal *)

Lemma lazy_block_here o cls cl mid rest :
  forallb cls mid = true →
  (∀ a c b, mid = a ++ c :: b → HasPrefix (c :: b ++ cl ++ rest) cl = false) →
  match_here (Lit o +> Group (StarLazy cls) +> Lit cl) (o ++ mid ++ cl ++ rest)
  = Some ([o ++ mid ++ cl; mid], rest).
Proof.
  intros Hcls Hno. unfold match_here. simpl.
  rewrite HasPrefix_app, drop_app_length.
  apply star_lazy_first; [done| |].
  - intros a c b ->. simpl. by rewrite (Hno a c b eq_refl).
  - simpl. by rewrite HasPrefix_app, drop_app_length.
Qed.

Lemma lazy_block_inv o cls cl s m rest :
  match_here (Lit o +> Group (StarLazy cls) +> Lit cl) s = Some (m, rest) →
  ∃ mid, s = o ++ mid ++ cl ++ rest ∧ m = [o ++ mid ++ cl; mid]
         ∧ forallb cls mid = true.
Proof.
  unfold match_here. simpl. destruct (HasPrefix s o) eqn:Hp; [|done].
  apply HasPrefix_inv in Hp as [t ->]. rewrite drop_app_length. intros H.
  apply star_lazy_inv in H as (mid & rest' & -> & Hm & Hk). simpl in Hk.
  destruct (HasPrefix rest' cl) eqn:Hc; [|done].
  apply HasPrefix_inv in Hc as [t ->]. rewrite drop_app_length in Hk.
  injection Hk as <- <-. by exists mid.
Qed.

Lemma lazy_block_search o cls cl pre mid rest :
  (∀ a c b, pre = a ++ c :: b → HasPrefix (c :: b ++ o ++ mid ++ cl ++ rest) o = false) →
  forallb cls mid = true →
  quiet cl mid →
  search (Lit o +> Group (StarLazy cls) +> Lit cl) (pre ++ o ++ mid ++ cl ++ rest)
  = Some (pre, [o ++ mid ++ cl; mid], rest).
Proof.
  intros Hpre Hcls Hq. rewrite search_skip.
  - rewrite (search_here _ _ _ _ (lazy_block_here o cls cl mid rest Hcls
                                   (λ a c b E, Hq (cl ++ rest) a c b E))).
    by rewrite app_nil_r.
  - intros a c b E. apply match_here_lit_fail. by apply (Hpre a c b).
Qed.

(** The same for the pattern of [buildFinalReply], which has no group. *)
Lemma bare_block_here o cls cl mid rest :
  forallb cls mid = true →
  (∀ a c b, mid = a ++ c :: b → HasPrefix (c :: b ++ cl ++ rest) cl = false) →
  match_here (Lit o +> StarLazy cls +> Lit cl) (o ++ mid ++ cl ++ rest)
  = Some ([o ++ mid ++ cl], rest).
Proof.
  intros Hcls Hno. unfold match_here. simpl.
  rewrite HasPrefix_app, drop_app_length.
  apply star_lazy_first; [done| |].
  - intros a c b ->. simpl. by rewrite (Hno a c b eq_refl).
  - simpl. by rewrite HasPrefix_app, drop_app_length.
Qed.

(** ** Silent texts *)

Lemma quiet_nil p : quiet p [].
Proof. intros tail a c b E. by destruct a. Qed.

Lemma quiet_cons p c x :
  (∀ tail, HasPrefix (c :: x ++ tail) p = false) → quiet p x → quiet p (c :: x).
Proof.
  intros Hc Hx tail a d b E. destruct a as [|e a]; simpl in E.
  - injection E as <- <-. apply Hc.
  - injection E as _ E. by apply (Hx tail a d b).
Qed.

Lemma quiet_app p x y : quiet p x → quiet p y → quiet p (x ++ y).
Proof.
  intros Hx Hy tail a c b E.
  apply app_eq_inv in E as [(k & Ex & Ey)|(k & Ea & Ey)].
  - destruct k as [|d k]; simpl in Ey.
    + apply (Hy tail [] c b). done.
    + injection Ey as <- ->.
      rewrite <- app_assoc. apply (Hx (y ++ tail) a c k). done.
  - apply (Hy tail k c b). done.
Qed.

Lemma quiet_clean w x : clean x = true → quiet ("<"%char :: w) x.
Proof.
  intros Hx tail a c b ->. unfold clean in Hx.
  rewrite forallb_app in Hx. simpl in Hx.
  apply andb_true_iff in Hx as [_ Hx]. apply andb_true_iff in Hx as [Hc _].
  apply HasPrefix_head. intros ->. done.
Qed.

Lemma word_clean k : forallb word k = true → clean k = true.
Proof.
  unfold clean. induction k as [|c k IH]; simpl; [done|].
  intros H. apply andb_true_iff in H as [Hc Hk]. rewrite IH; [|done].
  rewrite andb_true_r. unfold not_lt.
  destruct (Ascii.eqb_spec c "<"); [subst c; done|done].
Qed.

Lemma clean_app x y : clean (x ++ y) = clean x && clean y.
Proof. apply forallb_app. Qed.

(** An open tag never starts a closing marker. *)
Lemma quiet_open_close w k : is_word k = true → quiet (closeTag w) (openTag k).
Proof.
  unfold is_word. intros Hk. apply andb_true_iff in Hk as [Hk Hne].
  unfold openTag, closeTag, str. cbn [list_ascii_of_string app]. apply quiet_cons.
  - intros tail. destruct k as [|c k]; [done|]. cbn [forallb] in Hk.
    apply andb_true_iff in Hk as [Hc _]. cbn [app].
    rewrite HasPrefix_same. apply HasPrefix_head. by intros ->.
  - apply quiet_clean. rewrite clean_app, (word_clean k Hk). reflexivity.
Qed.

(** Two tag names differ at some byte, or one ends where the other goes on. *)
Lemma word_tag_differs k w tail :
  forallb word k = true → forallb word w = true → k ≠ w →
  HasPrefix (k ++ ">"%char :: tail) (w ++ [">"%char]) = false.
Proof.
  revert w. induction k as [|c k IH]; intros w Hk Hw Hne.
  - destruct w as [|d w]; [done|]. simpl in Hw. apply andb_true_iff in Hw as [Hd _].
    apply HasPrefix_head. intros <-. done.
  - simpl in Hk. apply andb_true_iff in Hk as [Hc Hk].
    destruct w as [|d w].
    + apply HasPrefix_head. intros ->. done.
    + simpl in Hw. apply andb_true_iff in Hw as [Hd Hw]. simpl.
      destruct (Ascii.eqb_spec d c) as [->|]; [|done]. simpl.
      apply IH; [done..|]. congruence.
Qed.

(** A close tag starts a closing marker only of its own name. *)
Lemma quiet_close_close w k :
  forallb word w = true → is_word k = true → k ≠ w →
  quiet (closeTag w) (closeTag k).
Proof.
  unfold is_word. intros Hw Hk Hne. apply andb_true_iff in Hk as [Hk _].
  unfold closeTag, str. cbn [list_ascii_of_string app]. apply quiet_cons.
  - intros tail. cbn [app]. rewrite !HasPrefix_same, <- app_assoc.
    by apply word_tag_differs.
  - apply quiet_clean.
    change (clean ([ "/"%char ] ++ k ++ [">"%char]) = true).
    rewrite !clean_app, (word_clean k Hk). reflexivity.
Qed.

(** A close tag never starts an opening marker. *)
Lemma quiet_close_open w k :
  is_word w = true → is_word k = true → quiet (openTag w) (closeTag k).
Proof.
  unfold is_word. intros Hw Hk.
  apply andb_true_iff in Hw as [Hw Hne]. apply andb_true_iff in Hk as [Hk _].
  unfold closeTag, openTag, str. cbn [list_ascii_of_string app]. apply quiet_cons.
  - intros tail. destruct w as [|d w]; [done|]. cbn [forallb] in Hw.
    apply andb_true_iff in Hw as [Hd _]. cbn [app].
    rewrite HasPrefix_same. apply HasPrefix_head. by intros <-.
  - apply quiet_clean.
    change (clean ([ "/"%char ] ++ k ++ [">"%char]) = true).
    rewrite !clean_app, (word_clean k Hk). reflexivity.
Qed.

(** ** The tag pattern on one pair *)

Lemma tag_here k1 v k2 rest :
  is_word k1 = true → is_word k2 = true → clean v = true →
  match_here tagRegex (openTag k1 ++ v ++ closeTag k2 ++ rest)
  = Some ([openTag k1 ++ v ++ closeTag k2; k1; v; k2], rest).
Proof.
  unfold is_word. intros H1 H2 Hv.
  apply andb_true_iff in H1 as [H1 N1]. apply andb_true_iff in H2 as [H2 N2].
  destruct k1 as [|c1 k1]; [done|]. destruct k2 as [|c2 k2]; [done|].
  unfold openTag, closeTag. rewrite <- !app_assoc.
  unfold match_here, tagRegex. cbn [run].
  rewrite HasPrefix_app, drop_app_length.
  apply plus_greedy_max; [exact H1|reflexivity|]. cbv beta.
  rewrite HasPrefix_app, drop_app_length.
  apply star_greedy_max; [exact Hv|reflexivity|]. cbv beta.
  rewrite HasPrefix_app, drop_app_length.
  apply plus_greedy_max; [exact H2|reflexivity|]. cbv beta.
  rewrite HasPrefix_app, drop_app_length.
  cbn [app]. done.
Qed.

Lemma tag_skip c s : c ≠ "<"%char → match_here tagRegex (c :: s) = None.
Proof. intros Hc. apply match_here_lit_fail. by apply HasPrefix_head. Qed.

Lemma clean_head a c b : clean (a ++ c :: b) = true → c ≠ "<"%char.
Proof.
  rewrite clean_app. intros H. apply andb_true_iff in H as [_ H].
  unfold clean in H. simpl in H. apply andb_true_iff in H as [H _].
  by intros ->.
Qed.

Lemma tag_search_clean lead : clean lead = true → search tagRegex lead = None.
Proof.
  intros Hl. apply search_none. intros a [|c b] ->; [done|].
  apply tag_skip. by apply (clean_head a c b).
Qed.

Lemma wf_field_inv f :
  wf_field f = true →
  is_word (key f) = true ∧ is_word (closeKey f) = true ∧ clean (value f) = true
  ∧ clean (gap f) = true ∧ closeKey f ≠ str "arguments" ∧ closeKey f ≠ str "func_call".
Proof.
  unfold wf_field. rewrite !andb_true_iff, !negb_true_iff, !bool_decide_eq_false.
  tauto.
Qed.

Lemma renderFields_cons f fs :
  renderFields (f :: fs)
  = openTag (key f) ++ value f ++ closeTag (closeKey f) ++ gap f ++ renderFields fs.
Proof.
  unfold renderFields, renderField, renderPair. rewrite fmap_cons.
  cbn [concat]. by rewrite <- !app_assoc.
Qed.

(** The successive matches on a rendered field list are its pairs. *)
Lemma find_all_fields fs : ∀ lead n,
  clean lead = true → forallb wf_field fs = true → (length fs ≤ n)%nat →
  find_all n tagRegex (lead ++ renderFields fs) = tagMatch <$> fs.
Proof.
  induction fs as [|f fs IH]; intros lead n Hl Hfs Hn.
  - unfold renderFields. simpl. rewrite app_nil_r.
    destruct n; [done|]. simpl. by rewrite tag_search_clean.
  - simpl in Hfs. apply andb_true_iff in Hfs as [Hf Hfs].
    destruct (wf_field_inv f Hf) as (Hk & Hc & Hv & Hg & _).
    destruct n as [|n]; [simpl in Hn; lia|]. simpl in Hn.
    rewrite renderFields_cons. cbn [find_all]. rewrite search_skip.
    + rewrite (search_here _ _ _ _ (tag_here _ _ _ _ Hk Hc Hv)).
      rewrite fmap_cons. unfold tagMatch at 1, renderPair.
      f_equal. apply IH; [done..|lia].
    + intros a c b E. apply tag_skip. rewrite E in Hl. by apply (clean_head a c b).
Qed.

Lemma length_renderFields fs : (length fs ≤ length (renderFields fs))%nat.
Proof.
  induction fs as [|f fs IH]; [done|].
  rewrite renderFields_cons. unfold openTag.
  rewrite !length_app. simpl. lia.
Qed.

Lemma FindAll_fields lead fs :
  clean lead = true → forallb wf_field fs = true →
  FindAllStringSubmatch tagRegex (lead ++ renderFields fs) = tagMatch <$> fs.
Proof.
  intros Hl Hfs. unfold FindAllStringSubmatch. apply find_all_fields; [done..|].
  rewrite length_app. pose proof (length_renderFields fs). lia.
Qed.

(** ** The loop over the matches *)

Lemma recordTag_mismatch args m :
  nth 1 m [] ≠ nth 3 m [] → recordTag args m = args.
Proof.
  intros Hne. unfold recordTag. case_match; [|done].
  cbv zeta. by rewrite decide_True.
Qed.

Lemma recordTag_match args w k v :
  recordTag args [w; k; v; k] = <[k := typedValue k (TrimSpace v)]> args.
Proof.
  unfold recordTag, typedValue. cbn [length Nat.leb nth].
  rewrite decide_False by (intros H; by apply H).
  destruct (decide (k = str "customerPhone" ∨ k = str "orderId")) as [[->| ->]|Hn].
  - done.
  - done.
  - rewrite !bool_decide_eq_false_2 by (intros ->; apply Hn; auto).
    simpl. by destruct (Strconv.Atoi (TrimSpace v)).
Qed.

Lemma recorded_snoc fs f k :
  recorded (fs ++ [f]) k =
  if matching k f then Some (typedValue k (TrimSpace (value f))) else recorded fs k.
Proof.
  unfold recorded. rewrite filter_app, filter_cons, filter_nil.
  destruct (matching k f) eqn:Hm.
  - rewrite decide_True by done. by rewrite last_snoc.
  - rewrite decide_False by done. by rewrite app_nil_r.
Qed.

(** Sequential insertion keeps, for every key, its last matching pair. *)
Lemma fold_recordTag fs args k :
  fold_left recordTag (tagMatch <$> fs) args !! k =
  match recorded fs k with
  | Some v => Some v
  | None => args !! k
  end.
Proof.
  induction fs as [|f fs IH] using rev_ind; [done|].
  rewrite fmap_app, fold_left_app, recorded_snoc. simpl.
  unfold tagMatch at 2. unfold matching.
  destruct (decide (key f = closeKey f)) as [E|N].
  - rewrite <- E, recordTag_match.
    destruct (decide (key f = k)) as [->|Nk].
    + rewrite lookup_insert_eq. by rewrite !bool_decide_eq_true_2.
    + rewrite lookup_insert_ne by done.
      rewrite (bool_decide_eq_false_2 _ Nk). simpl. apply IH.
  - rewrite recordTag_mismatch by done.
    destruct (bool_decide (key f = k)) eqn:B1; simpl; [|apply IH].
    apply bool_decide_eq_true_1 in B1 as <-.
    rewrite bool_decide_eq_false_2 by congruence. apply IH.
Qed.

Lemma parseArguments_fields lead fs k :
  clean lead = true → forallb wf_field fs = true →
  parseArguments (lead ++ renderFields fs) !! k = recorded fs k.
Proof.
  intros Hl Hfs. unfold parseArguments. rewrite FindAll_fields by done.
  rewrite fold_recordTag, lookup_empty. by destruct (recorded fs k).
Qed.

(** ** The blocks of a well-formed directive *)

Lemma quiet_clean_open w x : clean x = true → quiet (openTag w) x.
Proof. apply quiet_clean. Qed.

Lemma quiet_clean_close w x : clean x = true → quiet (closeTag w) x.
Proof. apply quiet_clean. Qed.

(** An open tag starts an opening marker only of its own name. *)
Lemma quiet_open_open w k :
  forallb word w = true → is_word k = true → k ≠ w →
  quiet (openTag w) (openTag k).
Proof.
  unfold is_word. intros Hw Hk Hne. apply andb_true_iff in Hk as [Hk _].
  unfold openTag, str. cbn [list_ascii_of_string app]. apply quiet_cons.
  - intros tail. rewrite HasPrefix_same, <- app_assoc.
    by apply word_tag_differs.
  - apply quiet_clean. rewrite clean_app, (word_clean k Hk). reflexivity.
Qed.

Lemma quiet_fields w fs :
  forallb word w = true → forallb wf_field fs = true →
  (∀ f, f ∈ fs → closeKey f ≠ w) →
  quiet (closeTag w) (renderFields fs).
Proof.
  intros Hw. induction fs as [|f fs IH]; intros Hfs Hne.
  - apply quiet_nil.
  - simpl in Hfs. apply andb_true_iff in Hfs as [Hf Hfs].
    destruct (wf_field_inv f Hf) as (Hk & Hc & Hv & Hg & _).
    rewrite renderFields_cons.
    apply quiet_app; [by apply quiet_open_close|].
    apply quiet_app; [by apply quiet_clean_close|].
    apply quiet_app; [apply quiet_close_close; [done..|apply Hne; left]|].
    apply quiet_app; [by apply quiet_clean_close|].
    apply IH; [done|]. intros g Hg'. apply Hne. by right.
Qed.

Lemma wf_block_inv b :
  wf_block b = true →
  clean (lead0 b) = true ∧ clean (name b) = true ∧ forallb dot (name b) = true
  ∧ TrimSpace (name b) = name b ∧ clean (lead1 b) = true ∧ clean (lead2 b) = true
  ∧ clean (lead3 b) = true ∧ forallb wf_field (fields b) = true.
Proof.
  unfold wf_block. rewrite !andb_true_iff, bool_decide_eq_true. tauto.
Qed.

Lemma wf_fields_close fs w :
  forallb wf_field fs = true → w = str "arguments" ∨ w = str "func_call" →
  ∀ f, f ∈ fs → closeKey f ≠ w.
Proof.
  intros Hfs Hw f Hf. rewrite forallb_forall in Hfs.
  apply list_elem_of_In in Hf.
  destruct (wf_field_inv f (Hfs f Hf)) as (_ & _ & _ & _ & Ha & Hc).
  by destruct Hw as [-> | ->].
Qed.

Lemma quiet_argsText b w :
  wf_block b = true → w = str "arguments" ∨ w = str "func_call" →
  quiet (closeTag w) (argsText b).
Proof.
  intros Hb Hw. destruct (wf_block_inv b Hb) as (_ & _ & _ & _ & _ & H2 & _ & Hfs).
  apply quiet_app; [by apply quiet_clean_close|].
  apply quiet_fields; [by destruct Hw as [-> | ->]|done|].
  by apply wf_fields_close.
Qed.

(** The text before the arguments block never opens one. *)
Lemma quiet_before_arguments b :
  wf_block b = true →
  quiet (openTag (str "arguments"))
        (lead0 b ++ openTag (str "tool_name") ++ name b ++ closeTag (str "tool_name")
         ++ lead1 b).
Proof.
  intros Hb. destruct (wf_block_inv b Hb) as (H0 & Hn & _ & _ & H1 & _).
  apply quiet_app; [by apply quiet_clean_open|].
  apply quiet_app; [by apply quiet_open_open|].
  apply quiet_app; [by apply quiet_clean_open|].
  apply quiet_app; [by apply quiet_close_open|].
  by apply quiet_clean_open.
Qed.

(** The content of the block never closes it. *)
Lemma quiet_content b :
  wf_block b = true → quiet (closeTag (str "func_call")) (content b).
Proof.
  intros Hb. destruct (wf_block_inv b Hb) as (H0 & Hn & _ & _ & H1 & _ & H3 & _).
  unfold content.
  apply quiet_app; [by apply quiet_clean_close|].
  apply quiet_app; [by apply quiet_open_close|].
  apply quiet_app; [by apply quiet_clean_close|].
  apply quiet_app; [by apply quiet_close_close|].
  apply quiet_app; [by apply quiet_clean_close|].
  apply quiet_app; [by apply quiet_open_close|].
  apply quiet_app; [apply quiet_argsText; auto|].
  apply quiet_app; [by apply quiet_close_close|].
  by apply quiet_clean_close.
Qed.

Lemma any_char_all (s : gostring) : forallb any_char s = true.
Proof. by induction s. Qed.

(** The outer block: from the first opening marker to the first closing
    marker after it. *)
Lemma funcCall_search pre body post :
  Contains pre (str "<func_call>") = false →
  (∀ a c b, body = a ++ c :: b →
            HasPrefix (c :: b ++ str "</func_call>" ++ post) (str "</func_call>") = false) →
  search funcCallRegex (pre ++ str "<func_call>" ++ body ++ str "</func_call>" ++ post)
  = Some (pre, [str "<func_call>" ++ body ++ str "</func_call>"; body], post).
Proof.
  intros Hpre Hbody. unfold funcCallRegex. rewrite search_skip.
  - rewrite (search_here _ _ _ _
               (lazy_block_here _ any_char _ body post (any_char_all _) Hbody)).
    by rewrite app_nil_r.
  - intros a c b E. apply match_here_lit_fail.
    by apply (marker_no_straddle pre (str "func_call>") _ a b c).
Qed.

End DirectiveFacts.

(** * The tool-call extractor *)

Module ExtractorSpec.
Import Strings Regexp JSON XMLParser Directive StringFacts RegexpFacts DirectiveFacts.

Lemma FindStringSubmatch_found r s before m rest :
  search r s = Some (before, m, rest) → FindStringSubmatch r s = m.
Proof. unfold FindStringSubmatch. by intros ->. Qed.

Lemma content_toolName b :
  wf_block b = true →
  FindStringSubmatch toolNameRegex (content b)
  = [openTag (str "tool_name") ++ name b ++ closeTag (str "tool_name"); name b].
Proof.
  intros Hb. destruct (wf_block_inv b Hb) as (H0 & Hn & Hd & _).
  unfold content.
  eapply FindStringSubmatch_found.
  apply (lazy_block_search (str "<tool_name>") dot (str "</tool_name>")); [|done|].
  - intros a c d E. by apply (quiet_clean_open (str "tool_name") _ H0 _ a c d).
  - by apply (quiet_clean_close (str "tool_name")).
Qed.

Lemma content_arguments b :
  wf_block b = true →
  FindStringSubmatch argsRegex (content b)
  = [openTag (str "arguments") ++ argsText b ++ closeTag (str "arguments"); argsText b].
Proof.
  intros Hb.
  replace (content b) with
    ((lead0 b ++ openTag (str "tool_name") ++ name b ++ closeTag (str "tool_name")
      ++ lead1 b)
     ++ openTag (str "arguments") ++ argsText b ++ closeTag (str "arguments") ++ lead3 b)
    by (unfold content; by rewrite <- !app_assoc).
  eapply FindStringSubmatch_found.
  apply (lazy_block_search (str "<arguments>") any_char (str "</arguments>")).
  - intros a c d E. by apply (quiet_before_arguments b Hb _ a c d).
  - apply any_char_all.
  - apply (quiet_argsText b (str "arguments")); auto.
Qed.

Lemma response_funcCall pre b post :
  wf_block b = true → Contains pre (str "<func_call>") = false →
  FindStringSubmatch funcCallRegex (pre ++ render b ++ post) = [render b; content b].
Proof.
  intros Hb Hpre. unfold render. rewrite <- !app_assoc.
  eapply FindStringSubmatch_found.
  apply (funcCall_search pre (content b) post Hpre).
  intros a c d E. by apply (quiet_content b Hb _ a c d).
Qed.

(** C1.  For every well-formed directive block, wherever it stands in the
    response (after a text that has no opening marker), extraction finds
    the directive, recovers the exact tool name, and the argument mapping it
    serializes holds, for every key, the trimmed value of the last pair
    whose open and close tags both carry that key: as text for
    [customerPhone] and [orderId], as an integer for any other key exactly
    when the trimmed value parses fully as one, as text otherwise. *)
Theorem well_formed_directive_extracted quote pre post b :
  wf_block b = true →
  Contains pre (str "<func_call>") = false →
  ∃ args : gmap gostring ArgValue,
    parseToolCallFromXML quote (pre ++ render b ++ post)
    = ({| ToolName := name b; Arguments := Marshal quote args |}, true)
    ∧ ∀ k, args !! k = recorded (fields b) k.
Proof.
  intros Hb Hpre.
  destruct (wf_block_inv b Hb) as (_ & _ & _ & Hname & _ & H2 & _ & Hfs).
  exists (parseArguments (argsText b)). split.
  - unfold parseToolCallFromXML.
    assert (Contains (pre ++ render b ++ post) (str "<func_call>") = true) as ->.
    { apply Contains_suffix, Contains_here. unfold render. rewrite <- !app_assoc.
      apply (HasPrefix_app (str "<func_call>")). }
    cbv zeta. rewrite (response_funcCall pre b post Hb Hpre).
    cbn [negb length Nat.ltb Nat.leb nth].
    rewrite (content_toolName b Hb), (content_arguments b Hb).
    cbn [length Nat.ltb Nat.leb nth]. by rewrite Hname.
  - intros k. by apply parseArguments_fields.
Qed.

(** ** Malformed and partial directives *)

Lemma lazy_search_inv o cls cl s before m rest :
  search (Lit o +> Group (StarLazy cls) +> Lit cl) s = Some (before, m, rest) →
  ∃ mid, s = before ++ o ++ mid ++ cl ++ rest ∧ m = [o ++ mid ++ cl; mid].
Proof.
  intros H. apply search_sound in H as (u & caps & -> & -> & _ & Hm).
  apply lazy_block_inv in Hm as (mid & E & -> & _).
  exists mid. by rewrite E.
Qed.

(** A lazy block pattern gives no submatch at all, or the whole match and
    its group, and then both of its literals occur in the text. *)
Lemma lazy_submatch_cases o cls cl s :
  FindStringSubmatch (Lit o +> Group (StarLazy cls) +> Lit cl) s = []
  ∨ ∃ whole mid,
      FindStringSubmatch (Lit o +> Group (StarLazy cls) +> Lit cl) s = [whole; mid]
      ∧ Contains s o = true ∧ Contains s cl = true.
Proof.
  unfold FindStringSubmatch.
  destruct (search _ s) as [[[before m] rest]|] eqn:Hs; [|by left].
  right. apply lazy_search_inv in Hs as (mid & -> & ->).
  exists (o ++ mid ++ cl), mid. split; [done|]. split.
  - apply Contains_occurrence.
  - rewrite !app_assoc, <- (app_assoc _ cl rest). apply Contains_occurrence.
Qed.

Lemma fold_recordTag_matching ms : ∀ args,
  fold_left recordTag ms args
  = fold_left recordTag (filter (λ m, nth 1 m [] = nth 3 m []) ms) args.
Proof.
  induction ms as [|m ms IH]; intros args; [done|].
  rewrite filter_cons. simpl. case_decide.
  - simpl. apply IH.
  - rewrite recordTag_mismatch by done. apply IH.
Qed.

Lemma body_close_silent body post :
  Contains body (str "</func_call>") = false →
  ∀ a c b, body = a ++ c :: b →
    HasPrefix (c :: b ++ str "</func_call>" ++ post) (str "</func_call>") = false.
Proof.
  intros Hb a c b E.
  by apply (marker_no_straddle body (str "/func_call>") post a b c).
Qed.

(** C2.  Extraction has no error outcome: on every response it either
    reports that no directive was found, with the zero tool call, or
    returns a tool call built from the matched name field and arguments
    block.  When the block between the first opening marker and the first
    closing marker after it lacks the opening or the closing tag of the
    name field or of the arguments block, extraction reports that no
    directive was found.  In the arguments block a tag pair whose open tag
    name differs from its close tag name leaves the argument mapping as it
    is: the mapping is the one built from the matching pairs alone. *)
Theorem malformed_directive_degrades quote :
  (∀ response,
      parseToolCallFromXML quote response = (noToolCall, false)
      ∨ ∃ toolName argsContent,
          parseToolCallFromXML quote response
          = ({| ToolName := TrimSpace toolName;
                Arguments := Marshal quote (parseArguments argsContent) |}, true))
  ∧ (∀ pre body post,
      Contains pre (str "<func_call>") = false →
      Contains body (str "</func_call>") = false →
      Contains body (str "<tool_name>") = false
      ∨ Contains body (str "</tool_name>") = false
      ∨ Contains body (str "<arguments>") = false
      ∨ Contains body (str "</arguments>") = false →
      parseToolCallFromXML quote
        (pre ++ str "<func_call>" ++ body ++ str "</func_call>" ++ post)
      = (noToolCall, false))
  ∧ (∀ args m, nth 1 m [] ≠ nth 3 m [] → recordTag args m = args)
  ∧ (∀ argsContent,
      parseArguments argsContent
      = fold_left recordTag
          (filter (λ m, nth 1 m [] = nth 3 m [])
                  (FindAllStringSubmatch tagRegex argsContent)) ∅).
Proof.
  repeat split.
  - intros response. unfold parseToolCallFromXML.
    destruct (Contains response _); [|by left]. cbv zeta. cbn [negb].
    destruct (lazy_submatch_cases (str "<func_call>") any_char (str "</func_call>")
                response) as [E|(w0 & body & E & _)];
      unfold funcCallRegex; rewrite E; [by left|].
    cbn [length Nat.ltb Nat.leb nth].
    destruct (lazy_submatch_cases (str "<tool_name>") dot (str "</tool_name>")
                body) as [E1|(w1 & toolName & E1 & _)];
      unfold toolNameRegex; rewrite E1; [by left|].
    cbn [length Nat.ltb Nat.leb nth].
    destruct (lazy_submatch_cases (str "<arguments>") any_char (str "</arguments>")
                body) as [E2|(w2 & argsContent & E2 & _)];
      unfold argsRegex; rewrite E2; [by left|].
    right. by exists toolName, argsContent.
  - intros pre body post Hpre Hbody Hlacks. unfold parseToolCallFromXML.
    rewrite Contains_occurrence. cbv zeta. cbn [negb].
    rewrite (FindStringSubmatch_found _ _ _ _ _
               (funcCall_search pre body post Hpre (body_close_silent body post Hbody))).
    cbn [length Nat.ltb Nat.leb nth].
    destruct (lazy_submatch_cases (str "<tool_name>") dot (str "</tool_name>")
                body) as [E1|(w1 & toolName & E1 & Ho1 & Hc1)];
      unfold toolNameRegex; rewrite E1; [done|].
    cbn [length Nat.ltb Nat.leb nth].
    destruct (lazy_submatch_cases (str "<arguments>") any_char (str "</arguments>")
                body) as [E2|(w2 & argsContent & E2 & Ho2 & Hc2)];
      unfold argsRegex; rewrite E2; [done|].
    exfalso. destruct Hlacks as [H|[H|[H|H]]]; congruence.
  - apply recordTag_mismatch.
  - intros argsContent. unfold parseArguments. apply fold_recordTag_matching.
Qed.

(** ** A directive without arguments *)





End ExtractorSpec.

(** * The orchestrator and the gateway *)

Module ServiceSpec.
Import Strings Regexp JSON XMLParser LLM RAG MCP Service Directive Assembly ToolLoop.
Import StringFacts RegexpFacts DirectiveFacts ExtractorSpec.

Section Orchestration.
Context {JVal W : Type} (codec : Codec JVal) (ext : External JVal W).

Implicit Types (st : State JVal W) (req : ChatRequest).

(** ** What the three outside calls do to the state *)

Lemma SearchKnowledge_state query topK st :
  ∃ w, (SearchKnowledge ext query topK st).2
       = emit w (EvSearch query (if (topK <=? 0)%Z then defaultTopK else topK)) st.
Proof.
  unfold SearchKnowledge. destruct (ragSearch ext _ _ _) as [r w]. by exists w.
Qed.

Lemma Chat_state messages tools st :
  ∃ w, (Chat ext messages tools st).2
       = emit w (EvChat messages tools (Chat ext messages tools st).1) st.
Proof.
  unfold Chat. destruct (llmChat ext _ _ _) as [r w]. by exists w.
Qed.

(** [CallTool] writes one request, with the next id and the arguments it
    was given. *)
Lemma CallTool_state toolName arguments st :
  ∃ x w,
    sidecar ext (toolsCallRequest (nextID (client st)).1 toolName arguments) (world st)
    = (x, w)
    ∧ (CallTool ext toolName arguments st).2
      = {| world := w; client := (nextID (client st)).2; ready := ready st;
           trace := trace st
                    ++ [EvSend (toolsCallRequest (nextID (client st)).1 toolName arguments) x] |}.
Proof.
  unfold CallTool, bind, allocID, sendRequest, emit. simpl.
  destruct (sidecar ext _ _) as [x w] eqn:Hx. exists x, w. split; [done|].
  destruct x as [e|e|e|resp]; simpl; try done.
  destruct (Error resp); simpl; [done|].
  destruct (Result resp) as [content tools|e]; simpl; [|done].
  by destruct content.
Qed.

Lemma Execute_trace toolName arguments st :
  ∃ sends, trace (Execute codec ext toolName arguments st).2 = trace st ++ sends
           ∧ Forall is_send sends
           ∧ ready (Execute codec ext toolName arguments st).2 = ready st.
Proof.
  unfold Execute. destruct (ready st) eqn:Hr; simpl.
  - destruct (unmarshalArgs codec arguments) as [args|e].
    + destruct (CallTool_state toolName args st) as (x & w & _ & E).
      destruct (CallTool ext toolName args st) as [r st'] eqn:Hc. simpl in E.
      exists [EvSend (toolsCallRequest (nextID (client st)).1 toolName args) x].
      destruct r; simpl; rewrite E; simpl; repeat split; auto; by repeat constructor.
    + exists []. simpl. by rewrite app_nil_r.
  - exists []. simpl. by rewrite app_nil_r.
Qed.

(** ** One turn of [HandleChat] *)

Lemma HandleChat_run req st docs err st1 response st2 :
  ReqMessage req ≠ [] →
  SearchKnowledge ext (ReqMessage req) 3 st = (Some (docs, err), st1) →
  Chat ext (assembleMessages req docs) [] st1 = (Ok response, st2) →
  HandleChat codec ext (Some req) st =
  let '(toolCall, found) := parseToolCallFromXML (quote codec) (OutputText response) in
  if found then
    let '(r, st3) := Execute codec ext (ToolName toolCall) (Arguments toolCall) st2 in
    (Some (replied match r with
                   | Err e => str "抱歉，订单处理失败: " ++ e
                   | Ok res => buildFinalReply (OutputText response) res
                   end (SessionID req)), st3)
  else (Some (replied (OutputText response) (SessionID req)), st2).
Proof.
  intros Hmsg Hs Hc. unfold HandleChat, ShouldBindJSON.
  rewrite decide_False by done. unfold bind. rewrite Hs. simpl. rewrite Hc.
  destruct (parseToolCallFromXML _ _) as [toolCall found].
  destruct found; [|done].
  destruct (Execute _ _ _ _ _) as [r st3]. by destruct r.
Qed.

(** ** Replies without a directive *)

Lemma parse_no_marker response :
  Contains response (str "<func_call>") = false →
  parseToolCallFromXML (quote codec) response = (noToolCall, false).
Proof. unfold parseToolCallFromXML. by intros ->. Qed.

(** C4, as the code has it.  For any model response text without the
    opening marker, extraction reports that no directive was found, and the
    chat endpoint answers with HTTP success and a reply that is the
    response text unchanged (it is not trimmed). *)
Theorem plain_reply_is_response_text req st docs err st1 response st2 :
  ReqMessage req ≠ [] →
  SearchKnowledge ext (ReqMessage req) 3 st = (Some (docs, err), st1) →
  Chat ext (assembleMessages req docs) [] st1 = (Ok response, st2) →
  Contains (OutputText response) (str "<func_call>") = false →
  parseToolCallFromXML (quote codec) (OutputText response) = (noToolCall, false)
  ∧ HandleChat codec ext (Some req) st
    = (Some (replied (OutputText response) (SessionID req)), st2).
Proof.
  intros Hmsg Hs Hc Hno. split; [by apply parse_no_marker|].
  rewrite (HandleChat_run req st docs err st1 response st2) by done.
  by rewrite parse_no_marker.
Qed.

(** ** Replies with a directive *)

Lemma post_silent post :
  Contains post (str "<func_call>") = false →
  search funcCallBlockRegex post = None.
Proof.
  intros Hp. apply search_none. intros a b ->.
  apply match_here_lit_fail. by apply (Contains_false_at a b).
Qed.

Lemma withBlocks_cons seg segments post :
  withBlocks (seg :: segments) post
  = seg.1 ++ str "<func_call>" ++ seg.2 ++ str "</func_call>" ++ withBlocks segments post.
Proof. unfold withBlocks. rewrite fmap_cons. cbn [concat]. by rewrite <- !app_assoc. Qed.

(** Every block goes, the narrative stays. *)
Lemma replace_all_blocks segments post : ∀ n,
  Forall closed_segment segments →
  Contains post (str "<func_call>") = false →
  (length (withBlocks segments post) ≤ n)%nat →
  replace_all n funcCallBlockRegex (withBlocks segments post) [] = narrative segments post.
Proof.
  induction segments as [|[pre body] segments IH]; intros n Hsegs Hpost Hn.
  - unfold withBlocks, narrative. simpl.
    destruct n; [done|]. simpl. by rewrite post_silent.
  - apply Forall_cons in Hsegs as [[Hpre Hbody] Hsegs]. simpl in Hpre, Hbody.
    rewrite withBlocks_cons in *. cbn [fst snd] in *.
    destruct n as [|n]; [rewrite length_app in Hn; simpl in Hn; lia|].
    cbn [replace_all]. unfold funcCallBlockRegex. rewrite search_skip.
    + rewrite (search_here _ _ _ _
                 (bare_block_here _ any_char _ body _ (any_char_all _)
                    (body_close_silent body _ Hbody))).
      rewrite app_nil_r. cbn [app]. unfold narrative. rewrite fmap_cons.
      cbn [concat fst]. rewrite <- app_assoc. f_equal.
      apply IH; [done..|]. rewrite !length_app in Hn. simpl in Hn. lia.
    + intros a c b E. apply match_here_lit_fail.
      by apply (marker_no_straddle pre (str "func_call>") _ a b c).
Qed.

Lemma buildFinalReply_blocks segments post toolResult :
  Forall closed_segment segments →
  Contains post (str "<func_call>") = false →
  buildFinalReply (withBlocks segments post) toolResult
  = if decide (TrimSpace (narrative segments post) = []) then toolResult
    else TrimSpace (narrative segments post) ++ str "

" ++ toolResult.
Proof.
  intros Hsegs Hpost. unfold buildFinalReply, ReplaceAllString.
  by rewrite replace_all_blocks.
Qed.

(** C7.  When a directive is found in the response and the tool call
    succeeds, the chat endpoint answers with HTTP success and the reply is
    the response without its directive blocks (each from an opening marker
    to the first closing marker after it), trimmed of surrounding white
    space, then a blank line, then the tool result text; when nothing is
    left after the removal and the trimming, the reply is the tool result
    text alone. *)
Theorem directive_reply_spliced req st docs err st1 response st2
    segments post info res st3 :
  ReqMessage req ≠ [] →
  SearchKnowledge ext (ReqMessage req) 3 st = (Some (docs, err), st1) →
  Chat ext (assembleMessages req docs) [] st1 = (Ok response, st2) →
  OutputText response = withBlocks segments post →
  Forall closed_segment segments →
  Contains post (str "<func_call>") = false →
  parseToolCallFromXML (quote codec) (OutputText response) = (info, true) →
  Execute codec ext (ToolName info) (Arguments info) st2 = (Ok res, st3) →
  HandleChat codec ext (Some req) st
  = (Some (replied (if decide (TrimSpace (narrative segments post) = []) then res
                    else TrimSpace (narrative segments post) ++ str "

" ++ res) (SessionID req)), st3).
Proof.
  intros Hmsg Hs Hc Htext Hsegs Hpost Hparse Hexec.
  rewrite (HandleChat_run req st docs err st1 response st2) by done.
  rewrite Hparse, Hexec, Htext.
  by rewrite buildFinalReply_blocks.
Qed.

(** ** Gateway failures *)

Lemma CallTool_result toolName arguments st resp w :
  sidecar ext (toolsCallRequest (nextID (client st)).1 toolName arguments) (world st)
  = (Envelope resp, w) →
  (CallTool ext toolName arguments st).1
  = match Error resp with
    | Some e => Err (str "工具调用失败: " ++ ErrMessage e)
    | None =>
      match Result resp with
      | RawInvalid e => Err (str "解析工具结果失败: " ++ e)
      | RawObject (block :: _) _ => Ok (BlockText block)
      | RawObject [] _ => Err (str "工具返回空结果")
      end
    end.
Proof.
  intros Hx. unfold CallTool, bind, allocID, sendRequest. simpl in Hx |- *.
  rewrite Hx. simpl.
  destruct (Error resp); [done|].
  destruct (Result resp) as [content tools|e]; [|done].
  by destruct content.
Qed.

(** C8.  On the gateway, a response that carries an error object is an
    error for the caller, with the message of the peer; a response without
    error whose content-block list is empty is an error too; otherwise the
    gateway returns the text of the first content block.  The executor
    hands a gateway error on as an error.  When the dispatched tool call
    fails, the chat endpoint still answers with HTTP success, and the reply
    is the failure message followed by the error detail. *)
Theorem gateway_failure_reported :
  (∀ toolName arguments st resp w,
      sidecar ext (toolsCallRequest (nextID (client st)).1 toolName arguments) (world st)
      = (Envelope resp, w) →
      (∀ e, Error resp = Some e →
            (CallTool ext toolName arguments st).1
            = Err (str "工具调用失败: " ++ ErrMessage e))
      ∧ (∀ tools, Error resp = None → Result resp = RawObject [] tools →
            (CallTool ext toolName arguments st).1 = Err (str "工具返回空结果"))
      ∧ (∀ block blocks tools, Error resp = None →
            Result resp = RawObject (block :: blocks) tools →
            (CallTool ext toolName arguments st).1 = Ok (BlockText block)))
  ∧ (∀ toolName arguments args st e,
      ready st = true → unmarshalArgs codec arguments = Ok args →
      (CallTool ext toolName args st).1 = Err e →
      (Execute codec ext toolName arguments st).1 = Err (str "工具调用失败: " ++ e))
  ∧ (∀ req st docs err st1 response st2 info e st3,
      ReqMessage req ≠ [] →
      SearchKnowledge ext (ReqMessage req) 3 st = (Some (docs, err), st1) →
      Chat ext (assembleMessages req docs) [] st1 = (Ok response, st2) →
      parseToolCallFromXML (quote codec) (OutputText response) = (info, true) →
      Execute codec ext (ToolName info) (Arguments info) st2 = (Err e, st3) →
      HandleChat codec ext (Some req) st
      = (Some (replied (str "抱歉，订单处理失败: " ++ e) (SessionID req)), st3)).
Proof.
  split; [|split].
  - intros toolName arguments st resp w Hx.
    pose proof (CallTool_result toolName arguments st resp w Hx) as E.
    repeat split.
    + intros e He. by rewrite E, He.
    + intros tools He Hr. by rewrite E, He, Hr.
    + intros block blocks tools He Hr. by rewrite E, He, Hr.
  - intros toolName arguments args st e Hr Ha Hc. unfold Execute.
    rewrite Hr, Ha. simpl.
    destruct (CallTool ext toolName args st) as [r st']. simpl in Hc. by subst r.
  - intros req st docs err st1 response st2 info e st3 Hmsg Hs Hc Hparse Hexec.
    rewrite (HandleChat_run req st docs err st1 response st2) by done.
    by rewrite Hparse, Hexec.
Qed.

(** ** A directive without arguments *)



(** ** The message list *)

Lemma formatEntry_entry context (n : nat) doc :
  formatEntry context (Z.of_nat n) doc = context ++ contextEntry n doc.
Proof.
  unfold formatEntry, contextEntry.
  destruct (Metadata doc !! str "category") as [[category|]|];
    rewrite <- ?app_assoc, ?app_nil_r; done.
Qed.

Lemma formatLoop_entries docs : ∀ context (n : nat),
  fold_left (λ '(context, i) doc, (formatEntry context i doc, (i + 1)%Z))
            docs (context, Z.of_nat n)
  = (context ++ concat (imap (λ j, contextEntry (n + j)) docs),
     Z.of_nat (n + length docs)).
Proof.
  induction docs as [|doc docs IH]; intros context n.
  - simpl. by rewrite app_nil_r, Nat.add_0_r.
  - cbn [fold_left]. rewrite formatEntry_entry.
    replace (Z.of_nat n + 1)%Z with (Z.of_nat (S n)) by lia.
    rewrite IH. cbn [imap concat length]. rewrite Nat.add_0_r, <- app_assoc.
    f_equal; [|f_equal; lia]. do 2 f_equal.
    f_equal. apply imap_ext. intros j d _. simpl. f_equal. lia.
Qed.

Lemma FormatContext_entries docs :
  docs ≠ [] → FormatContext docs = contextHeader ++ concat (imap contextEntry docs).
Proof.
  intros Hne. unfold FormatContext.
  rewrite decide_False by (by destruct docs).
  unfold formatLoop. by rewrite (formatLoop_entries docs _ 0).
Qed.

Lemma history_loop req hs : ∀ messages,
  fold_left (appendHistory req) hs messages
  = messages ++ (toMessage <$> filter (λ h, ¬ echoes req h) hs).
Proof.
  induction hs as [|h hs IH]; intros messages.
  - simpl. by rewrite app_nil_r.
  - cbn [fold_left]. rewrite IH, filter_cons. unfold appendHistory, echoes.
    destruct (decide (HContent h = ReqMessage req ∧ HRole h = str "user")) as [[Ec Er]|N].
    + rewrite decide_False by (intros Hn; by apply Hn). done.
    + rewrite decide_True by (intros [Er Ec]; by apply N).
      rewrite fmap_cons, <- app_assoc. done.
Qed.

(** The assembled list: the preamble, the context message when there are
    snippets, the kept history, the current message. *)
Lemma assembled_shape req docs :
  assembleMessages req docs
  = systemPrompt
    :: match docs with [] => [] | _ :: _ => [contextMessage docs] end
    ++ keptHistory req ++ [currentMessage req].
Proof.
  unfold assembleMessages, keptHistory, currentMessage.
  set (head := if (0 <? length docs)%nat then _ else _).
  assert (head = systemPrompt
                 :: match docs with [] => [] | _ :: _ => [contextMessage docs] end) as ->.
  { subst head. destruct docs as [|d docs]; [done|]. cbn [length Nat.ltb Nat.leb app].
    unfold contextMessage. by rewrite FormatContext_entries. }
  destruct (History req) as [|h hs].
  - cbn [length Nat.ltb Nat.leb]. by rewrite filter_nil, fmap_nil, app_nil_l.
  - cbn [length Nat.ltb Nat.leb]. rewrite history_loop.
    by rewrite app_comm_cons, <- !app_assoc.
Qed.

(** What a turn sends outside: the retrieval and, unless the retrieval
    panics, one call of the model and then at most the request of the
    tool call. *)
Lemma HandleChat_trace req st :
  ReqMessage req ≠ [] →
  match (SearchKnowledge ext (ReqMessage req) 3 st).1 with
  | None =>
    (HandleChat codec ext (Some req) st).1 = None
    ∧ trace (HandleChat codec ext (Some req) st).2
      = trace st ++ [EvSearch (ReqMessage req) 3]
  | Some (docs, _) =>
    ∃ answer sends,
      trace (HandleChat codec ext (Some req) st).2
      = trace st
        ++ [EvSearch (ReqMessage req) 3; EvChat (assembleMessages req docs) [] answer]
        ++ sends
      ∧ Forall is_send sends
  end.
Proof.
  intros Hmsg. unfold HandleChat, ShouldBindJSON.
  rewrite decide_False by done. unfold bind.
  destruct (SearchKnowledge_state (ReqMessage req) 3 st) as [w1 E1].
  destruct (SearchKnowledge ext (ReqMessage req) 3 st) as [[[docs err]|] st1];
    cbn [fst snd] in *; subst st1; [|done].
  set (messages := assembleMessages req docs).
  destruct (Chat_state messages [] (emit w1 (EvSearch (ReqMessage req) 3) st))
    as [w2 E2].
  destruct (Chat ext messages [] _) as [r st2]. cbn [fst snd] in *. subst st2.
  exists r. destruct r as [response|e].
  - destruct (parseToolCallFromXML _ _) as [toolCall found]. destruct found.
    + pose proof (Execute_trace (ToolName toolCall) (Arguments toolCall)
                    (emit w2 (EvChat messages [] (Ok response))
                       (emit w1 (EvSearch (ReqMessage req) 3) st)))
        as (sends & Et & Hs & _).
      destruct (Execute _ _ _ _ _) as [r st3]. cbn [snd] in Et.
      exists sends. split; [|done].
      destruct r; simpl; rewrite Et; simpl; by rewrite <- !app_assoc.
    + exists []. split; [|done]. simpl. by rewrite <- !app_assoc.
  - exists []. split; [|done]. simpl. by rewrite <- !app_assoc.
Qed.

(** C5.  For every request that binds, the message list sent to the
    model begins with the fixed system preamble; right after it comes the
    retrieved-context system message when the snippet list is not empty,
    and nothing when it is empty; the context message is the header
    followed by the enumerated entries, each with the index, the text and
    the category of its snippet; the history entries that are kept follow
    in the order of the client; the current user message is the last
    element.  The turn sends this one list, right after the retrieval,
    whenever the retrieval returns; when the retrieval panics the handler
    panics with it and no list is sent to the model. *)
Theorem model_receives_assembled_messages req st :
  ReqMessage req ≠ [] →
  match (SearchKnowledge ext (ReqMessage req) 3 st).1 with
  | None =>
    (HandleChat codec ext (Some req) st).1 = None
    ∧ trace (HandleChat codec ext (Some req) st).2
      = trace st ++ [EvSearch (ReqMessage req) 3]
  | Some (docs, _) =>
    let messages :=
      systemPrompt
      :: match docs with [] => [] | _ :: _ => [contextMessage docs] end
      ++ keptHistory req ++ [currentMessage req] in
    assembleMessages req docs = messages
    ∧ ∃ answer sends,
        trace (HandleChat codec ext (Some req) st).2
        = trace st ++ [EvSearch (ReqMessage req) 3; EvChat messages [] answer] ++ sends
        ∧ Forall is_send sends
  end.
Proof.
  intros Hmsg. pose proof (HandleChat_trace req st Hmsg) as H.
  destruct (SearchKnowledge ext (ReqMessage req) 3 st).1 as [[docs err]|]; [|exact H].
  destruct H as (answer & sends & Et & Hs).
  cbv zeta. split; [apply assembled_shape|].
  exists answer, sends. split; [|done].
  rewrite Et. by rewrite assembled_shape.
Qed.

Lemma system_role_not_current req (m : Message) :
  Role m = str "system" → m ≠ currentMessage req.
Proof. intros Hr ->. simpl in Hr. discriminate Hr. Qed.

(** C6.  Whatever the history holds, the assembled message list ends with
    the current user message and holds that message exactly once: the
    history entries with role [user] and the content of the current
    message are dropped.  An entry with the same content and another role
    is kept. *)
Theorem current_message_once req docs :
  last (assembleMessages req docs) = Some (currentMessage req)
  ∧ length (filter (λ m, m = currentMessage req) (assembleMessages req docs)) = 1%nat
  ∧ ∀ h, h ∈ History req → HContent h = ReqMessage req → HRole h ≠ str "user" →
         toMessage h ∈ assembleMessages req docs.
Proof.
  rewrite assembled_shape. split; [|split].
  - rewrite app_comm_cons, app_assoc. apply last_snoc.
  - assert (filter (λ m, m = currentMessage req) (keptHistory req) = []) as Hk.
    { unfold keptHistory. induction (History req) as [|h hs IH]; [done|].
      rewrite filter_cons. destruct (decide (¬ echoes req h)) as [N|_]; [|done].
      rewrite fmap_cons, filter_cons, IH.
      rewrite decide_False; [done|]. unfold toMessage, currentMessage, echoes in *.
      intros E. apply N. by injection E. }
    rewrite filter_cons.
    rewrite decide_False by (by apply system_role_not_current).
    rewrite !filter_app, Hk.
    destruct docs as [|d docs].
    + rewrite filter_nil, filter_cons, decide_True by done. done.
    + rewrite (filter_cons _ (contextMessage _)).
      rewrite decide_False by (by apply system_role_not_current).
      rewrite filter_nil, filter_cons, decide_True by done. done.
  - intros h Hh Hc Hr. right. apply elem_of_app. right. apply elem_of_app. left.
    unfold keptHistory. apply list_elem_of_fmap. exists h. split; [done|].
    apply list_elem_of_filter. split; [|done]. unfold echoes. tauto.
Qed.

(** ** The iterative loop *)

Lemma chatRounds_app (a b : list (Event JVal)) :
  chatRounds (a ++ b) = chatRounds a ++ chatRounds b.
Proof. apply omap_app. Qed.

Lemma chatRounds_sends (sends : list (Event JVal)) :
  Forall is_send sends → chatRounds sends = [].
Proof.
  induction 1 as [|e sends He _ IH]; [done|].
  by destruct e.
Qed.

Lemma runToolCall_message conversation toolCall st :
  runToolCall codec ext conversation toolCall st
  = (conversation
     ++ [toolMessage codec
           (Execute codec ext (CallName toolCall) (CallArguments toolCall) st).1],
     (Execute codec ext (CallName toolCall) (CallArguments toolCall) st).2).
Proof.
  unfold runToolCall, bind, ret, toolMessage.
  destruct (Execute codec ext _ _ st) as [r st1]. cbn [fst snd].
  by destruct (indentObject codec _).
Qed.

Lemma runToolCalls_executed toolCalls : ∀ conversation st,
  ∃ toolMessages,
    Executed codec ext toolCalls st toolMessages
             (runToolCalls codec ext toolCalls conversation st).2
    ∧ (runToolCalls codec ext toolCalls conversation st).1 = conversation ++ toolMessages.
Proof.
  induction toolCalls as [|toolCall rest IH]; intros conversation st.
  - exists []. split; [constructor|]. simpl. by rewrite app_nil_r.
  - cbn [runToolCalls]. unfold bind. rewrite runToolCall_message.
    destruct (Execute codec ext (CallName toolCall) (CallArguments toolCall) st)
      as [r st1] eqn:He. cbn [fst snd].
    destruct (IH (conversation ++ [toolMessage codec r]) st1)
      as (toolMessages & Hx & Ec).
    exists (toolMessage codec r :: toolMessages). split.
    + by apply executed_call with st1.
    + by rewrite Ec, <- app_assoc.
Qed.

(** One message per call, all with the role [tool]; what the execution
    sends outside is request lines to the sidecar, at most one per call. *)
Lemma Executed_messages toolCalls st toolMessages st' :
  Executed codec ext toolCalls st toolMessages st' →
  length toolMessages = length toolCalls
  ∧ Forall (λ m, Role m = str "tool") toolMessages
  ∧ ∃ sends, trace st' = trace st ++ sends
             ∧ Forall is_send sends ∧ (length sends ≤ length toolCalls)%nat.
Proof.
  induction 1 as [st|toolCall toolCalls st r st1 toolMessages st2 He Hx IH].
  - repeat split; [constructor|]. exists []. by rewrite app_nil_r.
  - destruct IH as (Hl & Hr & sends' & Et' & Hs' & Hn').
    split; [simpl; by rewrite Hl|]. split; [by constructor|].
    assert (∃ sends, trace st1 = trace st ++ sends ∧ Forall is_send sends
                     ∧ (length sends ≤ 1)%nat) as (sends & Et & Hs & Hn).
    { revert He. unfold Execute. destruct (ready st).
      - cbn [negb]. destruct (unmarshalArgs codec _) as [args|e].
        + destruct (CallTool_state (CallName toolCall) args st) as (x & w & _ & E).
          destruct (CallTool ext _ args st) as [r' st']. cbn [snd] in E.
          intros He. exists [EvSend (toolsCallRequest (nextID (client st)).1
                                       (CallName toolCall) args) x].
          assert (st1 = st') as -> by (destruct r'; by injection He).
          rewrite E. cbn [trace]. repeat split; [by repeat constructor|simpl; lia].
        + intros [= _ <-]. exists []. rewrite app_nil_r. repeat split; [constructor|simpl; lia].
      - cbn [negb]. intros [= _ <-]. exists []. rewrite app_nil_r.
        repeat split; [constructor|simpl; lia]. }
    exists (sends ++ sends'). rewrite Et', Et, <- app_assoc.
    repeat split; [by apply Forall_app|]. rewrite length_app. simpl. lia.
Qed.

Lemma toolRounds_step tools n conversation st :
  toolRounds codec ext tools (S n) conversation st =
  let '(r, st1) := Chat ext conversation tools st in
  match r with
  | Err err => (Err err, st1)
  | Ok response =>
    if ShouldCallTool response then
      let '(conversation', st2) :=
        runToolCalls codec ext (GetToolCalls response)
                     (conversation ++ [assistantTurn]) st1 in
      toolRounds codec ext tools n conversation' st2
    else (Ok (GetTextResponse response), st1)
  end.
Proof.
  cbn [toolRounds]. unfold bind.
  destruct (Chat ext conversation tools st) as [[response|err] st1]; [|done].
  by destruct (ShouldCallTool response).
Qed.

Lemma toolRounds_rounds tools n : ∀ conversation st,
  ∃ evs,
    trace (toolRounds codec ext tools n conversation st).2 = trace st ++ evs
    ∧ Rounds codec ext tools n conversation st (chatRounds evs)
             (toolRounds codec ext tools n conversation st).1
             (toolRounds codec ext tools n conversation st).2.
Proof.
  induction n as [|n IH]; intros conversation st.
  - exists []. simpl. rewrite app_nil_r. split; [done|]. constructor.
  - rewrite toolRounds_step.
    destruct (Chat_state conversation tools st) as [w E].
    destruct (Chat ext conversation tools st) as [r st1] eqn:Hchat.
    cbn [fst snd] in E.
    destruct r as [response|err].
    + destruct (ShouldCallTool response) eqn:Hcall.
      * destruct (runToolCalls_executed (GetToolCalls response)
                    (conversation ++ [assistantTurn]) st1)
          as (toolMessages & Hx & Ec).
        destruct (Executed_messages _ _ _ _ Hx) as (_ & _ & sends & Et & Hs & _).
        destruct (runToolCalls _ _ _ _ _) as [conversation' st2].
        cbn [fst snd] in *. subst conversation'.
        destruct (IH ((conversation ++ [assistantTurn]) ++ toolMessages) st2)
          as (evs & Et' & HR).
        exists ([EvChat conversation tools (Ok response)] ++ sends ++ evs).
        split.
        -- rewrite Et', Et, E. simpl. by rewrite <- !app_assoc.
        -- rewrite !chatRounds_app, (chatRounds_sends sends Hs). simpl.
           apply rounds_called with st1 toolMessages st2; [done..|].
           replace (conversation ++ assistantTurn :: toolMessages)
             with ((conversation ++ [assistantTurn]) ++ toolMessages)
             by (by rewrite <- app_assoc).
           exact HR.
      * exists [EvChat conversation tools (Ok response)]. rewrite E. simpl.
        split; [done|]. rewrite <- E. by constructor.
    + exists [EvChat conversation tools (Err err)]. rewrite E. simpl.
      split; [done|]. rewrite <- E. by constructor.
Qed.

Lemma Rounds_length tools n conversation st rounds (res : result gostring) st' :
  Rounds codec ext tools n conversation st rounds res st' → (length rounds ≤ n)%nat.
Proof. induction 1; simpl; lia. Qed.

Lemma Rounds_stop tools n conversation st rounds (res : result gostring) st' :
  Rounds codec ext tools n conversation st rounds res st' →
  ∀ before c r after, rounds = before ++ (c, Ok r) :: after →
    ShouldCallTool r = false → after = [] ∧ res = Ok (GetTextResponse r).
Proof.
  induction 1 as [c st|n c st err st1 Hc|n c st r st1 Hc Hr
                  |n c st r st1 toolMessages st2 rounds res st3 Hc Hr Hx HR IH];
    intros before c' r' after E Hstop.
  - by destruct before.
  - destruct before as [|? [|? ?]]; simplify_eq/=.
  - destruct before as [|? [|? ?]]; by simplify_eq/=.
  - destruct before as [|x before]; simplify_eq/=.
    + congruence.
    + by apply (IH before c' r' after).
Qed.

Lemma Rounds_all_called tools n conversation st rounds (res : result gostring) st' :
  Rounds codec ext tools n conversation st rounds res st' →
  Forall requestsTools rounds → length rounds = n ∧ res = Ok fallbackReply.
Proof.
  induction 1 as [c st|n c st err st1 Hc|n c st r st1 Hc Hr
                  |n c st r st1 toolMessages st2 rounds res st3 Hc Hr Hx HR IH];
    intros Hall.
  - done.
  - apply Forall_cons in Hall as [(r & E & _) _]. simpl in E. discriminate E.
  - apply Forall_cons in Hall as [(r' & E & Hc') _]. simpl in E.
    injection E as <-. congruence.
  - apply Forall_cons in Hall as [_ Hall]. destruct (IH Hall) as [<- ->]. done.
Qed.

(** Between two rounds: the earlier one has requested tool calls, they
    have been executed, and the later one sees the conversation of the
    earlier one with the assistant message and the tool-result messages. *)
Lemma Rounds_between tools n conversation st rounds (res : result gostring) st' :
  Rounds codec ext tools n conversation st rounds res st' →
  ∀ before c r c' answer after,
    rounds = before ++ (c, Ok r) :: (c', answer) :: after →
    ShouldCallTool r = true
    ∧ ∃ st1 toolMessages st2,
        Executed codec ext (GetToolCalls r) st1 toolMessages st2
        ∧ c' = c ++ assistantTurn :: toolMessages.
Proof.
  induction 1 as [c st|n c st err st1 Hc|n c st r st1 Hc Hr
                  |n c st r st1 toolMessages st2 rounds res st3 Hc Hr Hx HR IH];
    intros before c0 r0 c' answer after E.
  - by destruct before.
  - destruct before as [|? [|? ?]]; simplify_eq/=.
  - destruct before as [|? [|? ?]]; simplify_eq/=.
  - destruct before as [|x before]; simplify_eq/=.
    + split; [done|]. exists st1, toolMessages, st2. split; [done|].
      inversion HR; by simplify_eq/=.
    + by apply (IH before c0 r0 c' answer after).
Qed.

(** C9.  The iterative loop calls the model at most 5 times.  It stops at
    the first round that requests no tool call and returns the text of that
    round.  A round that requests tool calls has each of them executed,
    in their order, and between two rounds the conversation grows by the
    assistant message and by one tool-result message for each executed
    call: the result text of the call, or the failure text with its
    error.  When all the rounds request tool calls there are exactly 5 of
    them and the loop returns the fixed apology. *)
Theorem tool_loop_bounded messages tools st :
  ∃ evs,
    trace (chatWithToolCalling codec ext messages tools st).2 = trace st ++ evs
    ∧ Rounds codec ext tools 5 messages st (chatRounds evs)
             (chatWithToolCalling codec ext messages tools st).1
             (chatWithToolCalling codec ext messages tools st).2
    ∧ (length (chatRounds evs) ≤ 5)%nat
    ∧ (∀ before conversation r after,
         chatRounds evs = before ++ (conversation, Ok r) :: after →
         ShouldCallTool r = false →
         after = []
         ∧ (chatWithToolCalling codec ext messages tools st).1 = Ok (GetTextResponse r))
    ∧ (∀ before conversation r conversation' answer after,
         chatRounds evs
         = before ++ (conversation, Ok r) :: (conversation', answer) :: after →
         ShouldCallTool r = true
         ∧ ∃ st1 toolMessages st2,
             Executed codec ext (GetToolCalls r) st1 toolMessages st2
             ∧ conversation' = conversation ++ assistantTurn :: toolMessages)
    ∧ (∀ toolCalls st1 toolMessages st2,
         Executed codec ext toolCalls st1 toolMessages st2 →
         length toolMessages = length toolCalls
         ∧ Forall (λ m, Role m = str "tool") toolMessages
         ∧ ∃ sends, trace st2 = trace st1 ++ sends
                    ∧ Forall is_send sends ∧ (length sends ≤ length toolCalls)%nat)
    ∧ (Forall requestsTools (chatRounds evs) →
         length (chatRounds evs) = 5%nat
         ∧ (chatWithToolCalling codec ext messages tools st).1 = Ok fallbackReply).
Proof.
  unfold chatWithToolCalling, maxIterations.
  destruct (toolRounds_rounds tools 5 messages st) as (evs & Et & HR).
  exists evs. split; [done|]. split; [done|]. split; [|split; [|split; [|split]]].
  - by apply (Rounds_length _ _ _ _ _ _ _ HR).
  - by apply (Rounds_stop _ _ _ _ _ _ _ HR).
  - by apply (Rounds_between _ _ _ _ _ _ _ HR).
  - apply Executed_messages.
  - by apply (Rounds_all_called _ _ _ _ _ _ _ HR).
Qed.

End Orchestration.

End ServiceSpec.

(** * Concurrent tool calls on the one connection *)

Module ConcurrentSpec.
Import Concurrent.

Lemma paired_wrote p g id : paired p → paired (p ++ [Wrote g id]).
Proof.
  intros Hp i g' Hi.
  destruct (decide (i < length p)%nat) as [Hlt|Hge].
  - rewrite lookup_app_l in Hi by done.
    destruct (Hp i g' Hi) as (j & id' & -> & Hj).
    exists j, id'. split; [done|]. rewrite lookup_app_l; [done|lia].
  - rewrite lookup_app_r in Hi by lia.
    destruct (i - length p)%nat as [|k]; simpl in Hi; [done|].
    by destruct k.
Qed.

Lemma paired_read p g id :
  paired p → last p = Some (Wrote g id) → paired (p ++ [ReadLine g]).
Proof.
  intros Hp Hl i g' Hi.
  destruct (decide (i < length p)%nat) as [Hlt|Hge].
  - rewrite lookup_app_l in Hi by done.
    destruct (Hp i g' Hi) as (j & id' & -> & Hj).
    exists j, id'. split; [done|]. rewrite lookup_app_l; [done|lia].
  - rewrite lookup_app_r in Hi by lia.
    destruct (i - length p)%nat as [|k] eqn:Ek; simpl in Hi; [|by destruct k].
    injection Hi as <-.
    rewrite last_lookup in Hl. pose proof (lookup_lt_Some _ _ _ Hl) as Hlt.
    exists (pred (length p)), id. split; [lia|].
    by rewrite lookup_app_l.
Qed.

Lemma exclusive_start id0 n : exclusive (start id0 n).
Proof.
  repeat split.
  - intros i g Hi. done.
  - intros g t Hg [H|[H|H]]; apply lookup_replicate in Hg as [-> _]; done.
  - intros g t Hg H. apply lookup_replicate in Hg as [-> _]. done.
Qed.

(** A step of any goroutine keeps the exchange exclusive. *)
Lemma exclusive_step g io_ok c : exclusive c → exclusive (step g io_ok c).
Proof.
  intros (Hp & Hmu & Hrd). unfold step.
  destruct (goroutines c !! g) as [t|] eqn:Hg; [|done].
  assert (g < length (goroutines c))%nat as Hlen by (by eapply lookup_lt_Some).
  assert (∀ g' t' p', 
            <[g := p']> (goroutines c) !! g' = Some t' →
            (g' = g ∧ t' = p') ∨ (g' ≠ g ∧ goroutines c !! g' = Some t')) as Hcase.
  { intros g' t' p' H. destruct (decide (g' = g)) as [->|N].
    - rewrite list_lookup_insert_eq in H by done. left. by injection H.
    - rewrite list_lookup_insert_ne in H by done. by right. }
  destruct (at_pc t) eqn:Hpc; unfold move, exclusive; simpl.
  - (* AtLoad *)
    split; [done|]. split.
    + intros g' t' H Hin. apply Hcase in H as [[-> ->]|[N H]].
      * destruct Hin as [?|[?|?]]; done.
      * by apply (Hmu g' t').
    + intros g' t' H Hin. apply Hcase in H as [[-> ->]|[N H]]; [done|].
      by apply (Hrd g' t').
  - (* AtStore *)
    split; [done|]. split.
    + intros g' t' H Hin. apply Hcase in H as [[-> ->]|[N H]].
      * destruct Hin as [?|[?|?]]; done.
      * by apply (Hmu g' t').
    + intros g' t' H Hin. apply Hcase in H as [[-> ->]|[N H]]; [done|].
      by apply (Hrd g' t').
  - (* AtReturn *)
    split; [done|]. split.
    + intros g' t' H Hin. apply Hcase in H as [[-> ->]|[N H]].
      * destruct Hin as [?|[?|?]]; done.
      * by apply (Hmu g' t').
    + intros g' t' H Hin. apply Hcase in H as [[-> ->]|[N H]]; [done|].
      by apply (Hrd g' t').
  - (* AtLock *)
    destruct (mu c) as [holder|] eqn:Hm; [by rewrite <- Hm in Hmu|].
    simpl. split; [done|]. split.
    + intros g' t' H Hin. apply Hcase in H as [[-> ->]|[N H]]; [done|].
      by specialize (Hmu g' t' H Hin).
    + intros g' t' H Hin. apply Hcase in H as [[-> ->]|[N H]]; [done|].
      by apply (Hrd g' t').
  - (* AtWrite *)
    assert (mu c = Some g) as Hm by (apply (Hmu g t Hg); left; done).
    destruct io_ok; simpl.
    + split; [by apply paired_wrote|]. split.
      * intros g' t' H Hin. apply Hcase in H as [[-> ->]|[N H]]; [done|].
        by apply (Hmu g' t').
      * intros g' t' H Hin. apply Hcase in H as [[-> ->]|[N H]].
        -- exists (reqID t). by rewrite last_snoc.
        -- assert (mu c = Some g') by (apply (Hmu g' t' H); right; left; done).
           congruence.
    + split; [done|]. split.
      * intros g' t' H Hin. apply Hcase in H as [[-> ->]|[N H]]; [done|].
        by apply (Hmu g' t').
      * intros g' t' H Hin. apply Hcase in H as [[-> ->]|[N H]]; [done|].
        by apply (Hrd g' t').
  - (* AtRead *)
    assert (mu c = Some g) as Hm by (apply (Hmu g t Hg); right; left; done).
    destruct (Hrd g t Hg Hpc) as [id Hl].
    destruct io_ok; simpl.
    + split; [by apply (paired_read _ g id)|]. split.
      * intros g' t' H Hin. apply Hcase in H as [[-> ->]|[N H]]; [done|].
        by apply (Hmu g' t').
      * intros g' t' H Hin. apply Hcase in H as [[-> ->]|[N H]]; [done|].
        assert (mu c = Some g') by (apply (Hmu g' t' H); right; left; done).
        congruence.
    + split; [done|]. split.
      * intros g' t' H Hin. apply Hcase in H as [[-> ->]|[N H]]; [done|].
        by apply (Hmu g' t').
      * intros g' t' H Hin. apply Hcase in H as [[-> ->]|[N H]]; [done|].
        by apply (Hrd g' t').
  - (* AtUnlock *)
    assert (mu c = Some g) as Hm by (apply (Hmu g t Hg); right; right; done).
    split; [done|]. split.
    + intros g' t' H Hin. apply Hcase in H as [[-> ->]|[N H]].
      * destruct Hin as [?|[?|?]]; done.
      * assert (mu c = Some g') by (by apply (Hmu g' t' H)). congruence.
    + intros g' t' H Hin. apply Hcase in H as [[-> ->]|[N H]]; [done|].
      by apply (Hrd g' t').
  - (* AtDone *)
    done.
Qed.

(** Whatever the schedule and the failures, the write/read pairs of
    concurrent calls never interleave: the lock of [sendRequest] does what
    the specification asks. *)
Lemma exchanges_never_interleave schedule id0 n :
  paired (pipe (run schedule (start id0 n))).
Proof.
  assert (∀ c, exclusive c → exclusive (run schedule c)) as H.
  { induction schedule as [|[g ok] schedule IH]; intros c Hc; [done|].
    simpl. apply IH. by apply exclusive_step. }
  by destruct (H (start id0 n) (exclusive_start id0 n)).
Qed.

Lemma wrap_int_id (n : Z) :
  (Strconv.MinInt ≤ n ≤ Strconv.MaxInt)%Z → MCP.wrap_int n = n.
Proof.
  unfold Strconv.MinInt, Strconv.MaxInt, MCP.wrap_int.
  change (2 ^ 63)%Z with 9223372036854775808%Z.
  change (2 ^ 64)%Z with 18446744073709551616%Z.
  intros H. rewrite Z.mod_small; lia.
Qed.

(** One caller at a time: [nextID] hands out the successor of the
    counter, as long as the 64-bit counter does not wrap. *)
Lemma nextID_successor (c : MCP.MCPClient) :
  (Strconv.MinInt ≤ MCP.msgID c < Strconv.MaxInt)%Z →
  (MCP.nextID c).1 = (MCP.msgID c + 1)%Z
  ∧ MCP.msgID (MCP.nextID c).2 = (MCP.msgID c + 1)%Z.
Proof.
  intros H. unfold MCP.nextID. cbn [fst snd MCP.msgID].
  rewrite wrap_int_id; [done|]. unfold Strconv.MinInt, Strconv.MaxInt in *.
  change (2 ^ 63)%Z with 9223372036854775808%Z in *. lia.
Qed.

(** X8.  On a running service, one call after the other: the second
    request carries the id of the first plus one, as long as the counter
    stays in the range of an [int]. *)
Lemma consecutive_calls_ids {JVal W : Type} (ext : Service.External JVal W)
    name1 args1 name2 args2 (st : Service.State JVal W) :
  (Strconv.MinInt ≤ MCP.msgID (Service.client st))%Z →
  (MCP.msgID (Service.client st) + 2 ≤ Strconv.MaxInt)%Z →
  ∃ x1 x2,
    Service.trace
      (Service.CallTool ext name2 args2 (Service.CallTool ext name1 args1 st).2).2
    = Service.trace st
      ++ [Service.EvSend
            (Service.toolsCallRequest (MCP.msgID (Service.client st) + 1) name1 args1) x1;
          Service.EvSend
            (Service.toolsCallRequest (MCP.msgID (Service.client st) + 2) name2 args2) x2].
Proof.
  intros Hlo Hhi. unfold Strconv.MinInt, Strconv.MaxInt in Hlo, Hhi.
  change (2 ^ 63)%Z with 9223372036854775808%Z in *.
  destruct (ServiceSpec.CallTool_state ext name1 args1 st) as (x1 & w1 & _ & E1).
  destruct (ServiceSpec.CallTool_state ext name2 args2
              (Service.CallTool ext name1 args1 st).2) as (x2 & w2 & _ & E2).
  rewrite E1 in E2. cbn [Service.client Service.trace Service.world] in E2.
  destruct (nextID_successor (Service.client st)) as [Ea Eb].
  { unfold Strconv.MinInt, Strconv.MaxInt.
    change (2 ^ 63)%Z with 9223372036854775808%Z. lia. }
  destruct (nextID_successor (MCP.nextID (Service.client st)).2) as [Ec _].
  { rewrite Eb. unfold Strconv.MinInt, Strconv.MaxInt.
    change (2 ^ 63)%Z with 9223372036854775808%Z. lia. }
  rewrite Eb in Ec.
  exists x1, x2. rewrite E1, E2. cbn [Service.trace].
  rewrite Ea, Ec, <- app_assoc. do 3 f_equal. f_equal. f_equal. lia.
Qed.

(** After a successful start-up the handshake has taken id 1 and the tool
    listing id 2: the first tool call gets id 3. *)
Lemma InitMCPClient_ready {JVal W : Type} (ext : Service.External JVal W)
    (st st' : Service.State JVal W) :
  Service.InitMCPClient ext st = (None, st') →
  Service.ready st' = true ∧ MCP.msgID (Service.client st') = 2%Z.
Proof.
  unfold Service.InitMCPClient, Service.NewMCPClient, Service.Close, Service.onClient,
    Service.initialize, Service.ListTools,
    Service.bind, Service.allocID, Service.sendRequest, Service.ret, Service.emit.
  destruct (Service.startSidecar ext _ _) as [s w0].
  destruct s as [e|e|e|e|]; try done.
  cbn [Service.world Service.client Service.ready Service.trace MCP.nextID MCP.msgID fst snd].
  destruct (Service.sidecar ext _ _) as [x w].
  destruct x as [e|e|e|resp]; try done.
  destruct (MCP.Error resp); [done|].
  cbn [Service.world Service.client Service.ready Service.trace MCP.nextID MCP.msgID fst snd].
  destruct (Service.sidecar ext _ _) as [x' w'].
  intros H.
  destruct x' as [e|e|e|resp']; try (by injection H as <-).
  destruct (MCP.Error resp'); [by injection H as <-|].
  destruct (MCP.Result resp'); by injection H as <-.
Qed.

(** Two calls one after the other send increasing ids. *)
Lemma sequential_calls_increase (id0 : Z) :
  (Strconv.MinInt ≤ id0)%Z → (id0 + 2 ≤ Strconv.MaxInt)%Z →
  sent_ids (pipe (run (whole_call 0 ++ whole_call 1) (start id0 2)))
  = [(id0 + 1)%Z; (id0 + 2)%Z].
Proof.
  intros Hlo Hhi.
  change (sent_ids (pipe (run (whole_call 0 ++ whole_call 1) (start id0 2))))
    with [MCP.wrap_int (id0 + 1); MCP.wrap_int (MCP.wrap_int (id0 + 1) + 1)].
  unfold Strconv.MinInt, Strconv.MaxInt in Hlo, Hhi.
  change (2 ^ 63)%Z with 9223372036854775808%Z in *.
  assert (MCP.wrap_int (id0 + 1) = id0 + 1)%Z as ->.
  { apply wrap_int_id. unfold Strconv.MinInt, Strconv.MaxInt.
    change (2 ^ 63)%Z with 9223372036854775808%Z. lia. }
  assert (MCP.wrap_int (id0 + 1 + 1) = id0 + 2)%Z as ->; [|done].
  rewrite wrap_int_id; [lia|]. unfold Strconv.MinInt, Strconv.MaxInt.
  change (2 ^ 63)%Z with 9223372036854775808%Z. lia.
Qed.

(** C3, at the failing schedule.  Two goroutines call the gateway on the
    shared client, the counter at 2 after the handshake and the tool
    listing.  Both run the increment of [nextID] before either reads the
    counter back: both calls complete, their write/read pairs do not
    interleave, and both requests carry the id 4, so the id of the second
    call is not greater than the id of the first. *)
Theorem concurrent_calls_share_id :
  Forall (λ t, at_pc t = AtDone) (goroutines (run racing (start 2 2)))
  ∧ pipe (run racing (start 2 2)) = [Wrote 0 4; ReadLine 0; Wrote 1 4; ReadLine 1]
  ∧ sent_ids (pipe (run racing (start 2 2))) = [4%Z; 4%Z]
  ∧ paired (pipe (run racing (start 2 2))).
Proof.
  split; [by repeat constructor|]. split; [reflexivity|]. split; [reflexivity|].
  apply exchanges_never_interleave.
Qed.

End ConcurrentSpec.

(** * The service on concrete inputs *)

Module Scenarios.
Import Strings Regexp JSON XMLParser LLM RAG MCP Service Directive Assembly ToolLoop.
Import Fixture ExtractorSpec ServiceSpec.

(** ** The extractor *)

Example quantity_is_integer :
  recorded (fields createOrder) (str "quantity") = Some (VInt 2).
Proof. reflexivity. Qed.

Example phone_stays_text :
  recorded (fields createOrder) (str "customerPhone") = Some (VString (str "13800138000"))
  ∧ Strconv.Atoi (str "13800138000") = Some 13800138000%Z.
Proof. split; reflexivity. Qed.

Example order_arguments :
  Arguments (parseToolCallFromXML plainQuote orderResponse).1
  = str "{" ++ plainQuote (str "customerName") ++ str ":" ++ plainQuote (str "张三")
    ++ str "," ++ plainQuote (str "customerPhone") ++ str ":"
    ++ plainQuote (str "13800138000")
    ++ str "," ++ plainQuote (str "productName") ++ str ":"
    ++ plainQuote (str "山地自行车")
    ++ str "," ++ plainQuote (str "quantity") ++ str ":2"
    ++ str "," ++ plainQuote (str "shippingAddress") ++ str ":"
    ++ plainQuote (str "北京市朝阳区建国路1号") ++ str "}".
Proof. vm_compute. reflexivity. Qed.

Example last_pair_wins :
  parseArguments (str "<n>1</n><n> 7 </n>") = {[ str "n" := VInt 7 ]}.
Proof. vm_compute. reflexivity. Qed.

Example mismatched_pair_skipped :
  FindAllStringSubmatch tagRegex (str "<a>1</b>2</a><c>x</c>")
  = [[str "<a>1</b>"; str "a"; str "1"; str "b"]; [str "<c>x</c>"; str "c"; str "x"; str "c"]]
  ∧ parseArguments (str "<a>1</b>2</a><c>x</c>") = {[ str "c" := VString (str "x") ]}.
Proof. split; vm_compute; reflexivity. Qed.

Example name_on_two_lines_not_found :
  parseToolCallFromXML plainQuote
    (str "<func_call><tool_name>a
b</tool_name><arguments></arguments></func_call>")
  = (noToolCall, false).
Proof. vm_compute. reflexivity. Qed.

Example integer_out_of_range_stays_text :
  Strconv.Atoi (str "9223372036854775807") = Some 9223372036854775807%Z
  ∧ Strconv.Atoi (str "9223372036854775808") = None
  ∧ typedValue (str "quantity") (str "9223372036854775808")
    = VString (str "9223372036854775808").
Proof. repeat split; reflexivity. Qed.

(** The witness of C1: scenario B of the specification. *)
Lemma well_formed_directive_extracted_witness :
  wf_block createOrder = true
  ∧ Contains orderNarrative (str "<func_call>") = false
  ∧ ∃ args : gmap gostring ArgValue,
      parseToolCallFromXML plainQuote (orderNarrative ++ render createOrder ++ [])
      = ({| ToolName := str "create_order"; Arguments := Marshal plainQuote args |}, true)
      ∧ ∀ k, args !! k = recorded (fields createOrder) k.
Proof.
  split; [vm_compute; reflexivity|]. split; [vm_compute; reflexivity|].
  apply (well_formed_directive_extracted plainQuote orderNarrative [] createOrder);
    vm_compute; reflexivity.
Defined.

(** A witness of C2: a block without name field. *)
Lemma malformed_directive_degrades_witness :
  parseToolCallFromXML plainQuote
    (str "ok " ++ str "<func_call>" ++ str "<arguments></arguments>"
     ++ str "</func_call>" ++ [])
  = (noToolCall, false).
Proof.
  apply (proj1 (proj2 (malformed_directive_degrades plainQuote))).
  - vm_compute; reflexivity.
  - vm_compute; reflexivity.
  - left. vm_compute; reflexivity.
Defined.

(** ** The orchestrator *)

(** The counterexample to C4 as stated: the reply keeps the white space
    around the response text. *)
Lemma untrimmed_reply :
  Contains (str " ok ") (str "<func_call>") = false
  ∧ replyText <$> (HandleChat rawCodec scripted (Some (ask (str "hi") []))
                     (boot (plainWorld (str " ok ")))).1 = Some (str " ok ")
  ∧ TrimSpace (str " ok ") = str "ok"
  ∧ str " ok " ≠ TrimSpace (str " ok ").
Proof. repeat split; try (vm_compute; reflexivity). vm_compute. discriminate. Qed.

Lemma plain_reply_is_response_text_witness :
  Contains (str " ok ") (str "<func_call>") = false
  ∧ (HandleChat rawCodec scripted (Some (ask (str "hi") []))
       (boot (plainWorld (str " ok ")))).1
    = Some (replied (str " ok ") (str "s1")).
Proof.
  split; [vm_compute; reflexivity|].
  edestruct (plain_reply_is_response_text rawCodec scripted (ask (str "hi") [])
               (boot (plainWorld (str " ok ")))) as [_ E].
  - discriminate.
  - vm_compute. reflexivity.
  - vm_compute. reflexivity.
  - vm_compute. reflexivity.
  - rewrite E. reflexivity.
Defined.

(** The witness of C5: a request with one retrieved snippet and a history
    that echoes the current message. *)
Lemma model_receives_assembled_messages_witness :
  ReqMessage (ask (str "下单") echoedHistory) ≠ []
  ∧ assembleMessages (ask (str "下单") echoedHistory) [faq]
    = [ systemPrompt;
        {| Role := str "system";
           Content := str "以下是相关的知识库信息:

1. 支持七天无理由退货
   分类: 售后
" |};
        {| Role := str "user"; Content := str "你好" |};
        {| Role := str "assistant"; Content := str "下单" |};
        {| Role := str "user"; Content := str "下单" |} ].
Proof.
  split; [discriminate|].
  pose proof (model_receives_assembled_messages rawCodec scripted
                (ask (str "下单") echoedHistory)
                (boot (orderWorld (textResult (str "订单创建成功"))))) as H.
  change (SearchKnowledge scripted (ReqMessage (ask (str "下单") echoedHistory)) 3
            (boot (orderWorld (textResult (str "订单创建成功"))))).1
    with (Some ([faq], @None gostring)) in H.
  destruct H as [E _]; [discriminate|].
  exact E.
Defined.

(** A witness of C6: the echo of the current message is dropped, the
    assistant message with the same content is kept. *)
Lemma current_message_once_witness :
  length (filter (λ m, m = currentMessage (ask (str "下单") echoedHistory))
                 (assembleMessages (ask (str "下单") echoedHistory) [faq])) = 1%nat
  ∧ {| Role := str "assistant"; Content := str "下单" |}
    ∈ assembleMessages (ask (str "下单") echoedHistory) [faq].
Proof.
  destruct (current_message_once (ask (str "下单") echoedHistory) [faq])
    as (_ & Hc & Hk).
  split; [exact Hc|].
  apply (Hk {| HRole := str "assistant"; HContent := str "下单" |}).
  - right. left.
  - reflexivity.
  - discriminate.
Defined.

(** The witness of C7: scenario B, the tool call succeeds. *)
Lemma directive_reply_spliced_witness :
  (HandleChat rawCodec scripted (Some (ask (str "下单") echoedHistory))
     (boot (orderWorld (textResult (str "订单创建成功"))))).1
  = Some (replied (str "好的，马上为您下单。

订单创建成功") (str "s1")).
Proof.
  erewrite (directive_reply_spliced rawCodec scripted (ask (str "下单") echoedHistory)
              (boot (orderWorld (textResult (str "订单创建成功"))))
              _ _ _ _ _ [(orderNarrative, content createOrder)] []).
  - vm_compute. reflexivity.
  - discriminate.
  - vm_compute. reflexivity.
  - vm_compute. reflexivity.
  - vm_compute. reflexivity.
  - constructor; [split; vm_compute; reflexivity|constructor].
  - vm_compute. reflexivity.
  - vm_compute. reflexivity.
  - vm_compute. reflexivity.
Defined.

(** A witness of C8: scenario C, the sidecar answers with an error object. *)
Lemma gateway_failure_reported_witness :
  (HandleChat rawCodec scripted (Some (ask (str "下单") echoedHistory))
     (boot (orderWorld (errorResult (str "库存不足"))))).1
  = Some (replied (str "抱歉，订单处理失败: 工具调用失败: 工具调用失败: 库存不足")
                  (str "s1")).
Proof.
  erewrite (proj2 (proj2 (gateway_failure_reported rawCodec scripted))
              (ask (str "下单") echoedHistory)
              (boot (orderWorld (errorResult (str "库存不足"))))).
  - vm_compute. reflexivity.
  - discriminate.
  - vm_compute. reflexivity.
  - vm_compute. reflexivity.
  - vm_compute. reflexivity.
  - vm_compute. reflexivity.
Defined.


(** ** The loop *)

(** The model asks for a tool in every round: five rounds, then the apology. *)
Example loop_gives_up_after_five :
  (chatWithToolCalling rawCodec scripted [currentMessage (ask (str "hi") [])] []
     (boot insistent)).1 = Ok fallbackReply
  ∧ length (chatRounds (trace (chatWithToolCalling rawCodec scripted
                                 [currentMessage (ask (str "hi") [])] []
                                 (boot insistent)).2)) = 5%nat.
Proof. split; vm_compute; reflexivity. Qed.

(** A round with one tool call: the call is executed, and the next round
    sees the assistant message and the tool-result message. *)
Example loop_appends_tool_result :
  chatWithToolCalling rawCodec scripted [currentMessage (ask (str "订单状态") [])] []
    (boot statusWorld)
  = (Ok (str "您的订单已发货"),
     {| world := {| docs := []; answers := []; exchanges := [] |};
        client := {| MCP.msgID := 3 |};
        ready := true;
        trace :=
          [EvChat [currentMessage (ask (str "订单状态") [])] [] (Ok asksStatus);
           EvSend (toolsCallRequest 3 (str "query_order") ∅) (textResult (str "已发货"));
           EvChat [currentMessage (ask (str "订单状态") []);
                   assistantTurn;
                   {| Role := str "tool"; Content := str "已发货" |}] []
                  (says (str "您的订单已发货"))] |}).
Proof. vm_compute. reflexivity. Qed.

(** A vector store that answers with fewer ids than documents: the
    handler panics after the retrieval, and the model is not called. *)
Example retrieval_panic_ends_turn :
  HandleChat rawCodec shortOfIds (Some (ask (str "退货") []))
    (boot (plainWorld (str "ok")))
  = (None,
     {| world := plainWorld (str "ok"); client := {| MCP.msgID := 2 |}; ready := true;
        trace := [EvSearch (str "退货") 3] |}).
Proof. vm_compute. reflexivity. Qed.

(** The start-up over a sidecar that answers: the state in which the
    scenarios run. *)
Example startup_boots :
  InitMCPClient scripted (cold startingWorld)
  = (None,
     {| world := {| docs := []; answers := []; exchanges := [] |};
        client := {| MCP.msgID := 2 |};
        ready := true;
        trace :=
          [EvStart (str "/root/mcp-server/server.py") Started;
           EvSend {| Jsonrpc := str "2.0"; ID := 1; Method := str "initialize";
                     ReqParams := ParamsInitialize |}
                  (Envelope {| RespID := 1; Result := RawObject [] []; Error := None |});
           EvSend {| Jsonrpc := str "2.0"; ID := 2; Method := str "tools/list";
                     ReqParams := ParamsNone |}
                  (Envelope {| RespID := 2;
                               Result := RawObject [] [str "query_order";
                                                       str "cancel_order"];
                               Error := None |})] |}).
Proof. vm_compute. reflexivity. Qed.

End Scenarios.

(** * More facts on [strings.TrimSpace] *)

Module TrimFacts.
Import Strings.

Lemma TrimLeftSpace_suffix s : ∃ p, s = p ++ TrimLeftSpace s.
Proof.
  remember (length s) as n eqn:Hn. revert s Hn.
  induction n as [n IH] using lt_wf_ind. intros s ->.
  destruct s as [|c1 s1]; [by exists []|]. simpl.
  destruct (asciiSpace c1).
  { destruct (IH (length s1) ltac:(simpl; lia) s1 eq_refl) as [p Hp].
    exists (c1 :: p). simpl. by rewrite <- Hp. }
  destruct s1 as [|c2 s2]; [by exists []|].
  destruct (space2 c1 c2).
  { destruct (IH (length s2) ltac:(simpl; lia) s2 eq_refl) as [p Hp].
    exists (c1 :: c2 :: p). simpl. by rewrite <- Hp. }
  destruct s2 as [|c3 s3]; [by exists []|].
  destruct (space3 c1 c2 c3); [|by exists []].
  destruct (IH (length s3) ltac:(simpl; lia) s3 eq_refl) as [p Hp].
  exists (c1 :: c2 :: c3 :: p). simpl. by rewrite <- Hp.
Qed.

Lemma TrimLeftSpaceRev_suffix s : ∃ p, s = p ++ TrimLeftSpaceRev s.
Proof.
  remember (length s) as n eqn:Hn. revert s Hn.
  induction n as [n IH] using lt_wf_ind. intros s ->.
  destruct s as [|c1 s1]; [by exists []|]. simpl.
  destruct (asciiSpace c1).
  { destruct (IH (length s1) ltac:(simpl; lia) s1 eq_refl) as [p Hp].
    exists (c1 :: p). simpl. by rewrite <- Hp. }
  destruct s1 as [|c2 s2]; [by exists []|].
  destruct (space2 c2 c1).
  { destruct (IH (length s2) ltac:(simpl; lia) s2 eq_refl) as [p Hp].
    exists (c1 :: c2 :: p). simpl. by rewrite <- Hp. }
  destruct s2 as [|c3 s3]; [by exists []|].
  destruct (space3 c3 c2 c1); [|by exists []].
  destruct (IH (length s3) ltac:(simpl; lia) s3 eq_refl) as [p Hp].
  exists (c1 :: c2 :: c3 :: p). simpl. by rewrite <- Hp.
Qed.


Lemma TrimLeftSpace_length s : (length (TrimLeftSpace s) ≤ length s)%nat.
Proof.
  destruct (TrimLeftSpace_suffix s) as [p Hp].
  rewrite Hp at 2. rewrite length_app. lia.
Qed.

Lemma TrimLeftSpaceRev_length s : (length (TrimLeftSpaceRev s) ≤ length s)%nat.
Proof.
  destruct (TrimLeftSpaceRev_suffix s) as [p Hp].
  rewrite Hp at 2. rewrite length_app. lia.
Qed.

(** A text that trimming leaves alone stays so when it is cut short. *)
Lemma TrimLeftSpace_prefix_fixed t x :
  TrimLeftSpace (t ++ x) = t ++ x → TrimLeftSpace t = t.
Proof.
  intros H.
  destruct t as [|c1 s1]; [done|]. simpl in *.
  destruct (asciiSpace c1).
  { pose proof (TrimLeftSpace_length (s1 ++ x)) as L. rewrite H in L. simpl in L. lia. }
  destruct s1 as [|c2 s2]; [done|]. simpl in *.
  destruct (space2 c1 c2).
  { pose proof (TrimLeftSpace_length (s2 ++ x)) as L. rewrite H in L. simpl in L. lia. }
  destruct s2 as [|c3 s3]; [done|]. simpl in *.
  destruct (space3 c1 c2 c3); [|done].
  pose proof (TrimLeftSpace_length (s3 ++ x)) as L. rewrite H in L. simpl in L. lia.
Qed.

Lemma TrimLeftSpace_idemp s : TrimLeftSpace (TrimLeftSpace s) = TrimLeftSpace s.
Proof.
  remember (length s) as n eqn:Hn. revert s Hn.
  induction n as [n IH] using lt_wf_ind. intros s ->.
  destruct s as [|c1 s1]; [done|]. simpl.
  destruct (asciiSpace c1) eqn:H1.
  { apply (IH (length s1)); simpl; [lia|done]. }
  destruct s1 as [|c2 s2]; [by simpl; rewrite H1|].
  destruct (space2 c1 c2) eqn:H2.
  { apply (IH (length s2)); simpl; [lia|done]. }
  destruct s2 as [|c3 s3]; [by simpl; rewrite H1, H2|].
  destruct (space3 c1 c2 c3) eqn:H3.
  { apply (IH (length s3)); simpl; [lia|done]. }
  simpl. by rewrite H1, H2, H3.
Qed.

Lemma TrimLeftSpaceRev_idemp s :
  TrimLeftSpaceRev (TrimLeftSpaceRev s) = TrimLeftSpaceRev s.
Proof.
  remember (length s) as n eqn:Hn. revert s Hn.
  induction n as [n IH] using lt_wf_ind. intros s ->.
  destruct s as [|c1 s1]; [done|]. simpl.
  destruct (asciiSpace c1) eqn:H1.
  { apply (IH (length s1)); simpl; [lia|done]. }
  destruct s1 as [|c2 s2]; [by simpl; rewrite H1|].
  destruct (space2 c2 c1) eqn:H2.
  { apply (IH (length s2)); simpl; [lia|done]. }
  destruct s2 as [|c3 s3]; [by simpl; rewrite H1, H2|].
  destruct (space3 c3 c2 c1) eqn:H3.
  { apply (IH (length s3)); simpl; [lia|done]. }
  simpl. by rewrite H1, H2, H3.
Qed.

(** The trimmed text is a segment of the original. *)
Lemma TrimSpace_segment s : ∃ p q, s = p ++ TrimSpace s ++ q.
Proof.
  unfold TrimSpace, TrimRightSpace.
  destruct (TrimLeftSpace_suffix s) as [p Hp].
  destruct (TrimLeftSpaceRev_suffix (reverse (TrimLeftSpace s))) as [q Hq].
  exists p, (reverse q).
  rewrite <- reverse_app, <- Hq, reverse_involutive. done.
Qed.

Lemma TrimSpace_forallb (P : ascii → bool) s :
  forallb P s = true → forallb P (TrimSpace s) = true.
Proof.
  destruct (TrimSpace_segment s) as (p & q & E). rewrite E at 1.
  rewrite !forallb_app. intros H.
  apply andb_true_iff in H as [_ H]. by apply andb_true_iff in H as [H _].
Qed.

(** Trimming twice is trimming once. *)
Lemma TrimSpace_idemp s : TrimSpace (TrimSpace s) = TrimSpace s.
Proof.
  unfold TrimSpace, TrimRightSpace.
  set (t := TrimLeftSpace s).
  set (u := TrimLeftSpaceRev (reverse t)).
  assert (Ht : TrimLeftSpace (reverse u) = reverse u).
  { destruct (TrimLeftSpaceRev_suffix (reverse t)) as [p Hp]. fold u in Hp.
    apply (TrimLeftSpace_prefix_fixed _ (reverse p)).
    rewrite <- reverse_app, <- Hp, reverse_involutive.
    apply TrimLeftSpace_idemp. }
  rewrite Ht, reverse_involutive. unfold u. by rewrite TrimLeftSpaceRev_idemp.
Qed.

End TrimFacts.

(** * The extractor on any input *)

Module ExtractorInvariants.
Import Strings Strconv Regexp JSON XMLParser Directive ArgumentShape.
Import StringFacts RegexpFacts StrconvFacts DirectiveFacts ExtractorSpec TrimFacts.

(** What a match of the generic tag pattern looks like. *)
Lemma tag_match_inv s m rest :
  match_here tagRegex s = Some (m, rest) →
  ∃ k1 v k2,
    m = [openTag k1 ++ v ++ closeTag k2; k1; v; k2]
    ∧ is_word k1 = true ∧ clean v = true ∧ is_word k2 = true.
Proof.
  unfold match_here, tagRegex. cbn [run].
  destruct (HasPrefix s (str "<")) eqn:Hp; [|done].
  apply HasPrefix_inv in Hp as [t ->]. rewrite drop_app_length. intros H.
  apply plus_greedy_inv in H as (k1 & r1 & -> & Hk1 & Hw1 & H).
  destruct (HasPrefix r1 (str ">")) eqn:Hp; [|done].
  apply HasPrefix_inv in Hp as [t ->]. rewrite drop_app_length in H.
  apply star_greedy_inv in H as (v & r2 & -> & Hv & H).
  destruct (HasPrefix r2 (str "</")) eqn:Hp; [|done].
  apply HasPrefix_inv in Hp as [t ->]. rewrite drop_app_length in H.
  apply plus_greedy_inv in H as (k2 & r3 & -> & Hk2 & Hw2 & H).
  destruct (HasPrefix r3 (str ">")) eqn:Hp; [|done].
  apply HasPrefix_inv in Hp as [t ->]. rewrite drop_app_length in H.
  injection H as <- <-.
  exists k1, v, k2. unfold is_word, openTag, closeTag.
  rewrite Hw1, Hw2, !bool_decide_eq_false_2 by done.
  repeat split; try done.
  simpl. by rewrite <- !app_assoc.
Qed.

Lemma find_all_Forall (P : list gostring → Prop) r :
  (∀ s before m rest, search r s = Some (before, m, rest) → P m) →
  ∀ fuel s, Forall P (find_all fuel r s).
Proof.
  intros HP. induction fuel as [|fuel IH]; intros s; simpl; [done|].
  destruct (search r s) as [[[before m] rest]|] eqn:Hs; [|done].
  constructor; [by eapply HP|apply IH].
Qed.

Lemma tagMatches_shaped argsContent :
  Forall tag_shaped (FindAllStringSubmatch tagRegex argsContent).
Proof.
  apply find_all_Forall. intros s before m rest H.
  apply search_sound in H as (u & caps & -> & -> & _ & H).
  apply tag_match_inv in H as (k1 & v & k2 & E & ? & ? & ?).
  exists k1, v, k2, (openTag k1 ++ v ++ closeTag k2). done.
Qed.

(** An invariant of the argument mapping that each tag match keeps holds
    of the mapping of every arguments block. *)
Lemma parseArguments_invariant (I : gmap gostring ArgValue → Prop) :
  I ∅ →
  (∀ args m, tag_shaped m → I args → I (recordTag args m)) →
  ∀ argsContent, I (parseArguments argsContent).
Proof.
  intros H0 Hstep argsContent. unfold parseArguments.
  pose proof (tagMatches_shaped argsContent) as Hall.
  revert Hall. generalize (FindAllStringSubmatch tagRegex argsContent).
  intros ms. generalize (∅ : gmap gostring ArgValue) H0.
  induction ms as [|m ms IH]; intros args Hargs Hall; simpl; [done|].
  inversion Hall; subst. apply IH; [|done]. by apply Hstep.
Qed.

Lemma Atoi_in_int s n : Atoi s = Some n → in_int n = true.
Proof.
  unfold Atoi. destruct (match s with [] => _ | _ => _ end) as [neg body].
  destruct (parse_digits body); [|done].
  destruct (in_int _) eqn:E; [|done]. by intros [= <-].
Qed.

Lemma recordTag_well_typed args m :
  tag_shaped m → map_Forall well_typed args → map_Forall well_typed (recordTag args m).
Proof.
  intros (k1 & v & k2 & whole & -> & Hk1 & Hv & Hk2) Hargs.
  unfold recordTag. cbn [length Nat.leb nth].
  assert (Hs : well_typed k1 (VString (TrimSpace v))).
  { split; [done|]. split; [by apply TrimSpace_forallb|apply TrimSpace_idemp]. }
  case_decide as Hne; [done|].
  case_decide as Hex.
  - by apply map_Forall_insert_2.
  - destruct (Atoi (TrimSpace v)) as [n|] eqn:Ha.
    + apply map_Forall_insert_2; [|done]. split; [done|].
      split; [by eapply Atoi_in_int|]. split; intros ->; apply Hex; auto.
    + by apply map_Forall_insert_2.
Qed.

Lemma parseArguments_well_typed argsContent :
  map_Forall well_typed (parseArguments argsContent).
Proof.
  apply parseArguments_invariant.
  - apply map_Forall_empty.
  - apply recordTag_well_typed.
Qed.

(** X1.  Whatever the content of the arguments block, every key of the
    extracted mapping is a tag name, one or more word characters, and
    every text value is trimmed and holds no [<]. *)
Theorem extracted_keys_are_words argsContent k v :
  parseArguments argsContent !! k = Some v →
  is_word k = true
  ∧ ∀ s, v = VString s → clean s = true ∧ TrimSpace s = s.
Proof.
  intros H. destruct (parseArguments_well_typed argsContent k v H) as [Hk Hv].
  split; [done|]. by intros s ->.
Qed.

(** X2.  Whatever the content of the arguments block, no integer is ever
    recorded under [customerPhone] or [orderId], and every integer that
    is recorded fits an [int]. *)
Theorem exempt_fields_stay_text argsContent k n :
  parseArguments argsContent !! k = Some (VInt n) →
  k ≠ str "customerPhone" ∧ k ≠ str "orderId" ∧ (MinInt ≤ n ≤ MaxInt)%Z.
Proof.
  intros H. destruct (parseArguments_well_typed argsContent k _ H) as [_ (Hn & H1 & H2)].
  split; [done|]. split; [done|].
  unfold in_int in Hn. apply andb_true_iff in Hn as [Ha Hb]. lia.
Qed.

Lemma lazy_submatch_class o cls cl s :
  (length (FindStringSubmatch (Lit o +> Group (StarLazy cls) +> Lit cl) s) <? 2)%nat = false →
  ∃ whole mid,
    FindStringSubmatch (Lit o +> Group (StarLazy cls) +> Lit cl) s = [whole; mid]
    ∧ forallb cls mid = true.
Proof.
  unfold FindStringSubmatch.
  destruct (search _ s) as [[[before m] rest]|] eqn:Hs; [|done]. intros _.
  apply search_sound in Hs as (u & caps & -> & -> & _ & Hm).
  apply lazy_block_inv in Hm as (mid & _ & E & Hc). rewrite E. by eexists _, mid.
Qed.

(** X3.  When extraction reports a directive, the tool name has no
    white space at either end and no line feed, and the arguments are the
    JSON object of a mapping whose entries are well typed. *)
Theorem tool_name_normalised quote response info :
  parseToolCallFromXML quote response = (info, true) →
  TrimSpace (ToolName info) = ToolName info
  ∧ forallb dot (ToolName info) = true
  ∧ ∃ args, Arguments info = Marshal quote args ∧ map_Forall well_typed args.
Proof.
  unfold parseToolCallFromXML.
  destruct (Contains response _); [|done]. cbn [negb].
  destruct (length (FindStringSubmatch funcCallRegex response) <? 2)%nat; [done|].
  destruct (length (FindStringSubmatch toolNameRegex _) <? 2)%nat eqn:Hn; [done|].
  destruct (length (FindStringSubmatch argsRegex _) <? 2)%nat; [done|].
  unfold toolNameRegex in *.
  apply lazy_submatch_class in Hn as (whole & mid & -> & Hdot).
  intros [= <-]. cbn [ToolName Arguments nth]. split; [apply TrimSpace_idemp|].
  split; [by apply TrimSpace_forallb|].
  eexists. split; [done|]. apply parseArguments_well_typed.
Qed.

End ExtractorInvariants.

(** * More on a turn of the chat endpoint and on the start-up *)

Module TurnSpec.
Import Strings Regexp JSON XMLParser LLM RAG MCP Service Directive Assembly ToolLoop.
Import StringFacts RegexpFacts DirectiveFacts ExtractorSpec ServiceSpec.

Section Turn.
Context {JVal W : Type} (codec : Codec JVal) (ext : External JVal W).
Implicit Types (st : State JVal W) (req : ChatRequest).

(** X4.  A request that does not bind is answered with 400 and the
    service calls nothing outside.  When the retrieval panics, the
    handler panics with it: it writes no response and has called nothing
    but the retrieval.  When the retrieval returns and the model call
    fails, the turn is answered with 500 and the fixed text, which does
    not hold the error of the model, and what the turn has sent outside
    is the retrieval and that one model call: no tool is called. *)
Theorem failed_turn_calls_no_tool body st :
  match ShouldBindJSON body with
  | Err _ =>
    HandleChat codec ext body st
    = (Some {| Status := 400; RespBody := ErrorJSON (str "无效的请求") |}, st)
  | Ok req =>
    let found := SearchKnowledge ext (ReqMessage req) 3 st in
    match found.1 with
    | None =>
      (HandleChat codec ext body st).1 = None
      ∧ trace (HandleChat codec ext body st).2
        = trace st ++ [EvSearch (ReqMessage req) 3]
    | Some (docs, _) =>
      let messages := assembleMessages req docs in
      ∀ e, (Chat ext messages [] found.2).1 = Err e →
        (HandleChat codec ext body st).1
        = Some {| Status := 500; RespBody := ErrorJSON (str "处理失败,请稍后再试") |}
        ∧ trace (HandleChat codec ext body st).2
          = trace st ++ [EvSearch (ReqMessage req) 3; EvChat messages [] (Err e)]
    end
  end.
Proof.
  unfold HandleChat. destruct (ShouldBindJSON body) as [req|e0]; [|done].
  cbv zeta. unfold bind.
  destruct (SearchKnowledge_state ext (ReqMessage req) 3 st) as [w1 E1].
  destruct (SearchKnowledge ext (ReqMessage req) 3 st) as [[[docs err]|] st1];
    cbn [fst snd] in *; subst st1; [|done].
  intros e He.
  destruct (Chat_state ext (assembleMessages req docs) []
              (emit w1 (EvSearch (ReqMessage req) 3) st)) as [w2 E2].
  destruct (Chat ext _ _ _) as [r st2]. cbn [fst snd] in *. subst r st2.
  split; [done|]. simpl. by rewrite <- app_assoc.
Qed.

(** X5.  A turn writes at most one request to the sidecar, whatever the
    number of directive blocks in the text of the model: the [tools/call]
    for the tool name of the extracted directive, with its decoded
    arguments.  It comes after the retrieval and the one model call; a
    turn whose retrieval panics ends there and writes none. *)
Theorem one_tool_call_per_turn req st :
  ReqMessage req ≠ [] →
  ∃ rest,
    trace (HandleChat codec ext (Some req) st).2
    = trace st ++ EvSearch (ReqMessage req) 3 :: rest
    ∧ match (SearchKnowledge ext (ReqMessage req) 3 st).1 with
      | None => rest = []
      | Some (docs, _) =>
        ∃ answer sends,
          rest = EvChat (assembleMessages req docs) [] answer :: sends
          ∧ (sends = []
             ∨ ∃ response info args id x,
                 answer = Ok response
                 ∧ parseToolCallFromXML (quote codec) (OutputText response) = (info, true)
                 ∧ unmarshalArgs codec (Arguments info) = Ok args
                 ∧ sends = [EvSend (toolsCallRequest id (ToolName info) args) x])
      end.
Proof.
  intros Hmsg. unfold HandleChat, ShouldBindJSON.
  rewrite decide_False by done. unfold bind.
  destruct (SearchKnowledge_state ext (ReqMessage req) 3 st) as [w1 E1].
  destruct (SearchKnowledge ext (ReqMessage req) 3 st) as [[[docs err]|] st1];
    cbn [fst snd] in *; subst st1; [|by exists []].
  set (messages := assembleMessages req docs).
  destruct (Chat_state ext messages [] (emit w1 (EvSearch (ReqMessage req) 3) st))
    as [w2 E2].
  destruct (Chat ext messages [] _) as [r st2]. cbn [fst snd] in *. subst st2.
  assert (∀ sends : list (Event JVal),
            ((trace st ++ [EvSearch (ReqMessage req) 3]) ++ [EvChat messages [] r])
            ++ sends
            = trace st ++ EvSearch (ReqMessage req) 3 :: EvChat messages [] r :: sends)
    as Ha by (intros; by rewrite <- !app_assoc).
  destruct r as [response|e].
  - destruct (parseToolCallFromXML _ _) as [info found] eqn:Hp. destruct found.
    + set (st2 := emit w2 _ _).
      unfold Execute. destruct (ready st2) eqn:Hr; cbn [negb].
      * destruct (unmarshalArgs codec (Arguments info)) as [args|e] eqn:Ha'.
        -- destruct (CallTool_state ext (ToolName info) args st2) as (x & w & _ & E).
           destruct (CallTool ext (ToolName info) args st2) as [r st3]. cbn [snd] in E.
           eexists. split.
           ++ destruct r; cbn [snd respond ret]; rewrite E; subst st2; cbn [trace emit];
                apply Ha.
           ++ eexists _, _. split; [done|]. right.
              by exists response, info, args, (nextID (client st2)).1, x.
        -- eexists. split; [subst st2; cbn [snd respond ret trace emit];
                            rewrite <- (app_nil_r (_ ++ [EvChat _ _ _])); apply Ha|].
           eexists _, _. split; [done|]. by left.
      * eexists. split; [subst st2; cbn [snd respond ret trace emit];
                         rewrite <- (app_nil_r (_ ++ [EvChat _ _ _])); apply Ha|].
        eexists _, _. split; [done|]. by left.
    + eexists. split; [cbn [snd respond ret trace emit];
                       rewrite <- (app_nil_r (_ ++ [EvChat _ _ _])); apply Ha|].
      eexists _, _. split; [done|]. by left.
  - eexists. split; [cbn [snd respond ret trace emit];
                     rewrite <- (app_nil_r (_ ++ [EvChat _ _ _])); apply Ha|].
    eexists _, _. split; [done|]. by left.
Qed.

(** X6.  In the iterative loop a response of the flat-text shape ends
    the loop in its round: the loop returns that text after the one model
    call and executes no tool. *)
Theorem flat_text_ends_loop messages tools st response w :
  llmChat ext messages tools (world st) = (Ok response, w) →
  OutputText response ≠ [] →
  chatWithToolCalling codec ext messages tools st
  = (Ok (OutputText response), emit w (EvChat messages tools (Ok response)) st).
Proof.
  intros Hc Ht. unfold chatWithToolCalling, maxIterations.
  cbn [toolRounds]. unfold bind, Chat. rewrite Hc.
  unfold ShouldCallTool, GetTextResponse. by rewrite !decide_True.
Qed.


End Turn.
End TurnSpec.

(** * The lock of [sendRequest], on every schedule *)

Module LockSpec.
Import Concurrent ConcurrentSpec.

Lemma exclusive_run schedule : ∀ c, exclusive c → exclusive (run schedule c).
Proof.
  induction schedule as [|[g ok] schedule IH]; intros c Hc; [done|].
  simpl. apply IH. by apply exclusive_step.
Qed.

(** X9.  On every schedule of concurrent calls and every pattern of
    write and read failures, every response line is read right after the
    request line of the same goroutine, and at most one goroutine is
    between [c.mu.Lock()] and the deferred unlock. *)
Theorem lock_admits_one_caller schedule id0 n :
  let c := run schedule (start id0 n) in
  paired (pipe c)
  ∧ ∀ g1 g2 t1 t2,
      goroutines c !! g1 = Some t1 → in_exchange (at_pc t1) →
      goroutines c !! g2 = Some t2 → in_exchange (at_pc t2) →
      g1 = g2.
Proof.
  cbv zeta.
  destruct (exclusive_run schedule (start id0 n) (exclusive_start id0 n))
    as (Hp & Hmu & _).
  split; [done|]. intros g1 g2 t1 t2 H1 E1 H2 E2.
  pose proof (Hmu g1 t1 H1 E1) as M1. pose proof (Hmu g2 t2 H2 E2) as M2.
  congruence.
Qed.

End LockSpec.

(** * The embedding batches *)

Module EmbeddingSpec.
Import RAG Endpoint Answers.

Section Placement.
Context {F32 F64 W : Type} (wire : Wire F32 F64 W).

Lemma assign_Some {V : Type} (l : list V) (i : Z) (v : V) :
  (0 ≤ i < Z.of_nat (length l))%Z →
  assign l i v = Some (<[Z.to_nat i := v]> l).
Proof.
  intros H. unfold assign.
  destruct (Z.leb_spec 0 i); [|lia]. destruct (Z.ltb_spec i (Z.of_nat (length l))); [|lia].
  done.
Qed.

Lemma assign_None {V : Type} (l : list V) (i : Z) (v : V) :
  ¬ (0 ≤ i < Z.of_nat (length l))%Z → assign l i v = None.
Proof.
  intros H. unfold assign.
  destruct (Z.leb_spec 0 i); [|done]. destruct (Z.ltb_spec i (Z.of_nat (length l))); [lia|done].
Qed.

Lemma tagged_cons (emb : EmbeddingItem F32) items i :
  tagged (emb :: items) i =
  match tagged items i with
  | Some e => Some e
  | None => if decide (TextIndex emb = Z.of_nat i) then Some emb else None
  end.
Proof.
  unfold tagged. rewrite filter_cons. case_decide.
  - destruct (filter _ items) as [|e l] eqn:E; [done|].
    rewrite last_cons. by destruct (last (e :: l)).
  - by destruct (last _).
Qed.

(** The loop of [llm.Embedding], from any slice. *)
Lemma placeChecked_spec (items : list (EmbeddingItem F32)) :
  ∀ embeddings,
    (∀ emb, emb ∈ items → (0 ≤ TextIndex emb)%Z) →
    ∃ out, Dashscope.placeChecked embeddings items = Some out
           ∧ length out = length embeddings
           ∧ ∀ i, (i < length embeddings)%nat →
                  out !! i = match tagged items i with
                             | Some emb => Some (Embedding emb)
                             | None => embeddings !! i
                             end.
Proof.
  induction items as [|emb items IH]; intros embeddings Hpos.
  - exists embeddings. done.
  - simpl. assert (0 ≤ TextIndex emb)%Z as H0 by (apply Hpos; left).
    assert (∀ e, e ∈ items → (0 ≤ TextIndex e)%Z) as Hpos'
      by (intros e He; apply Hpos; by right).
    destruct (Z.ltb_spec (TextIndex emb) (Z.of_nat (length embeddings))) as [Hlt|Hge].
    + rewrite assign_Some by lia.
      destruct (IH (<[Z.to_nat (TextIndex emb) := Embedding emb]> embeddings) Hpos')
        as (out & E & Hl & Hi).
      rewrite length_insert in Hl, Hi.
      exists out. split; [done|]. split; [done|]. intros i Hi'.
      rewrite (Hi i Hi'), tagged_cons. destruct (tagged items i); [done|].
      case_decide as Ht.
      * rewrite Ht, Nat2Z.id. by rewrite list_lookup_insert_eq.
      * rewrite list_lookup_insert_ne; [done|]. lia.
    + destruct (IH embeddings Hpos') as (out & E & Hl & Hi).
      exists out. split; [done|]. split; [done|]. intros i Hi'.
      rewrite (Hi i Hi'), tagged_cons. destruct (tagged items i); [done|].
      rewrite decide_False; [done|]. lia.
Qed.


Lemma placeChecked_negative (items : list (EmbeddingItem F32)) :
  ∀ embeddings,
    (∃ emb, emb ∈ items ∧ (TextIndex emb < 0)%Z) →
    Dashscope.placeChecked embeddings items = None.
Proof.
  induction items as [|emb items IH]; intros embeddings (e & He & Hneg).
  - by apply elem_of_nil in He.
  - simpl. destruct (Z.ltb_spec (TextIndex emb) (Z.of_nat (length embeddings))) as [Hlt|Hge].
    + destruct (decide (0 ≤ TextIndex emb)%Z) as [H0|H0].
      * rewrite assign_Some by lia. apply IH.
        apply elem_of_cons in He as [->|He]; [lia|]. by exists e.
      * by rewrite assign_None by lia.
    + apply IH. apply elem_of_cons in He as [->|He]; [lia|]. by exists e.
Qed.

(** The loop of [generateBatchEmbeddings], from any slice. *)
Lemma placeAll_spec (items : list (EmbeddingItem F32)) :
  ∀ embeddings,
    (∀ emb, emb ∈ items → (0 ≤ TextIndex emb < Z.of_nat (length embeddings))%Z) →
    ∃ out, Chroma.placeAll wire embeddings items = Some out
           ∧ length out = length embeddings
           ∧ ∀ i, (i < length embeddings)%nat →
                  out !! i = match tagged items i with
                             | Some emb => Some (widen wire <$> Embedding emb)
                             | None => embeddings !! i
                             end.
Proof.
  induction items as [|emb items IH]; intros embeddings Hin.
  - exists embeddings. done.
  - simpl. rewrite assign_Some by (apply Hin; left).
    destruct (IH (<[Z.to_nat (TextIndex emb) := widen wire <$> Embedding emb]> embeddings))
      as (out & E & Hl & Hi).
    { intros e He. rewrite length_insert. apply Hin. by right. }
    rewrite length_insert in Hl, Hi.
    exists out. split; [done|]. split; [done|]. intros i Hi'.
    rewrite (Hi i Hi'), tagged_cons. destruct (tagged items i); [done|].
    pose proof (Hin emb ltac:(left)) as Hr.
    case_decide as Ht.
    + rewrite Ht, Nat2Z.id. by rewrite list_lookup_insert_eq.
    + rewrite list_lookup_insert_ne; [done|]. lia.
Qed.

Lemma placeAll_out_of_range (items : list (EmbeddingItem F32)) :
  ∀ embeddings,
    (∃ emb, emb ∈ items ∧ ¬ (0 ≤ TextIndex emb < Z.of_nat (length embeddings))%Z) →
    Chroma.placeAll wire embeddings items = None.
Proof.
  induction items as [|emb items IH]; intros embeddings (e & He & Hout).
  - by apply elem_of_nil in He.
  - simpl.
    destruct (decide (0 ≤ TextIndex emb < Z.of_nat (length embeddings))%Z) as [Hr|Hr].
    + rewrite assign_Some by done. apply IH. rewrite length_insert.
      apply elem_of_cons in He as [->|He]; [done|]. by exists e.
    + by rewrite assign_None.
Qed.



Lemma by_index {V : Type} (out : list V) (n : nat) (f : nat → V) :
  length out = n → (∀ i, (i < n)%nat → out !! i = Some (f i)) →
  out = f <$> seq 0 n.
Proof.
  intros Hl Hi. apply list_eq. intros i.
  rewrite list_lookup_fmap. destruct (decide (i < n)%nat) as [H|H].
  - rewrite (Hi i H), lookup_seq_lt by done. done.
  - rewrite lookup_seq_ge by lia. apply lookup_ge_None. lia.
Qed.

Lemma vectorFor_placed (items : list (EmbeddingItem F32)) (n i : nat) :
  (i < n)%nat →
  match tagged items i with
  | Some emb => Some (Embedding emb)
  | None => replicate n ([] : list F32) !! i
  end = Some (vectorFor items i).
Proof.
  intros H. unfold vectorFor. destruct (tagged items i); [done|].
  by apply lookup_replicate_2.
Qed.

(** X10.  [llm.Embedding] on a batch that is not empty, when the
    endpoint answers 200 with a body that decodes and a code that is
    empty or [Success]: one request is sent, and the result has one
    vector per text, the vector at index [i] being that of the last
    element tagged [i] and nil when no element has the tag, whatever the
    order of the elements.  An element tagged at or beyond the number of
    texts is passed over; a negative tag is a panic. *)
Theorem Embedding_follows_tags texts (n : Net F64 W) body w resp :
  texts ≠ [] →
  roundTrip wire (PostEmbedding texts) (world n) = (Answer 200 body None, w) →
  decodeEmbeddings wire body = Ok resp →
  Code resp = [] ∨ Code resp = str "Success" →
  Dashscope.Embedding wire texts n
  = (if decide (Exists (λ emb, TextIndex emb < 0)%Z (Embeddings resp))
     then Panic
     else Value (vectorFor (Embeddings resp) <$> seq 0 (length texts)),
     {| world := w; sent := sent n ++ [PostEmbedding texts] |}).
Proof.
  intros Ht Hrt Hd Hc. unfold Dashscope.Embedding, Do.
  rewrite decide_False by (by destruct texts).
  rewrite Hrt. rewrite decide_False by (intros H; by apply H).
  rewrite Hd. rewrite decide_False by (intros [? ?]; by destruct Hc).
  case_decide as Hneg.
  - rewrite placeChecked_negative; [done|].
    apply Exists_exists in Hneg as (emb & He & Hn). by exists emb.
  - destruct (placeChecked_spec (Embeddings resp) (replicate (length texts) []))
      as (out & -> & Hl & Hi).
    { intros emb He. destruct (decide (0 ≤ TextIndex emb)%Z); [done|].
      exfalso. apply Hneg, Exists_exists. exists emb. split; [done|lia]. }
    rewrite length_replicate in Hl, Hi.
    do 2 f_equal. apply by_index; [done|]. intros i Hi'.
    rewrite (Hi i Hi'). by apply vectorFor_placed.
Qed.

End Placement.

End EmbeddingSpec.

(** * The retrieval client *)

Module ChromaSpec.
Import RAG Endpoint Answers EmbeddingSpec Chroma.

Section Client.
Context {F32 F64 W : Type} (wire : Wire F32 F64 W).
Implicit Types (c : Client F64 W).

Lemma request_sent req c :
  ∃ resp w, roundTrip wire req (world (net c)) = (resp, w)
    ∧ request wire req c
      = (resp, {| collectionID := collectionID c;
                  net := {| world := w; sent := sent (net c) ++ [req] |} |}).
Proof.
  unfold request, Do. destruct (roundTrip wire req _) as [resp w]. by exists resp, w.
Qed.

Lemma embeddingAnswer_ok body resp :
  decodeEmbeddings wire body = Ok resp →
  Code resp = [] ∨ Code resp = str "Success" →
  embeddingAnswer wire (Answer 200 body None) = Ok resp.
Proof.
  intros Hd Hc. unfold embeddingAnswer.
  rewrite decide_False by (intros H; by apply H). rewrite Hd.
  rewrite decide_False; [done|]. intros [? ?]. by destruct Hc.
Qed.

(** X11.  [generateBatchEmbeddings] under the same conditions: the
    widened vectors by tag when every tag is an index of the batch.  Any
    other tag is a panic, also one at or beyond the number of texts,
    which [llm.Embedding] passes over. *)
Theorem batch_embeddings_follow_tags texts c body w resp :
  texts ≠ [] →
  roundTrip wire (PostEmbedding texts) (world (net c)) = (Answer 200 body None, w) →
  decodeEmbeddings wire body = Ok resp →
  Code resp = [] ∨ Code resp = str "Success" →
  (generateBatchEmbeddings wire texts c).1
  = if decide (Forall (λ emb, 0 ≤ TextIndex emb < Z.of_nat (length texts))%Z
                      (Embeddings resp))
    then Value ((λ i, widen wire <$> vectorFor (Embeddings resp) i)
                <$> seq 0 (length texts))
    else Panic.
Proof.
  intros Ht Hrt Hd Hc. unfold generateBatchEmbeddings.
  rewrite decide_False by (by destruct texts).
  unfold request, Do. rewrite Hrt. rewrite (embeddingAnswer_ok body resp) by done.
  case_decide as Hin.
  - destruct (placeAll_spec wire (Embeddings resp) (replicate (length texts) []))
      as (out & -> & Hl & Hi).
    { intros emb He. rewrite length_replicate.
      by apply (proj1 (Forall_forall _ _) Hin). }
    rewrite length_replicate in Hl, Hi. simpl. f_equal.
    apply by_index; [done|]. intros i Hi'. rewrite (Hi i Hi').
    unfold vectorFor. destruct (tagged _ i); [done|].
    by rewrite lookup_replicate_2.
  - rewrite placeAll_out_of_range; [done|].
    apply not_Forall_Exists in Hin; [|intros x; apply _].
    apply Exists_exists in Hin as (emb & He & Hn). exists emb.
    by rewrite length_replicate.
Qed.


(** ** What each call adds to the requests sent *)

Lemma initializeCollection_cases c :
  ∃ w,
    (∃ id, initializeCollection wire c
           = (None, {| collectionID := id;
                       net := {| world := w; sent := sent (net c) ++ [GetCollections] |} |}))
    ∨ (∃ e, initializeCollection wire c = (Some e, after c w [GetCollections])).
Proof.
  unfold initializeCollection.
  destruct (request_sent GetCollections c) as (resp & w & _ & ->). exists w.
  destruct resp as [err|code body [err|]]; [right; by eexists..|].
  case_decide; [right; by eexists|].
  destruct (decodeCollections wire body) as [cols|]; [|right; by eexists].
  destruct (findCollection cols); [left|right]; by eexists.
Qed.

Lemma generateEmbedding_cases text c :
  ∃ w r, generateEmbedding wire text c = (r, after c w [PostEmbedding [text]]).
Proof.
  unfold generateEmbedding.
  destruct (request_sent (PostEmbedding [text]) c) as (resp & w & _ & ->). exists w.
  destruct (embeddingAnswer wire resp) as [result|]; [|by eexists].
  destruct (Embeddings result); by eexists.
Qed.

Lemma queryChroma_cases embedding topK c :
  ∃ w r, queryChroma wire embedding topK c
         = (r, after c w [PostQuery (collectionID c) [embedding] topK]).
Proof.
  unfold queryChroma.
  destruct (request_sent (PostQuery (collectionID c) [embedding] topK) c)
    as (resp & w & _ & ->). exists w.
  destruct resp as [err|code body [err|]]; [by eexists..|].
  case_decide; [by eexists|].
  destruct (decodeQuery wire body) as [result|]; [|by eexists].
  destruct (buildDocuments wire result); by eexists.
Qed.



Implicit Types (result : QueryResult F64).

(** ** The parallel arrays of the query answer *)

Lemma documentsFrom_spec result ids :
  head (IDs result) = Some ids →
  ∀ texts i, (i + length texts ≤ length ids)%nat →
    ∃ documents,
      documentsFrom wire result i texts = Some documents
      ∧ length documents = length texts
      ∧ ∀ j text, texts !! j = Some text →
          documents !! j = documentAt wire result (i + j) text
          ∧ ∃ id, ids !! (i + j)%nat = Some id.
Proof.
  intros Hids. induction texts as [|text texts IH]; intros i Hlen.
  - exists []. split; [done|]. split; [done|]. intros j t H. done.
  - simpl in *.
    destruct (lookup_lt_is_Some_2 ids i ltac:(lia)) as [id Hid].
    assert (∃ d, documentAt wire result i text = Some d) as [d Hd].
    { unfold documentAt. destruct (IDs result) as [|ids0 ?]; [done|].
      simpl in Hids. injection Hids as ->. rewrite Hid. by eexists. }
    rewrite Hd. destruct (IH (S i) ltac:(lia)) as (documents & -> & Hl & Hj).
    exists (d :: documents). split; [done|]. split; [simpl; lia|].
    intros [|j] t H; simpl in *.
    + injection H as <-. rewrite Nat.add_0_r. split; [done|by exists id].
    + destruct (Hj j t H) as [E1 E2]. rewrite <- Nat.add_succ_comm. done.
Qed.

(** X15.  When the query answer has at least as many ids as documents
    in its first row, [queryChroma] zips the parallel arrays: one
    document per text, in order, with the id at the same index, the
    metadata at that index or none, the distance at that index or 0. *)
Theorem query_answer_zipped result ids texts :
  head (IDs result) = Some ids →
  head (Documents result) = Some texts →
  (length texts ≤ length ids)%nat →
  ∃ documents,
    buildDocuments wire result = Some documents
    ∧ length documents = length texts
    ∧ ∀ i text, texts !! i = Some text →
        ∃ id scored,
          ids !! i = Some id ∧ documents !! i = Some scored
          ∧ DocID (Doc scored) = id ∧ Text (Doc scored) = text
          ∧ Metadata (Doc scored) = default ∅ (head (Metadatas result) ≫= (.!! i))
          ∧ Distance scored
            = default (zero wire) (head (Distances result) ≫= (.!! i)).
Proof.
  intros Hids Htexts Hlen. unfold buildDocuments.
  destruct (Documents result) as [|texts0 ?]; [done|].
  simpl in Htexts. injection Htexts as ->.
  destruct (documentsFrom_spec result ids Hids texts 0 ltac:(simpl; lia))
    as (documents & -> & Hl & Hj).
  exists documents. split; [done|]. split; [done|]. intros i text Hi.
  destruct (Hj i text Hi) as [E (id & Hid)]. simpl in *.
  exists id. unfold documentAt in E.
  destruct (IDs result) as [|ids0 ?]; [done|].
  simpl in Hids. injection Hids as ->. rewrite Hid in E.
  eexists. split; [done|]. split; [exact E|]. simpl.
  split; [done|]. split; [done|]. split.
  - by destruct (Metadatas result).
  - by destruct (Distances result).
Qed.

Lemma documentsFrom_short result texts i :
  (i ≤ length (default [] (head (IDs result))))%nat →
  (length (default [] (head (IDs result))) < i + length texts)%nat →
  documentsFrom wire result i texts = None.
Proof.
  revert i. induction texts as [|text texts IH]; intros i Hi Hlen; simpl in *; [lia|].
  unfold documentAt. destruct (IDs result) as [|ids0 ?] eqn:E; [done|]. simpl in *.
  destruct (ids0 !! i) as [id|] eqn:Hid; [|done].
  apply lookup_lt_Some in Hid.
  rewrite IH; [done|simpl; lia..].
Qed.

(** X16.  When the first row of the query answer has fewer ids than
    documents (or there is no row of ids), [queryChroma] panics: the ids
    are read without a check of their bounds. *)
Theorem missing_ids_panic embedding topK c body w result texts :
  roundTrip wire (PostQuery (collectionID c) [embedding] topK) (world (net c))
  = (Answer 200 body None, w) →
  decodeQuery wire body = Ok result →
  head (Documents result) = Some texts →
  (length (default [] (head (IDs result))) < length texts)%nat →
  (queryChroma wire embedding topK c).1 = Panic.
Proof.
  intros Hrt Hd Ht Hlen. unfold queryChroma, request, Do. rewrite Hrt.
  rewrite decide_False by (intros H; by apply H). rewrite Hd.
  unfold buildDocuments. destruct (Documents result) as [|texts0 ?]; [done|].
  simpl in Ht. injection Ht as ->.
  rewrite documentsFrom_short; [done|lia|simpl; lia].
Qed.

(** ** The collection *)

(** X13.  A client that has a collection id keeps it and does not list
    the collections again.  A client that has none takes the id that the
    listing gives for the collection, whatever the later stages of the
    search do. *)
Theorem collection_resolved_once query topK c :
  let c' := (SearchKnowledge wire query topK c).2 in
  (collectionID c ≠ [] →
   collectionID c' = collectionID c
   ∧ GetCollections ∉ drop (length (sent (net c))) (sent (net c')))
  ∧ (∀ body w collections id,
       collectionID c = [] →
       roundTrip wire GetCollections (world (net c)) = (Answer 200 body None, w) →
       decodeCollections wire body = Ok collections →
       findCollection collections = Some id →
       collectionID c' = id).
Proof.
  cbv zeta. split.
  - intros Hc. unfold SearchKnowledge, ensureCollection. rewrite decide_False by done.
    destruct (generateEmbedding_cases query c) as (w1 & r1 & ->).
    destruct r1 as [embedding|e].
    + destruct (queryChroma_cases embedding
                  (if (topK <=? 0)%Z then Service.defaultTopK else topK)
                  (after c w1 [PostEmbedding [query]])) as (w2 & r2 & ->).
      assert (∀ r : outcome (list (Scored F64)) * Client F64 W,
                r.2 = after (after c w1 [PostEmbedding [query]]) w2
                        [PostQuery (collectionID c) [embedding]
                           (if (topK <=? 0)%Z then Service.defaultTopK else topK)] →
                collectionID r.2 = collectionID c
                ∧ GetCollections ∉ drop (length (sent (net c))) (sent (net r.2))) as H.
      { intros r ->. simpl. split; [done|].
        rewrite <- app_assoc, drop_app_length.
        intros H. repeat (apply elem_of_cons in H as [H|H]; [discriminate H|]).
        by apply elem_of_nil in H. }
      destruct r2; by apply H.
    + simpl. split; [done|]. rewrite drop_app_length.
      intros H. repeat (apply elem_of_cons in H as [H|H]; [discriminate H|]).
      by apply elem_of_nil in H.
  - intros body w collections id Hc Hrt Hd Hf.
    unfold SearchKnowledge, ensureCollection. rewrite decide_True by done.
    unfold initializeCollection, request, Do. rewrite Hrt.
    rewrite decide_False by (intros H; by apply H). rewrite Hd, Hf.
    match goal with |- context [generateEmbedding wire query ?c1] =>
      destruct (generateEmbedding_cases query c1) as (w1 & r1 & ->) end.
    destruct r1 as [embedding|e]; [|done].
    match goal with |- context [queryChroma wire ?e ?k ?c1] =>
      destruct (queryChroma_cases e k c1) as (w2 & r2 & ->) end.
    by destruct r2.
Qed.


(** X14.  When no listed collection has both the name [shop_knowledge]
    and a string id, the search fails with the error of a missing
    collection, after the listing alone: the query is not embedded. *)
Theorem missing_collection_reported query topK c body w collections :
  collectionID c = [] →
  roundTrip wire GetCollections (world (net c)) = (Answer 200 body None, w) →
  decodeCollections wire body = Ok collections →
  (∀ col id, col ∈ collections →
     ¬ (col !! str "name" = Some (AString collectionName)
        ∧ col !! str "id" = Some (AString id))) →
  SearchKnowledge wire query topK c
  = (Error (str "初始化集合失败: 集合 'shop_knowledge' 不存在"),
     {| collectionID := [];
        net := {| world := w; sent := sent (net c) ++ [GetCollections] |} |}).
Proof.
  intros Hc Hrt Hd Hnone.
  assert (findCollection collections = None) as Hf.
  { clear Hd. induction collections as [|col cols IH]; [done|].
    cbn [findCollection].
    assert (findCollection cols = None) as ->.
    { apply IH. intros col' id Hin. apply Hnone. by right. }
    destruct (col !! str "name") as [[name|]|] eqn:Hn; try done.
    case_decide as E; [|done]. subst name.
    destruct (col !! str "id") as [[id|]|] eqn:Hi; try done.
    exfalso. apply (Hnone col id); [by left|done]. }
  unfold SearchKnowledge, ensureCollection. rewrite decide_True by done.
  unfold initializeCollection, request, Do. rewrite Hrt.
  rewrite decide_False by (intros H; by apply H). rewrite Hd, Hf, Hc. done.
Qed.

(** ** Batches *)

Lemma placeAll_length (items : list (EmbeddingItem F32)) :
  ∀ embeddings out,
    placeAll wire embeddings items = Some out → length out = length embeddings.
Proof.
  induction items as [|emb items IH]; intros embeddings out H; simpl in H.
  - by injection H as <-.
  - unfold assign in H. destruct (_ && _); [|done].
    apply IH in H. by rewrite length_insert in H.
Qed.

Lemma generateBatchEmbeddings_cases texts c :
  texts ≠ [] →
  ∃ w r, generateBatchEmbeddings wire texts c = (r, after c w [PostEmbedding texts])
         ∧ ∀ embeddings, r = Value embeddings → length embeddings = length texts.
Proof.
  intros Ht. unfold generateBatchEmbeddings. rewrite decide_False by (by destruct texts).
  destruct (request_sent (PostEmbedding texts) c) as (resp & w & _ & ->). exists w.
  destruct (embeddingAnswer wire resp) as [result|]; [|by eexists].
  destruct (placeAll wire _ _) as [out|] eqn:E; [|by eexists].
  eexists. split; [done|]. intros embeddings [= <-].
  apply placeAll_length in E. by rewrite length_replicate in E.
Qed.

(** X17.  [AddDocuments] sends nothing for an empty batch.  Any add
    request it sends goes to the collection of the client and carries
    the ids, the texts and the metadata of the documents in their order,
    with as many embeddings as documents. *)
Theorem add_request_aligned docs c :
  let c' := (AddDocuments wire docs c).2 in
  (docs = [] → c' = c)
  ∧ ∀ collection ids documents metadatas embeddings,
      PostAdd collection ids documents metadatas embeddings
        ∈ drop (length (sent (net c))) (sent (net c')) →
      collection = collectionID c'
      ∧ ids = DocID <$> docs ∧ documents = Text <$> docs
      ∧ metadatas = Metadata <$> docs
      ∧ length embeddings = length docs.
Proof.
  cbv zeta. split; [by intros ->|].
  intros collection ids documents metadatas embeddings.
  unfold AddDocuments. case_decide as Hd.
  { rewrite drop_all. intros H. by apply elem_of_nil in H. }
  assert (Text <$> docs ≠ []) as Ht by (by destruct docs).
  assert (∀ c1 reqs,
            sent (net c1) = sent (net c) ++ reqs → PostAdd collection ids documents metadatas embeddings ∉ reqs →
            let out :=
              (let '(r, c2) := generateBatchEmbeddings wire (Text <$> docs) c1 in
               match r with
               | Value embeddings0 =>
                 let '(resp, c3) :=
                   request wire (PostAdd (collectionID c2) (DocID <$> docs) (Text <$> docs)
                                   (Metadata <$> docs) embeddings0) c2 in
                 match resp with
                 | NoResponse err => (Error err, c3)
                 | Answer StatusCode body _ =>
                   if decide (StatusCode ≠ 200%Z)
                   then (Error (str "Chroma 添加文档错误 (状态码 " ++ Strconv.Itoa StatusCode
                                ++ str "): " ++ body), c3)
                   else (Value tt, c3)
                 end
               | Error err => (Error (str "生成嵌入向量失败: " ++ err), c2)
               | Panic => (Panic, c2)
               end) in
            PostAdd collection ids documents metadatas embeddings
              ∈ drop (length (sent (net c))) (sent (net out.2)) →
            collection = collectionID out.2
            ∧ ids = DocID <$> docs ∧ documents = Text <$> docs
            ∧ metadatas = Metadata <$> docs
            ∧ length embeddings = length docs) as Hrest.
  { intros c1 reqs Hs Hno. cbv zeta.
    destruct (generateBatchEmbeddings_cases (Text <$> docs) c1 Ht) as (w1 & r1 & -> & Hl).
    destruct r1 as [embeddings0|e|].
    - destruct (request_sent
                  (PostAdd (collectionID (after c1 w1 [PostEmbedding (Text <$> docs)]))
                     (DocID <$> docs) (Text <$> docs) (Metadata <$> docs) embeddings0)
                  (after c1 w1 [PostEmbedding (Text <$> docs)])) as (resp & w2 & _ & ->).
      assert (∀ o : outcome unit * Client F64 W,
                o.2 = {| collectionID := collectionID c1;
                         net := {| world := w2;
                                   sent := (sent (net c1) ++ [PostEmbedding (Text <$> docs)])
                                           ++ [PostAdd (collectionID c1) (DocID <$> docs)
                                                 (Text <$> docs) (Metadata <$> docs)
                                                 embeddings0] |} |} →
                PostAdd collection ids documents metadatas embeddings
                  ∈ drop (length (sent (net c))) (sent (net o.2)) →
                collection = collectionID o.2
                ∧ ids = DocID <$> docs ∧ documents = Text <$> docs
                ∧ metadatas = Metadata <$> docs
                ∧ length embeddings = length docs) as H.
      { intros o -> Hin. simpl in *. rewrite Hs, <- !app_assoc, drop_app_length in Hin.
        apply elem_of_app in Hin as [Hin|Hin]; [done|].
        apply elem_of_cons in Hin as [Hin|Hin]; [discriminate Hin|].
        apply list_elem_of_singleton in Hin. injection Hin as -> -> -> -> ->.
        specialize (Hl embeddings0 eq_refl). rewrite length_fmap in Hl. done. }
      destruct resp as [err|code body rerr]; [by apply H|].
      case_decide; by apply H.
    - simpl. rewrite Hs, <- app_assoc, drop_app_length. intros Hin.
      apply elem_of_app in Hin as [Hin|Hin]; [done|].
      apply list_elem_of_singleton in Hin. discriminate Hin.
    - simpl. rewrite Hs, <- app_assoc, drop_app_length. intros Hin.
      apply elem_of_app in Hin as [Hin|Hin]; [done|].
      apply list_elem_of_singleton in Hin. discriminate Hin. }
  unfold ensureCollection. case_decide as Hc.
  - destruct (initializeCollection_cases c) as (w & [(id & ->)|(e & ->)]).
    + apply (Hrest _ [GetCollections]); [done|].
      intros H. apply list_elem_of_singleton in H. discriminate H.
    + simpl. rewrite drop_app_length. intros H.
      apply list_elem_of_singleton in H. discriminate H.
  - apply (Hrest c []); [by rewrite app_nil_r|]. intros H. by apply elem_of_nil in H.
Qed.

End Client.

End ChromaSpec.

(** * The shop *)

Module ShopSpec.
Import Shop ShopWords.

(** ** Arithmetic of [int] *)

Lemma wrap32_range n : (MIN_VALUE ≤ wrap32 n ≤ MAX_VALUE)%Z.
Proof.
  unfold wrap32, MIN_VALUE, MAX_VALUE.
  change (2 ^ 31)%Z with 2147483648%Z. change (2 ^ 32)%Z with 4294967296%Z.
  pose proof (Z.mod_pos_bound (n + 2147483648) 4294967296 ltac:(lia)). lia.
Qed.

Lemma wrap32_id n : (MIN_VALUE ≤ n ≤ MAX_VALUE)%Z → wrap32 n = n.
Proof.
  unfold wrap32, MIN_VALUE, MAX_VALUE.
  change (2 ^ 31)%Z with 2147483648%Z. change (2 ^ 32)%Z with 4294967296%Z.
  intros H. rewrite Z.mod_small; lia.
Qed.

Lemma wrap32_add_l a b : wrap32 (wrap32 a + b) = wrap32 (a + b).
Proof.
  unfold wrap32.
  change (2 ^ 31)%Z with 2147483648%Z. change (2 ^ 32)%Z with 4294967296%Z.
  f_equal.
  replace ((a + 2147483648) mod 4294967296 - 2147483648 + b + 2147483648)%Z
    with ((a + 2147483648) mod 4294967296 + b)%Z by lia.
  rewrite Z.add_mod_idemp_l by lia. f_equal. lia.
Qed.

Lemma wrap32_add_r a b : wrap32 (a + wrap32 b) = wrap32 (a + b).
Proof. rewrite Z.add_comm, wrap32_add_l. f_equal. lia. Qed.

(** A sum of two [int]s that wraps to a value that is not negative, from
    a first summand that is not negative and a second one that is not
    positive, or the other way round, has not wrapped. *)
Lemma wrap32_exact a b :
  (0 ≤ a ≤ MAX_VALUE)%Z → (MIN_VALUE ≤ b ≤ MAX_VALUE)%Z →
  (0 ≤ wrap32 (a + b))%Z → wrap32 (a + b) = (a + b)%Z.
Proof.
  unfold wrap32, MIN_VALUE, MAX_VALUE.
  change (2 ^ 31)%Z with 2147483648%Z. change (2 ^ 32)%Z with 4294967296%Z.
  intros Ha Hb H.
  destruct (Z_lt_le_dec (a + b) 2147483648) as [Hlt|Hge].
  - destruct (Z_lt_le_dec (a + b) (-2147483648)) as [Hl|Hl]; [lia|].
    rewrite Z.mod_small; lia.
  - replace (a + b + 2147483648)%Z with ((a + b - 2147483648) + 1 * 4294967296)%Z in * by lia.
    rewrite Z.mod_add in * by lia. rewrite Z.mod_small in * by lia. lia.
Qed.


(** ** The stock *)

Lemma updateStock_inv productId quantity t t1 :
  updateStock productId quantity t = Returns t1 →
  ∃ p, products t !! productId = Some p
       ∧ (0 ≤ wrap32 (stock p + quantity))%Z
       ∧ t1 = {| products := <[productId := withStock p (wrap32 (stock p + quantity))]>
                               (products t);
                 orders := orders t |}.
Proof.
  unfold updateStock. destruct (products t !! productId) as [p|]; [|done].
  destruct (Z.ltb_spec (wrap32 (stock p + quantity)) 0); [done|].
  intros [= <-]. by exists p.
Qed.

Lemma updateStock_stocked productId quantity t t1 :
  stocked t → updateStock productId quantity t = Returns t1 → stocked t1.
Proof.
  intros Hs H. apply updateStock_inv in H as (p & Hp & H0 & ->).
  intros id p' Hl. simpl in Hl.
  destruct (decide (id = productId)) as [->|Hne].
  - rewrite lookup_insert_eq in Hl. injection Hl as <-. simpl.
    pose proof (wrap32_range (stock p + quantity)). lia.
  - rewrite lookup_insert_ne in Hl by done. by apply (Hs id).
Qed.

Lemma createOrder_inv productId quantity customerName customerPhone shippingAddress now t o t1 :
  createOrder productId quantity customerName customerPhone shippingAddress now t
  = Returns (o, t1) →
  ∃ id q name p t0,
    productId = Some id ∧ quantity = Some q ∧ customerName = Some name
    ∧ products t !! id = Some p ∧ (q ≤ stock p)%Z
    ∧ updateStock id (wrap32 (- q)) t = Returns t0
    ∧ (generateOrderNumber now ∉ orderNumber <$> orders t)
    ∧ o = {| orderNumber := generateOrderNumber now; product := id; quantity := q;
             totalPrice := multiply (price p) (valueOf q); customerName := name;
             customerPhone := customerPhone; shippingAddress := shippingAddress;
             status := PENDING |}
    ∧ t1 = {| products := products t0; orders := orders t ++ [o] |}.
Proof.
  unfold createOrder, getProductById.
  destruct productId as [id|]; [|done].
  destruct (products t !! id) as [p|] eqn:Hp; [|done].
  destruct quantity as [q|]; [|done].
  destruct (Z.ltb_spec (stock p) q); [done|].
  destruct customerName as [name|]; [|done].
  destruct (updateStock id (wrap32 (- q)) t) as [t0|e] eqn:Hu; [|done].
  case_decide as Hn; [done|]. cbn [orderNumber] in Hn.
  intros [= <- <-]. exists id, q, name, p, t0.
  apply updateStock_inv in Hu as Hu'. destruct Hu' as (p' & Hp' & _ & E).
  repeat split; try done. rewrite E. done.
Qed.

Lemma cancelOrder_inv number t o t1 :
  cancelOrder number t = Returns (o, t1) →
  ∃ i order t0,
    findByOrderNumber number t = Some (i, order)
    ∧ (status order = PENDING ∨ status order = CONFIRMED)
    ∧ updateStock (product order) (quantity order) t = Returns t0
    ∧ o = withStatus order CANCELLED
    ∧ t1 = {| products := products t0; orders := <[i := o]> (orders t) |}.
Proof.
  unfold cancelOrder.
  destruct (findByOrderNumber number t) as [[i order]|] eqn:Hf; [|done].
  case_decide as Hs; [done|].
  destruct (updateStock _ _ t) as [t0|e] eqn:Hu; [|done].
  intros [= <- <-]. exists i, order, t0.
  apply updateStock_inv in Hu as Hu'. destruct Hu' as (p' & Hp' & _ & E).
  repeat split; try done.
  - destruct (status order); try (by left); try (by right); exfalso; apply Hs; done.
  - rewrite E. done.
Qed.

Lemma handle_stocked req now t : stocked t → stocked (handle req now t).2.
Proof.
  intros Hs. destruct req as [pid q cn cp sa| |n|n|n st]; simpl.
  - destruct (createOrder _ _ _ _ _ _ _) as [[o t1]|e] eqn:E; [|done]. simpl.
    apply createOrder_inv in E as (id & q' & name & p & t0 & _ & _ & _ & _ & _ & Hu & _ & _ & ->).
    intros i p' Hl. simpl in Hl. by apply (updateStock_stocked _ _ _ _ Hs Hu i).
  - done.
  - by destruct (getOrderByOrderNumber n t).
  - destruct (cancelOrder n t) as [[o t1]|e] eqn:E; [|done]. simpl.
    apply cancelOrder_inv in E as (i & order & t0 & _ & _ & Hu & _ & ->).
    intros j p' Hl. simpl in Hl. by apply (updateStock_stocked _ _ _ _ Hs Hu j).
  - unfold updateOrderStatus. destruct (findByOrderNumber n t) as [[i order]|]; [|done].
    by destruct st.
Qed.

(** X18.  Whatever requests the order API serves, with whatever
    arguments, no stock ever becomes negative: the only writer of a
    stock is [updateStock], which refuses a negative result, also one
    that comes from an overflow. *)
Theorem stock_never_negative reqs t :
  stocked t → stocked (serve reqs t).
Proof.
  revert t. induction reqs as [|[req now] reqs IH]; intros t Hs; [done|].
  simpl. apply IH. by apply handle_stocked.
Qed.

(** X19.  An order that was created can be cancelled, and this restores
    the products to what they were before the order: the stock taken is
    given back, and the order stays in the table as cancelled. *)
Theorem cancel_restores_stock productId quantity customerName customerPhone
    shippingAddress now t o t1 :
  stocked t →
  createOrder productId quantity customerName customerPhone shippingAddress now t
  = Returns (o, t1) →
  cancelOrder (orderNumber o) t1
  = Returns (withStatus o CANCELLED,
             {| products := products t; orders := orders t ++ [withStatus o CANCELLED] |}).
Proof.
  intros Hs Hc.
  apply createOrder_inv in Hc
    as (id & q & name & p & t0 & -> & -> & -> & Hp & Hq & Hu & Hfresh & Ho & ->).
  apply updateStock_inv in Hu as (p' & Hp' & H0 & ->).
  rewrite Hp in Hp'. injection Hp' as <-.
  assert (findByOrderNumber (orderNumber o)
            {| products := <[id := withStock p (wrap32 (stock p + wrap32 (- q)))]> (products t);
               orders := orders t ++ [o] |}
          = Some (length (orders t), o)) as Hf.
  { unfold findByOrderNumber. cbn [orders]. apply list_find_Some.
    split; [by rewrite lookup_app_r, Nat.sub_diag|]. split; [done|].
    intros j y Hj Hlt. rewrite lookup_app_l in Hj by done.
    intros Hy. apply Hfresh. rewrite Ho in Hy.
    cbn [orderNumber] in Hy. rewrite <- Hy.
    apply list_elem_of_fmap. exists y. split; [done|]. by eapply list_elem_of_lookup_2. }
  unfold cancelOrder. cbn [products]. rewrite Hf.
  rewrite decide_False by (rewrite Ho; cbn [status]; intros [? _]; done).
  unfold updateStock. cbn [products orders].
  assert (product o = id) as -> by (by rewrite Ho).
  assert (Shop.quantity o = q) as -> by (by rewrite Ho).
  rewrite lookup_insert_eq. cbn [stock withStock].
  pose proof (Hs id p Hp) as Hr.
  assert (wrap32 (wrap32 (stock p + wrap32 (- q)) + q) = stock p) as ->.
  { rewrite wrap32_add_l.
    replace (stock p + wrap32 (- q) + q)%Z with (stock p + q + wrap32 (- q))%Z by lia.
    rewrite wrap32_add_r. replace (stock p + q + - q)%Z with (stock p) by lia.
    apply wrap32_id. unfold MIN_VALUE, MAX_VALUE in *.
    change (2 ^ 31)%Z with 2147483648%Z in *. lia. }
  destruct (Z.ltb_spec (stock p) 0); [lia|].
  do 3 f_equal.
  - rewrite insert_insert_eq.
    replace (withStock (withStock p (wrap32 (stock p + wrap32 (- q)))) (stock p)) with p
      by (by destruct p).
    by apply insert_id.
  - cbn [orders]. rewrite insert_app_r_alt by done. by rewrite Nat.sub_diag.
Qed.


Lemma find_after_update (number : gostring) (os : list Order) i order st :
  list_find (λ o, orderNumber o = number) os = Some (i, order) →
  list_find (λ o, orderNumber o = number) (<[i := withStatus order st]> os)
  = Some (i, withStatus order st).
Proof.
  intros H. apply list_find_Some in H as (Hi & Hn & Hmin).
  apply list_find_Some. split; [|split].
  - apply list_lookup_insert_eq. by eapply lookup_lt_Some.
  - done.
  - intros j y Hj Hlt. rewrite list_lookup_insert_ne in Hj by lia. by apply (Hmin j).
Qed.

(** X20.  A cancelled order cannot be cancelled again: the second
    request is answered 400 with the status message and changes nothing,
    so the stock is given back once. *)
Theorem cancelled_order_stays_cancelled number t o t1 :
  cancelOrder number t = Returns (o, t1) →
  status o = CANCELLED
  ∧ cancelOrder number t1 = Throws (RuntimeException (str "订单状态不允许取消"))
  ∧ ∀ now, handle (DeleteOrder number) now t1
           = (BadRequest (RuntimeException (str "订单状态不允许取消")), t1).
Proof.
  intros H. apply cancelOrder_inv in H as (i & order & t0 & Hf & _ & Hu & -> & ->).
  apply updateStock_inv in Hu as (p & _ & _ & ->).
  assert (cancelOrder number
            {| products := products
                             {| products := <[product order :=
                                                withStock p (wrap32 (stock p + quantity order))]>
                                              (products t);
                                orders := orders t |};
               orders := <[i := withStatus order CANCELLED]> (orders t) |}
          = Throws (RuntimeException (str "订单状态不允许取消"))) as E.
  { unfold cancelOrder, findByOrderNumber. cbn [orders].
    rewrite (find_after_update number (orders t) i order CANCELLED Hf).
    rewrite decide_True; [done|]. by split. }
  split; [done|]. split; [exact E|]. intros now. unfold handle. by rewrite E.
Qed.

(** X21.  The order number is [ORD-] and the clock value in
    milliseconds, and it is unique: after an order is stored, no other
    order can be created at the same clock value, whatever its
    arguments. *)
Theorem same_millisecond_refused productId quantity customerName customerPhone
    shippingAddress now t o t1 :
  createOrder productId quantity customerName customerPhone shippingAddress now t
  = Returns (o, t1) →
  orderNumber o = generateOrderNumber now
  ∧ ∀ productId' quantity' customerName' customerPhone' shippingAddress',
      ∃ e, createOrder productId' quantity' customerName' customerPhone'
             shippingAddress' now t1 = Throws e.
Proof.
  intros H. apply createOrder_inv in H
    as (id & q & name & p & t0 & _ & _ & _ & _ & _ & _ & _ & -> & ->).
  split; [done|]. intros pid' q' cn' cp' sa'. unfold createOrder.
  destruct pid' as [id'|]; [|by eexists].
  destruct (getProductById id' _) as [p'|]; [|by eexists].
  destruct q' as [q'|]; [|by eexists].
  destruct (stock p' <? q')%Z; [by eexists|].
  destruct cn' as [name'|]; [|by eexists].
  destruct (updateStock id' _ _); [|by eexists].
  rewrite decide_True; [by eexists|].
  cbn [orders orderNumber]. rewrite fmap_app. apply elem_of_app. right.
  by apply list_elem_of_singleton.
Qed.

(** X22.  [createOrder] does not check the sign of the quantity: an
    order for a quantity that is zero or negative is accepted, with a
    total price of the same sign, and the stock grows by what the
    quantity is below zero. *)
Theorem nonpositive_quantity_accepted id q name customerPhone shippingAddress now t p :
  stocked t →
  products t !! id = Some p →
  (MIN_VALUE < q ≤ 0)%Z →
  (stock p - q ≤ MAX_VALUE)%Z →
  (generateOrderNumber now ∉ orderNumber <$> orders t) →
  ∃ o t1,
    createOrder (Some id) (Some q) (Some name) customerPhone shippingAddress now t
    = Returns (o, t1)
    ∧ quantity o = q
    ∧ totalPrice o = multiply (price p) (valueOf q)
    ∧ stockOf id t1 = (stock p - q)%Z.
Proof.
  intros Hs Hp Hq Hmax Hfresh. pose proof (Hs id p Hp) as Hr.
  unfold createOrder, getProductById. rewrite Hp.
  destruct (Z.ltb_spec (stock p) q); [lia|].
  unfold updateStock. rewrite Hp.
  assert (wrap32 (stock p + wrap32 (- q)) = stock p - q)%Z as E.
  { rewrite wrap32_add_r. replace (stock p + - q)%Z with (stock p - q)%Z by lia.
    apply wrap32_id. unfold MIN_VALUE, MAX_VALUE in *.
    change (2 ^ 31)%Z with 2147483648%Z in *. lia. }
  rewrite E. destruct (Z.ltb_spec (stock p - q) 0); [lia|].
  rewrite decide_False by done.
  eexists _, _. split; [done|]. split; [done|]. split; [done|].
  unfold stockOf. cbn [products]. by rewrite lookup_insert_eq.
Qed.


Lemma wrap32_nonneg_exact x :
  (MIN_VALUE ≤ x < 2 ^ 32)%Z → (0 ≤ wrap32 x)%Z → wrap32 x = x.
Proof.
  unfold wrap32, MIN_VALUE.
  change (2 ^ 31)%Z with 2147483648%Z. change (2 ^ 32)%Z with 4294967296%Z.
  intros Hx H.
  destruct (Z_lt_le_dec x 2147483648) as [Hlt|Hge].
  - rewrite Z.mod_small; lia.
  - replace (x + 2147483648)%Z with ((x - 2147483648) + 1 * 4294967296)%Z in * by lia.
    rewrite Z.mod_add in * by lia. rewrite Z.mod_small in * by lia. lia.
Qed.

Lemma ordered_cons id o os : ordered id (o :: os) = (units o id + ordered id os)%Z.
Proof. unfold units. simpl. by case_decide. Qed.

Lemma ordered_app id os os' : ordered id (os ++ os') = (ordered id os + ordered id os')%Z.
Proof.
  induction os as [|o os IH]; [done|].
  rewrite <- app_comm_cons, !ordered_cons, IH. lia.
Qed.

Lemma ordered_snoc id os o : ordered id (os ++ [o]) = (ordered id os + units o id)%Z.
Proof. rewrite ordered_app, ordered_cons. simpl. lia. Qed.

Lemma ordered_cancel id os i order :
  os !! i = Some order →
  ordered id (<[i := withStatus order CANCELLED]> os)
  = (ordered id os - units order id)%Z.
Proof.
  intros H. rewrite insert_take_drop by (by eapply lookup_lt_Some).
  rewrite <- (take_drop_middle os i order H) at 3.
  rewrite !ordered_app, !ordered_cons.
  assert (units (withStatus order CANCELLED) id = 0%Z) as ->; [|lia].
  unfold units. rewrite decide_False; [done|]. intros [_ ?]. done.
Qed.

Lemma stockOf_updated id productId p newStock ps os :
  stockOf id {| products := <[productId := withStock p newStock]> ps; orders := os |}
  = if decide (id = productId) then newStock
    else stockOf id {| products := ps; orders := os |}.
Proof.
  unfold stockOf. cbn [products]. case_decide as E.
  - subst. by rewrite lookup_insert_eq.
  - by rewrite lookup_insert_ne.
Qed.

Lemma handle_conserves id req now t :
  stocked t → int_quantities t → orderly req →
  int_quantities (handle req now t).2
  ∧ (stockOf id (handle req now t).2 + ordered id (orders (handle req now t).2)
     = stockOf id t + ordered id (orders t))%Z.
Proof.
  intros Hs Hq Hreq. destruct req as [pid q cn cp sa| |n|n|n st]; simpl.
  - destruct (createOrder _ _ _ _ _ _ _) as [[o t1]|e] eqn:E; [|done]. simpl.
    apply createOrder_inv in E
      as (pid' & q' & name & p & t0 & -> & -> & -> & Hp & Hle & Hu & _ & -> & ->).
    simpl in Hreq. apply updateStock_inv in Hu as (p' & Hp' & H0 & ->).
    rewrite Hp in Hp'. injection Hp' as <-. pose proof (Hs pid' p Hp) as Hr.
    split.
    + unfold int_quantities. cbn [orders]. apply Forall_app. split; [done|].
      by apply Forall_singleton.
    + cbn [orders products]. rewrite ordered_snoc, stockOf_updated.
      unfold units. cbn [product status quantity].
      assert (wrap32 (stock p + wrap32 (- q')) = stock p - q')%Z as Ew.
      { rewrite wrap32_add_r in H0 |- *.
        replace (stock p + - q')%Z with (stock p - q')%Z in * by lia.
        apply wrap32_nonneg_exact; [|done].
        unfold is_int, MIN_VALUE, MAX_VALUE in *.
        change (2 ^ 31)%Z with 2147483648%Z in *.
        change (2 ^ 32)%Z with 4294967296%Z. lia. }
      case_decide as E1.
      * subst. rewrite decide_True by done. rewrite Ew.
        unfold stockOf. rewrite Hp. lia.
      * rewrite decide_False by (intros [? _]; done).
        unfold stockOf. cbn [products]. lia.
  - done.
  - by destruct (getOrderByOrderNumber n t).
  - destruct (cancelOrder n t) as [[o t1]|e] eqn:E; [|done]. simpl.
    apply cancelOrder_inv in E as (i & order & t0 & Hf & Hst & Hu & -> & ->).
    apply updateStock_inv in Hu as (p & Hp & H0 & ->).
    apply list_find_Some in Hf as (Hi & _ & _).
    pose proof (Hs _ p Hp) as Hr.
    assert (is_int (quantity order)) as Hqo.
    { by apply (proj1 (Forall_lookup _ _) Hq i order). }
    split.
    + unfold int_quantities. cbn [orders]. apply Forall_insert; [done|]. done.
    + cbn [orders products]. rewrite (ordered_cancel id (orders t) i order Hi).
      rewrite stockOf_updated. unfold units.
      assert (wrap32 (stock p + quantity order) = stock p + quantity order)%Z as Ew.
      { apply wrap32_nonneg_exact; [|done].
        unfold is_int, MIN_VALUE, MAX_VALUE in *.
        change (2 ^ 31)%Z with 2147483648%Z in *.
        change (2 ^ 32)%Z with 4294967296%Z. lia. }
      case_decide as E1.
      * subst. rewrite decide_True.
        -- rewrite Ew. unfold stockOf. rewrite Hp. lia.
        -- split; [done|]. by destruct Hst as [-> | ->].
      * rewrite decide_False by (intros [? _]; done).
        unfold stockOf. cbn [products]. lia.
  - done.
Qed.

(** X23.  Creating and cancelling orders keeps the units of every
    product: its stock plus the units in its orders that are not
    cancelled stays what it was (a direct change of a status does not
    keep it, and is left out). *)
Theorem units_conserved id reqs t :
  stocked t → int_quantities t → Forall (λ r, orderly r.1) reqs →
  (stockOf id (serve reqs t) + ordered id (orders (serve reqs t))
   = stockOf id t + ordered id (orders t))%Z.
Proof.
  revert t. induction reqs as [|[req now] reqs IH]; intros t Hs Hq Hr; [done|].
  apply Forall_cons in Hr as [Hreq Hr]. simpl in Hreq.
  destruct (handle_conserves id req now t Hs Hq Hreq) as [Hq' E].
  simpl. rewrite IH; [done| |done|done]. by apply handle_stocked.
Qed.

End ShopSpec.

(** * The second matcher: what a match is *)

Module PatternFacts.
Import Strings Pattern StringFacts.

Lemma takeOneOf_inv members s m :
  takeOneOf members s = Some m → m ∈ members ∧ ∃ rest, s = m ++ rest.
Proof.
  induction members as [|m' members IH]; simpl; [done|].
  destruct (HasPrefix s m') eqn:Hp.
  - intros [= <-]. split; [by left|]. by apply HasPrefix_inv.
  - intros H. destruct (IH H) as [Hin Hr]. split; [by right|done].
Qed.

Section Sound.
Context {R : Type}.
Implicit Types (k : @cont R).

(** A repetition, given that its body is sound. *)
Lemma rep_lang (body : gostring → list gostring → cont → option R)
    (L : gostring → list gostring → Prop) min max greedy k :
  (∀ s caps k' x, body s caps k' = Some x →
     ∃ u rest new, s = u ++ rest ∧ L u new ∧ k' u rest (caps ++ new) = Some x) →
  ∀ fuel count acc s caps x,
    match max with Some m => (count ≤ m)%nat | None => True end →
    rep body min max greedy k fuel count acc s caps = Some x →
    ∃ us cs rest,
      s = concat us ++ rest ∧ Forall2 L us cs
      ∧ (min ≤ count + length us)%nat
      ∧ match max with Some m => (count + length us ≤ m)%nat | None => True end
      ∧ k (acc ++ concat us) rest (caps ++ concat cs) = Some x.
Proof.
  intros Hbody. induction fuel as [|fuel IH]; intros count acc s caps x Hmax H.
  - assert ((if (min <=? count)%nat then k acc s caps else None) = Some x) as Hstop.
    { simpl in H. destruct greedy; [done|]. by destruct (if (min <=? count)%nat then _ else _). }
    destruct (Nat.leb_spec min count) as [Hle|]; [|done].
    exists [], [], s. simpl. rewrite !app_nil_r, Nat.add_0_r. repeat split; done.
  - assert ((if (min <=? count)%nat then k acc s caps else None) = Some x
            ∨ (below max count = true
               ∧ body s caps (λ u s' caps',
                   match u with
                   | [] => None
                   | _ :: _ => rep body min max greedy k fuel (S count) (acc ++ u) s' caps'
                   end) = Some x)) as [Hstop|[Hb Hmore]].
    { simpl in H. destruct greedy.
      - destruct (below max count) eqn:Hb.
        + destruct (body s caps _) eqn:Hm; [right; by injection H as <-|by left].
        + by left.
      - destruct (if (min <=? count)%nat then _ else _) eqn:Hs; [by left|].
        destruct (below max count) eqn:Hb; [by right|done]. }
    + destruct (Nat.leb_spec min count) as [Hle|]; [|done].
      exists [], [], s. simpl. rewrite !app_nil_r, Nat.add_0_r. repeat split; done.
    + apply Hbody in Hmore as (u & rest & new & -> & Hu & Hk).
      destruct u as [|c u]; [done|].
      apply IH in Hk as (us & cs & rest' & -> & Hall & Hmin & Hmx & Hk).
      * exists ((c :: u) :: us), (new :: cs), rest'. simpl.
        rewrite <- !app_assoc in Hk. rewrite <- app_assoc. simpl in *.
        repeat split; try done.
        -- by constructor.
        -- lia.
        -- destruct max; [lia|done].
      * unfold below in Hb. destruct max as [m|]; [|done].
        apply Nat.ltb_lt in Hb. lia.
Qed.

Lemma run_lang (r : rx) :
  ∀ s caps k x,
    run r s caps k = Some x →
    ∃ u rest new, s = u ++ rest ∧ lang r u new ∧ k u rest (caps ++ new) = Some x.
Proof.
  induction r as [l|members|cls| |r1 IH1 r2 IH2|r1 IH1 r2 IH2|r IH|r IH min max greedy];
    intros s caps k x H; simpl in H.
  - destruct (HasPrefix s l) eqn:Hp; [|done].
    apply HasPrefix_inv in Hp as [t ->]. rewrite drop_app_length in H.
    exists l, t, []. by rewrite app_nil_r.
  - destruct (takeOneOf members s) as [m|] eqn:Ht; [|done].
    apply takeOneOf_inv in Ht as [Hin [t ->]]. rewrite drop_app_length in H.
    exists m, t, []. by rewrite app_nil_r.
  - destruct s as [|c s]; [done|]. destruct (cls c) eqn:Hc; [|done].
    exists [c], s, []. rewrite app_nil_r. split; [done|]. split; [|done]. by exists c.
  - destruct s; [|done]. exists [], [], []. by rewrite (app_nil_r caps).
  - destruct (run r1 s caps k) eqn:H1.
    + injection H as ->. apply IH1 in H1 as (u & rest & new & -> & Hl & Hk).
      exists u, rest, new. split; [done|]. split; [by left|done].
    + apply IH2 in H as (u & rest & new & -> & Hl & Hk).
      exists u, rest, new. split; [done|]. split; [by right|done].
  - apply IH1 in H as (u & s' & c1 & -> & Hl1 & H).
    apply IH2 in H as (v & s'' & c2 & -> & Hl2 & H).
    exists (u ++ v), s'', (c1 ++ c2). rewrite <- app_assoc. split; [done|].
    split; [by exists u, v, c1, c2|]. by rewrite app_assoc.
  - apply IH in H as (u & rest & c & -> & Hl & H).
    exists u, rest, (c ++ [u]). split; [done|]. split; [by exists c|].
    by rewrite app_assoc.
  - apply (rep_lang (run r) (lang r) min max greedy k IH) in H
      as (us & cs & rest & -> & Hall & Hmin & Hmx & H).
    + exists (concat us), rest, (concat cs). split; [done|]. split; [|done].
      exists us, cs. repeat split; try done.
    + destruct max; [lia|done].
Qed.

End Sound.

Lemma match_here_lang r s m rest :
  match_here r s = Some (m, rest) →
  ∃ u caps, m = u :: caps ∧ s = u ++ rest ∧ lang r u caps.
Proof.
  unfold match_here. intros H.
  apply run_lang in H as (u & rest' & new & -> & Hl & H).
  injection H as <- <-. by exists u, new.
Qed.

Lemma search_lang r s before m rest :
  search r s = Some (before, m, rest) →
  ∃ u caps, m = u :: caps ∧ s = before ++ u ++ rest ∧ lang r u caps.
Proof.
  revert before. induction s as [|c s IH]; intros before H; simpl in H.
  - destruct (match_here r []) as [[m' rest']|] eqn:Hm; [|done].
    injection H as <- <- <-. by apply match_here_lang in Hm.
  - destruct (match_here r (c :: s)) as [[m' rest']|] eqn:Hm.
    + injection H as <- <- <-. by apply match_here_lang in Hm.
    + destruct (search r s) as [[[b' m'] rest']|] eqn:Hs; [|done].
      injection H as <- <- <-.
      destruct (IH _ eq_refl) as (u & caps & -> & -> & Hl). by exists u, caps.
Qed.

(** A submatch list is empty or comes from a match in the language. *)
Lemma FindStringSubmatch_lang r s :
  FindStringSubmatch r s = []
  ∨ ∃ before u caps rest,
      FindStringSubmatch r s = u :: caps ∧ s = before ++ u ++ rest ∧ lang r u caps.
Proof.
  unfold FindStringSubmatch.
  destruct (search r s) as [[[before m] rest]|] eqn:Hs; [|by left].
  right. apply search_lang in Hs as (u & caps & -> & -> & Hl).
  by exists before, u, caps, rest.
Qed.

(** A repetition of a one-byte class. *)
Lemma lang_rep_bytes cls min max greedy u caps :
  lang (Rep (Byte cls) min max greedy) u caps →
  caps = [] ∧ forallb cls u = true ∧ (min ≤ length u)%nat.
Proof.
  intros (us & cs & -> & -> & Hall & Hmin & _).
  assert (concat cs = [] ∧ forallb cls (concat us) = true
          ∧ length (concat us) = length us) as (H1 & H2 & H3).
  { clear Hmin. induction Hall as [|u c us cs (b & -> & Hb & ->) _ (IH1 & IH2 & IH3)];
      [done|].
    simpl. rewrite Hb, IH1, IH2, IH3. done. }
  rewrite H3. done.
Qed.

End PatternFacts.

(** * The order of a message *)

Module OrderInfoSpec.
Import Strings Strconv JSON MCP Service Pattern OrderIntent IntentWords.
Import StringFacts PatternFacts.

(** ** The name patterns *)

Lemma lang_rep_no_group r min max greedy u caps :
  (∀ v c, lang r v c → c = []) →
  lang (Rep r min max greedy) u caps → caps = [].
Proof.
  intros Hr (us & cs & -> & -> & Hall & _).
  induction Hall as [|v c us cs Hv _ IH]; [done|].
  simpl. by rewrite (Hr v c Hv), IH.
Qed.

Lemma lang_separators u caps : lang (Rep separators 0 None true) u caps → caps = [].
Proof. apply lang_rep_no_group. by intros v c [_ ->]. Qed.

Lemma lang_spaces u caps : lang (Rep (Byte space) 0 None true) u caps → caps = [].
Proof. apply lang_rep_no_group. by intros v c (b & _ & _ & ->). Qed.

Lemma lang_name_group min max u caps :
  (1 ≤ min)%nat →
  lang (Capture (Rep (Byte hanLetters) min max true)) u caps →
  caps = [u] ∧ u ≠ [] ∧ forallb hanLetters u = true.
Proof.
  intros Hmin (c & -> & H). apply lang_rep_bytes in H as (-> & Hcls & Hlen).
  split; [done|]. split; [|done]. intros ->. simpl in Hlen. lia.
Qed.

Lemma nameRegex1_name u caps : lang nameRegex1 u caps → name_of u caps.
Proof.
  intros (u1 & u' & c1 & c' & -> & -> & [_ ->] & u2 & u3 & c2 & c3 & -> & -> & H2 & H3).
  apply lang_separators in H2 as ->.
  apply lang_name_group in H3 as (-> & Hne & Hcls); [|lia].
  exists u3, (u1 ++ u2), []. rewrite app_nil_r, <- app_assoc. done.
Qed.

Lemma nameRegex2_name u caps : lang nameRegex2 u caps → name_of u caps.
Proof.
  intros (u1 & u' & c1 & c' & -> & -> & [_ ->] & u2 & u'' & c2 & c'' & -> & -> & H2
          & u3 & u4 & c3 & c4 & -> & -> & H3 & H4).
  destruct H2 as (b & _ & _ & ->).
  apply lang_spaces in H3 as ->.
  apply lang_name_group in H4 as (-> & Hne & Hcls); [|lia].
  exists u4, (u1 ++ u2 ++ u3), []. rewrite app_nil_r, <- !app_assoc. done.
Qed.

Lemma nameRegex3_name u caps : lang nameRegex3 u caps → name_of u caps.
Proof.
  intros (u1 & u' & c1 & c' & -> & -> & [_ ->] & u2 & u'' & c2 & c'' & -> & -> & H2
          & u3 & u4 & c3 & c4 & -> & -> & H3 & [_ ->]).
  apply lang_spaces in H2 as ->.
  apply lang_name_group in H3 as (-> & Hne & Hcls); [|lia].
  exists u3, (u1 ++ u2), u4. rewrite <- !app_assoc. done.
Qed.

(** The first group of a pattern whose matches have the shape [Q]. *)
Lemma submatchOr_group r message otherwise (Q : gostring → Prop) :
  (∀ u caps, lang r u caps → name_of u caps) →
  (∀ name a b, message = a ++ name ++ b → name ≠ [] →
               forallb hanLetters name = true → Q name) →
  Q (otherwise message) →
  Q (submatchOr r message 1 1 otherwise).
Proof.
  intros Hr HQ Ho. unfold submatchOr.
  destruct (FindStringSubmatch_lang r message) as [->|(before & u & caps & rest & -> & E & Hl)];
    [done|].
  apply Hr in Hl as (name & a & b & -> & -> & Hne & Hcls). simpl.
  apply (HQ name (before ++ a) (b ++ rest)); [|done..].
  rewrite E, <- !app_assoc. done.
Qed.

(** The name is empty, or a piece of the message made of the seven
    characters of the class. *)
Lemma nameOf_shape message :
  nameOf message = []
  ∨ (forallb hanLetters (nameOf message) = true
     ∧ ∃ a b, message = a ++ nameOf message ++ b).
Proof.
  unfold nameOf.
  apply (submatchOr_group nameRegex1 message _
           (λ name, name = [] ∨ (forallb hanLetters name = true
                                 ∧ ∃ a b, message = a ++ name ++ b))).
  - apply nameRegex1_name.
  - intros name a b E Hne Hcls. right. split; [done|]. by exists a, b.
  - apply (submatchOr_group nameRegex2 message _
             (λ name, name = [] ∨ (forallb hanLetters name = true
                                   ∧ ∃ a b, message = a ++ name ++ b))).
    + apply nameRegex2_name.
    + intros name a b E Hne Hcls. right. split; [done|]. by exists a, b.
    + apply (submatchOr_group nameRegex3 message _
               (λ name, name = [] ∨ (forallb hanLetters name = true
                                     ∧ ∃ a b, message = a ++ name ++ b))).
      * apply nameRegex3_name.
      * intros name a b E Hne Hcls. right. split; [done|]. by exists a, b.
      * by left.
Qed.

Lemma extractOrderInfo_inv message info :
  extractOrderInfo message = Some info →
  nameOf message ≠ []
  ∧ info = {[ str "productId" := VInt (productIDOf message);
              str "quantity" := VInt (quantityOf message);
              str "customerName" := VString (nameOf message);
              str "customerPhone" := VString (phoneOf message);
              str "shippingAddress" := VString (addressOf message) ]}.
Proof.
  unfold extractOrderInfo. cbv zeta.
  destruct (_ && _) eqn:E; [|done]. intros [= <-]. split; [|done].
  apply andb_true_iff in E as [E _]. apply andb_true_iff in E as [E _].
  apply andb_true_iff in E as [_ E]. apply negb_true_iff, bool_decide_eq_false in E. done.
Qed.

(** X24.  The customer name of an extracted order is a piece of the
    message, not empty, made only of the backslash and the characters
    [p], [{], [H], [a], [n], [}]: the class of the name patterns is
    written with two backslashes in a raw string literal, so it is these
    seven characters and not the Han script. *)
Theorem order_info_name_in_class message info :
  extractOrderInfo message = Some info →
  ∃ name,
    info !! str "customerName" = Some (VString name)
    ∧ name ≠ [] ∧ forallb hanLetters name = true
    ∧ ∃ a b, message = a ++ name ++ b.
Proof.
  intros H. apply extractOrderInfo_inv in H as [Hne ->].
  exists (nameOf message). split; [by vm_compute|]. split; [done|].
  destruct (nameOf_shape message) as [E|H]; [done|exact H].
Qed.

Section Handler.
Context {JVal W : Type} (codec : Codec JVal) (ext : External JVal W).

Lemma no_class_byte_no_info message :
  forallb (λ c, negb (hanLetters c)) message = true →
  extractOrderInfo message = None.
Proof.
  intros Hno. destruct (extractOrderInfo message) as [info|] eqn:E; [|done].
  apply extractOrderInfo_inv in E as [Hne _].
  destruct (nameOf_shape message) as [E|(Hcls & a & b & Hm)]; [done|].
  exfalso. destruct (nameOf message) as [|c name]; [done|].
  rewrite Hm, forallb_app in Hno. apply andb_true_iff in Hno as [_ Hno].
  simpl in Hno, Hcls. apply andb_true_iff in Hno as [Hno _].
  apply andb_true_iff in Hcls as [Hcls _]. rewrite Hcls in Hno. done.
Qed.

(** X25.  A message with a buying keyword and none of the seven
    characters of the class of the name patterns (the backslash, [p],
    [{], [H], [a], [n], [}]) never creates an order: the handler answers
    that the order is incomplete and calls no tool.  So it is for a name
    written in Chinese characters. *)
Theorem order_without_class_byte_is_incomplete message (st : State JVal W) :
  buying message = true →
  forallb (λ c, negb (hanLetters c)) message = true →
  handleOrderIntent codec ext message st = ((incompleteOrder, true), st).
Proof.
  unfold buying. intros Hk Hno. unfold handleOrderIntent. rewrite Hk.
  by rewrite (no_class_byte_no_info message Hno).
Qed.

End Handler.

End OrderInfoSpec.

(** * The order number of a message *)

Module OrderNumberSpec.
Import Strings Strconv Regexp JSON MCP Service OrderIntent IntentWords.
Import StringFacts RegexpFacts.

Lemma digit_run (t : gostring) :
  ∃ run rest, t = run ++ rest ∧ forallb is_digit run = true ∧ no_digit_ahead rest.
Proof.
  induction t as [|c t (run & rest & -> & Hr & Hs)].
  - by exists [], [].
  - destruct (is_digit c) eqn:Hc.
    + exists (c :: run), rest. simpl. by rewrite Hc.
    + by exists [], (c :: run ++ rest).
Qed.

Lemma order_number_here digits rest :
  digits ≠ [] → forallb is_digit digits = true → no_digit_ahead rest →
  match_here orderNumberRegex (str "ORD-" ++ digits ++ rest)
  = Some ([str "ORD-" ++ digits], rest).
Proof.
  intros Hne Hd Hstop. unfold match_here, orderNumberRegex. cbn [run].
  rewrite HasPrefix_app, drop_app_length.
  destruct digits as [|d digits]; [done|].
  apply plus_greedy_max; [done| |done].
  destruct rest; [done|]. exact Hstop.
Qed.

Lemma order_number_inv s m rest :
  match_here orderNumberRegex s = Some (m, rest) → starts_order_number s.
Proof.
  unfold match_here, orderNumberRegex. cbn [run].
  destruct (HasPrefix s (str "ORD-")) eqn:Hp; [|done].
  apply HasPrefix_inv in Hp as [t ->]. rewrite drop_app_length. intros H.
  apply plus_greedy_inv in H as (mid & rest' & -> & Hne & Hd & _).
  destruct mid as [|d mid]; [done|]. simpl in Hd.
  apply andb_true_iff in Hd as [Hd _]. by exists d, (mid ++ rest').
Qed.

Lemma order_number_starts s :
  starts_order_number s →
  ∃ digits rest, s = str "ORD-" ++ digits ++ rest ∧ digits ≠ []
                 ∧ forallb is_digit digits = true ∧ no_digit_ahead rest.
Proof.
  intros (d & t & -> & Hd).
  destruct (digit_run t) as (run & rest & -> & Hr & Hs).
  exists (d :: run), rest. simpl. by rewrite Hd.
Qed.

Lemma order_number_none s :
  match_here orderNumberRegex s = None → ¬ starts_order_number s.
Proof.
  intros H Hs. apply order_number_starts in Hs as (digits & rest & -> & Hne & Hd & Hstop).
  by rewrite order_number_here in H.
Qed.

(** X26.  [extractOrderNumber] returns the first place of the message
    that starts with [ORD-] and a digit, with all the digits that follow,
    and the empty string when the message has no such place. *)
Theorem order_number_is_first_match message :
  (extractOrderNumber message = []
   ∧ ∀ a b, message = a ++ b → ¬ starts_order_number b)
  ∨ ∃ pre digits rest,
      message = pre ++ str "ORD-" ++ digits ++ rest
      ∧ extractOrderNumber message = str "ORD-" ++ digits
      ∧ digits ≠ [] ∧ forallb is_digit digits = true ∧ no_digit_ahead rest
      ∧ ∀ a c b, pre = a ++ c :: b →
          ¬ starts_order_number (c :: b ++ str "ORD-" ++ digits ++ rest).
Proof.
  unfold extractOrderNumber, FindStringSubmatch.
  destruct (search orderNumberRegex message) as [[[before m] rest]|] eqn:Hs.
  - right. apply search_leftmost in Hs as (tail & -> & Hm & Hmin).
    pose proof (order_number_inv _ _ _ Hm) as Hst.
    apply order_number_starts in Hst as (digits & rest' & -> & Hne & Hd & Hstop).
    rewrite order_number_here in Hm by done. injection Hm as <- <-.
    exists before, digits, rest'. simpl. repeat split; try done.
    intros a c b E. apply order_number_none. by apply (Hmin a c b).
  - left. split; [done|]. intros a b -> Hst.
    assert (∀ s, search orderNumberRegex s = None →
                 ∀ a b, s = a ++ b → match_here orderNumberRegex b = None) as Hnone.
    { clear. intros s. induction s as [|c s IH]; intros H a b E; rewrite search_unfold in H.
      - destruct a; [|done]. simpl in E. subst b.
        by destruct (match_here orderNumberRegex []) as [[? ?]|].
      - destruct (match_here orderNumberRegex (c :: s)) as [[? ?]|] eqn:Hm; [done|].
        destruct (search orderNumberRegex s) as [[[? ?] ?]|] eqn:Hs; [done|].
        destruct a as [|c' a]; simpl in E.
        + by subst b.
        + injection E as _ E. by apply (IH eq_refl a b). }
    by apply (order_number_none b (Hnone _ Hs a b eq_refl)).
Qed.

(** The first order number of a message, when the text before it has no
    [ORD-]. *)
Lemma order_number_found pre digits rest :
  Contains pre (str "ORD-") = false →
  digits ≠ [] → forallb is_digit digits = true → no_digit_ahead rest →
  extractOrderNumber (pre ++ str "ORD-" ++ digits ++ rest) = str "ORD-" ++ digits.
Proof.
  intros Hpre Hne Hd Hstop. unfold extractOrderNumber, FindStringSubmatch.
  rewrite search_skip.
  - rewrite (search_here _ _ _ _ (order_number_here digits rest Hne Hd Hstop)). done.
  - intros a c b E. apply match_here_lit_fail.
    destruct (HasPrefix (c :: b ++ str "ORD-" ++ digits ++ rest) (str "ORD-")) eqn:Hp;
      [|done].
    exfalso. apply HasPrefix_inv in Hp as [k Hk].
    assert (HasPrefix (c :: b) (str "ORD-") = false) as Hno.
    { rewrite E in Hpre. exact (Contains_false_at a (c :: b) _ Hpre). }
    change (c :: b ++ str "ORD-" ++ digits ++ rest)
      with ((c :: b) ++ str "ORD-" ++ digits ++ rest) in Hk.
    apply app_eq_inv in Hk as [(k' & Hcb & _)|(k' & Ho & Hk)].
    + rewrite Hcb, HasPrefix_app in Hno. done.
    + (* the occurrence would run over the end of [pre]: its later bytes
         are not an [O] *)
      destruct k' as [|x k'].
      * rewrite app_nil_r in Ho. rewrite <- Ho in Hno.
        pose proof (HasPrefix_app (str "ORD-") []) as Hx.
        rewrite app_nil_r in Hx. congruence.
      * unfold str in Ho, Hk. cbn [list_ascii_of_string app] in Ho, Hk.
        injection Hk as <- _. injection Ho as _ Ho.
        destruct b as [|b1 b]; [discriminate Ho|]. injection Ho as _ Ho.
        destruct b as [|b2 b]; [discriminate Ho|]. injection Ho as _ Ho.
        destruct b as [|b3 b]; [discriminate Ho|]. injection Ho as _ Ho.
        by destruct b.
Qed.

End OrderNumberSpec.

(** * The keyword matcher *)

Module IntentSpec.
Import Strings Strconv JSON MCP Service OrderIntent IntentWords.
Import StringFacts ServiceSpec OrderInfoSpec OrderNumberSpec.

(** ** Decimal numerals *)

Lemma uint_digits (d : Decimal.uint) :
  forallb is_digit (str (NilEmpty.string_of_uint d)) = true.
Proof. induction d; simpl; try done. Qed.

Lemma Itoa_digits (n : Z) :
  (0 ≤ n)%Z → Itoa n ≠ [] ∧ forallb is_digit (Itoa n) = true.
Proof.
  intros Hn. unfold Itoa.
  assert (∀ d, str (NilZero.string_of_uint d) ≠ []
               ∧ forallb is_digit (str (NilZero.string_of_uint d)) = true) as H.
  { intros d. split.
    - by destruct d.
    - destruct d; try done; apply (uint_digits (_ d)). }
  destruct n as [|p|p]; [apply (H (Decimal.D0 Decimal.Nil))|apply H|lia].
Qed.

(** X27.  The order numbers that the shop generates are recognised: in
    a message with no [ORD-] before it and no digit right after it, the
    number made from a clock value that is not negative is extracted as
    it is. *)
Theorem shop_order_number_recognised pre now rest :
  (0 ≤ now)%Z →
  Contains pre (str "ORD-") = false →
  no_digit_ahead rest →
  extractOrderNumber (pre ++ Shop.generateOrderNumber now ++ rest)
  = Shop.generateOrderNumber now.
Proof.
  intros Hn Hpre Hstop. destruct (Itoa_digits now Hn) as [Hne Hd].
  unfold Shop.generateOrderNumber. rewrite <- app_assoc.
  by apply order_number_found.
Qed.

Section Handler.
Context {JVal W : Type} (codec : Codec JVal) (ext : External JVal W).
Implicit Types (st : State JVal W).

(** What [Execute] writes: nothing, or one [tools/call] for the tool. *)
Lemma Execute_sends toolName arguments st :
  ∃ sends,
    trace (Execute codec ext toolName arguments st).2 = trace st ++ sends
    ∧ (sends = []
       ∨ ∃ id args x, sends = [EvSend (toolsCallRequest id toolName args) x]).
Proof.
  unfold Execute. destruct (ready st); cbn [negb].
  - destruct (unmarshalArgs codec arguments) as [args|e].
    + destruct (CallTool_state ext toolName args st) as (x & w & _ & E).
      destruct (CallTool ext toolName args st) as [r st']. cbn [snd] in E.
      eexists. split; [destruct r; cbn [snd]; rewrite E; reflexivity|].
      right. by eexists _, _, _.
    + exists []. split; [by rewrite app_nil_r|by left].
  - exists []. split; [by rewrite app_nil_r|by left].
Qed.

(** X28.  The buying keywords come first: a message that holds one is
    handled as an order, also when it asks for a status or a
    cancellation, and the only request it can write to the sidecar is a
    [create_order] call. *)
Theorem buying_keyword_comes_first message st :
  buying message = true →
  (handleOrderIntent codec ext message st).1.2 = true
  ∧ ∃ sends,
      trace (handleOrderIntent codec ext message st).2 = trace st ++ sends
      ∧ (sends = []
         ∨ ∃ id args x,
             sends = [EvSend (toolsCallRequest id (str "create_order") args) x]).
Proof.
  unfold buying. intros Hk. unfold handleOrderIntent. rewrite Hk.
  destruct (extractOrderInfo message) as [info|].
  - unfold bind.
    destruct (Execute_sends (str "create_order") (Marshal (quote codec) info) st)
      as (sends & E & Hs).
    destruct (Execute codec ext _ _ st) as [r st']. cbn [snd] in E.
    destruct r; cbn; (split; [done|]); exists sends; done.
  - split; [done|]. exists []. split; [by rewrite app_nil_r|by left].
Qed.

(** X29.  Without a buying keyword, a message with an order number is
    dispatched by its keywords, the status keywords before the
    cancellation keywords: [query_order] or [cancel_order] is executed
    with the JSON object that holds the order number, and the reply is
    the result of the tool, or the failure text of the branch followed
    by the error.  Without any keyword the message is not handled. *)
Theorem order_number_dispatched message pre digits rest st :
  buying message = false →
  message = pre ++ str "ORD-" ++ digits ++ rest →
  Contains pre (str "ORD-") = false →
  digits ≠ [] → forallb is_digit digits = true → no_digit_ahead rest →
  let args := Marshal (quote codec)
                {[ str "orderNumber" := VString (str "ORD-" ++ digits) ]} in
  let query := Contains message (str "查询订单") || Contains message (str "订单状态") in
  let cancel := Contains message (str "取消订单") || Contains message (str "退单") in
  handleOrderIntent codec ext message st
  = if query then
      let '(r, st') := Execute codec ext (str "query_order") args st in
      ((match r with
        | Ok result => result
        | Err err => str "订单查询失败：" ++ err
        end, true), st')
    else if cancel then
      let '(r, st') := Execute codec ext (str "cancel_order") args st in
      ((match r with
        | Ok result => result
        | Err err => str "订单取消失败：" ++ err
        end, true), st')
    else (([], false), st).
Proof.
  unfold buying. intros Hb -> Hpre Hne Hd Hstop. cbv zeta.
  unfold handleOrderIntent. rewrite Hb.
  unfold withOrderNumber. rewrite (order_number_found pre digits rest) by done.
  rewrite bool_decide_eq_false_2 by done. cbn [negb]. unfold bind.
  destruct (Contains _ (str "查询订单") || Contains _ (str "订单状态")).
  - destruct (Execute codec ext (str "query_order") _ st) as [[res|e] st']; done.
  - destruct (Contains _ (str "取消订单") || Contains _ (str "退单")); [|reflexivity].
    destruct (Execute codec ext (str "cancel_order") _ st) as [[res|e] st']; done.
Qed.

End Handler.

End IntentSpec.

(** * The added properties on concrete inputs *)

Module TurnScenarios.
Import Strings Regexp JSON XMLParser LLM RAG MCP Service Directive Assembly ToolLoop.
Import Fixture ExtractorInvariants TurnSpec ConcurrentSpec.

Lemma extracted_keys_are_words_witness :
  parseArguments (str "<name> 张三 </name><quantity>2</quantity>") !! str "name"
  = Some (VString (str "张三"))
  ∧ is_word (str "name") = true
  ∧ clean (str "张三") = true ∧ TrimSpace (str "张三") = str "张三".
Proof.
  assert (parseArguments (str "<name> 张三 </name><quantity>2</quantity>") !! str "name"
          = Some (VString (str "张三"))) as E by (vm_compute; reflexivity).
  split; [exact E|].
  destruct (extracted_keys_are_words _ _ _ E) as [Hk Hv].
  split; [exact Hk|]. by apply Hv.
Defined.

Lemma exempt_fields_stay_text_witness :
  parseArguments (str "<customerPhone>13800138000</customerPhone><quantity>2</quantity>")
  = {[ str "customerPhone" := VString (str "13800138000"); str "quantity" := VInt 2 ]}
  ∧ str "quantity" ≠ str "customerPhone" ∧ str "quantity" ≠ str "orderId"
  ∧ (Strconv.MinInt ≤ 2 ≤ Strconv.MaxInt)%Z.
Proof.
  split; [match goal with |- _ = ?m => vm_cast_no_check (eq_refl m) end|].
  apply (exempt_fields_stay_text
           (str "<customerPhone>13800138000</customerPhone><quantity>2</quantity>")).
  vm_compute. reflexivity.
Defined.

Lemma tool_name_normalised_witness :
  ToolName (parseToolCallFromXML plainQuote
              (str "<func_call><tool_name> query_order </tool_name><arguments><orderNumber>ORD-1</orderNumber></arguments></func_call>")).1
  = str "query_order"
  ∧ TrimSpace (str "query_order") = str "query_order"
  ∧ forallb dot (str "query_order") = true.
Proof.
  split; [vm_compute; reflexivity|].
  destruct (tool_name_normalised plainQuote
              (str "<func_call><tool_name> query_order </tool_name><arguments><orderNumber>ORD-1</orderNumber></arguments></func_call>")
              {| ToolName := str "query_order";
                 Arguments := Marshal plainQuote
                                {[ str "orderNumber" := VString (str "ORD-1") ]} |})
    as (H1 & H2 & _).
  - vm_compute. reflexivity.
  - split; [exact H1|exact H2].
Defined.

Lemma failed_turn_calls_no_tool_witness :
  (HandleChat rawCodec shortOfIds (Some (ask (str "退货") []))
     (boot (plainWorld (str "ok")))).1 = None
  ∧ trace (HandleChat rawCodec shortOfIds (Some (ask (str "退货") []))
             (boot (plainWorld (str "ok")))).2
    = [EvSearch (str "退货") 3].
Proof.
  exact (failed_turn_calls_no_tool rawCodec shortOfIds (Some (ask (str "退货") []))
           (boot (plainWorld (str "ok")))).
Defined.


Lemma one_tool_call_per_turn_witness :
  ∃ answer sends,
    trace (HandleChat rawCodec scripted (Some (ask (str "下单") []))
             (boot (orderWorld (textResult (str "订单创建成功"))))).2
    = [EvSearch (str "下单") 3;
       EvChat (assembleMessages (ask (str "下单") []) [faq]) [] answer] ++ sends
    ∧ (length sends ≤ 1)%nat.
Proof.
  destruct (one_tool_call_per_turn rawCodec scripted (ask (str "下单") [])
              (boot (orderWorld (textResult (str "订单创建成功")))))
    as (rest & E & answer & sends & -> & H).
  - discriminate.
  - exists answer, sends. split; [exact E|].
    destruct H as [->|(r & info & args & id & x & _ & _ & _ & ->)]; simpl; lia.
Defined.

Lemma flat_text_ends_loop_witness :
  (chatWithToolCalling rawCodec scripted [systemPrompt] []
     (boot (plainWorld (str "您好")))).1 = Ok (str "您好").
Proof.
  rewrite (flat_text_ends_loop rawCodec scripted [systemPrompt] []
             (boot (plainWorld (str "您好")))
             {| OutputText := str "您好"; Choices := [] |}
             {| docs := []; answers := []; exchanges := [] |}).
  - reflexivity.
  - reflexivity.
  - discriminate.
Defined.

Lemma consecutive_calls_ids_witness :
  ∃ x1 x2,
    trace (CallTool scripted (str "query_order") ∅
             (CallTool scripted (str "search_product") ∅
                (boot (orderWorld (textResult (str "ok"))))).2).2
    = [EvSend (toolsCallRequest 3 (str "search_product") ∅) x1;
       EvSend (toolsCallRequest 4 (str "query_order") ∅) x2].
Proof.
  destruct (consecutive_calls_ids scripted (str "search_product") ∅
              (str "query_order") ∅ (boot (orderWorld (textResult (str "ok")))))
    as (x1 & x2 & E).
  - by compute.
  - by compute.
  - exists x1, x2. exact E.
Defined.

End TurnScenarios.

Module RetrievalScenarios.
Import RAG Endpoint Answers Chroma Scripted.
Import EmbeddingSpec ChromaSpec.

Lemma Embedding_follows_tags_witness :
  Dashscope.Embedding scriptedWire [str "a"; str "b"] (online [ok "embeddings"])
  = (Value [[10%Z]; [20%Z]],
     {| world := []; sent := [PostEmbedding [str "a"; str "b"]] |}).
Proof.
  rewrite (Embedding_follows_tags scriptedWire [str "a"; str "b"]
             (online [ok "embeddings"]) (str "embeddings") [] shuffled).
  - vm_compute. reflexivity.
  - discriminate.
  - reflexivity.
  - reflexivity.
  - by left.
Defined.

Lemma batch_embeddings_follow_tags_witness :
  (generateBatchEmbeddings scriptedWire [str "a"; str "b"] (fresh [ok "embeddings"])).1
  = Value [[10%Z]; [20%Z]]
  ∧ (generateBatchEmbeddings scriptedWire [str "a"] (fresh [ok "embeddings"])).1 = Panic.
Proof.
  split.
  - rewrite (batch_embeddings_follow_tags scriptedWire [str "a"; str "b"]
               (fresh [ok "embeddings"]) (str "embeddings") [] shuffled).
    + vm_compute. reflexivity.
    + discriminate.
    + reflexivity.
    + reflexivity.
    + by left.
  - rewrite (batch_embeddings_follow_tags scriptedWire [str "a"]
               (fresh [ok "embeddings"]) (str "embeddings") [] shuffled).
    + vm_compute. reflexivity.
    + discriminate.
    + reflexivity.
    + reflexivity.
    + by left.
Defined.

Lemma missing_collection_reported_witness :
  SearchKnowledge scriptedWire (str "退货") 0 (fresh [ok "drafts"; ok "embeddings"])
  = (Error (str "初始化集合失败: 集合 'shop_knowledge' 不存在"),
     {| collectionID := [];
        net := {| world := [ok "embeddings"]; sent := [GetCollections] |} |}).
Proof.
  apply (missing_collection_reported scriptedWire (str "退货") 0
           (fresh [ok "drafts"; ok "embeddings"]) (str "drafts")
           [ok "embeddings"] [drafts]).
  - reflexivity.
  - reflexivity.
  - reflexivity.
  - intros col id Hin [Hn _]. apply list_elem_of_singleton in Hin. subst col.
    vm_compute in Hn. discriminate Hn.
Defined.

Lemma query_answer_zipped_witness :
  ∃ documents,
    buildDocuments scriptedWire hits = Some documents
    ∧ length documents = 2%nat
    ∧ ∃ scored,
        documents !! 1%nat = Some scored
        ∧ DocID (Doc scored) = str "faq-2" ∧ Text (Doc scored) = str "全国包邮"
        ∧ Metadata (Doc scored) = ∅ ∧ Distance scored = 5%Z.
Proof.
  destruct (query_answer_zipped scriptedWire hits
              [str "faq-7"; str "faq-2"] [str "支持七天无理由退货"; str "全国包邮"])
    as (documents & E & Hl & Hi).
  - reflexivity.
  - reflexivity.
  - simpl. lia.
  - exists documents. split; [exact E|]. split; [exact Hl|].
    destruct (Hi 1%nat (str "全国包邮") eq_refl) as (id & scored & Hid & Hs & H1 & H2 & H3 & H4).
    exists scored. injection Hid as <-. repeat split; assumption.
Defined.

Lemma missing_ids_panic_witness :
  (queryChroma scriptedWire [1%Z] 3
     {| collectionID := str "c-1"; net := online [ok "short"] |}).1 = Panic.
Proof.
  apply (missing_ids_panic scriptedWire [1%Z] 3
           {| collectionID := str "c-1"; net := online [ok "short"] |}
           (str "short") [] shortHits [str "支持七天无理由退货"; str "全国包邮"]).
  - reflexivity.
  - reflexivity.
  - reflexivity.
  - simpl. lia.
Defined.

Lemma add_request_aligned_witness :
  sent (net (AddDocuments scriptedWire faqs
               (fresh [ok "collections"; ok "embeddings"; ok "true"])).2)
  = [GetCollections; PostEmbedding (Text <$> faqs);
     PostAdd (str "c-1") (DocID <$> faqs) (Text <$> faqs) (Metadata <$> faqs)
             [[10%Z]; [20%Z]]]
  ∧ length [[10%Z]; [20%Z]] = length faqs.
Proof.
  assert (sent (net (AddDocuments scriptedWire faqs
                       (fresh [ok "collections"; ok "embeddings"; ok "true"])).2)
          = [GetCollections; PostEmbedding (Text <$> faqs);
             PostAdd (str "c-1") (DocID <$> faqs) (Text <$> faqs) (Metadata <$> faqs)
                     [[10%Z]; [20%Z]]]) as E by (vm_compute; reflexivity).
  split; [exact E|].
  destruct (add_request_aligned scriptedWire faqs
              (fresh [ok "collections"; ok "embeddings"; ok "true"])) as [_ H].
  apply (H (str "c-1") (DocID <$> faqs) (Text <$> faqs) (Metadata <$> faqs)).
  rewrite E. simpl. right. right. left.
Defined.

End RetrievalScenarios.

Module ShopScenarios.
Import Shop ShopWords Seeded ShopSpec.

Lemma stocked_seeded : stocked seeded.
Proof.
  intros id p H. unfold seeded in H. cbn [products] in H.
  apply lookup_singleton_Some in H as [<- <-].
  split; by compute.
Qed.

Lemma int_quantities_seeded : int_quantities seeded.
Proof. repeat constructor; by compute. Qed.

Lemma order_placed :
  createOrder (Some 1%Z) (Some 2%Z) (Some (str "王五")) (Some (str "13700137000"))
    (Some (str "广州市天河区ZZ路ZZ号")) 1729512345000 seeded
  = Returns (firstOrder, afterFirstOrder).
Proof. vm_compute. reflexivity. Qed.

Lemma stock_never_negative_witness :
  stocked seeded ∧ stocked (serve session seeded).
Proof.
  split; [exact stocked_seeded|]. apply stock_never_negative. exact stocked_seeded.
Defined.

Lemma cancel_restores_stock_witness :
  stockOf 1 afterFirstOrder = 48%Z
  ∧ cancelOrder (str "ORD-1729512345000") afterFirstOrder
    = Returns (withStatus firstOrder CANCELLED,
               {| products := products seeded;
                  orders := orders seeded ++ [withStatus firstOrder CANCELLED] |}).
Proof.
  split; [reflexivity|].
  apply (cancel_restores_stock (Some 1%Z) (Some 2%Z) (Some (str "王五"))
           (Some (str "13700137000")) (Some (str "广州市天河区ZZ路ZZ号"))
           1729512345000 seeded firstOrder afterFirstOrder).
  - exact stocked_seeded.
  - exact order_placed.
Defined.

Lemma cancelled_order_stays_cancelled_witness :
  cancelOrder (str "ORD-002") (handle (DeleteOrder (str "ORD-002")) 0 seeded).2
  = Throws (RuntimeException (str "订单状态不允许取消")).
Proof.
  destruct (cancelled_order_stays_cancelled (str "ORD-002") seeded
              (withStatus order2 CANCELLED)
              (handle (DeleteOrder (str "ORD-002")) 0 seeded).2) as (_ & E & _).
  - vm_compute. reflexivity.
  - exact E.
Defined.

Lemma same_millisecond_refused_witness :
  orderNumber firstOrder = generateOrderNumber 1729512345000
  ∧ ∃ e, handle twoBikes 1729512345000 afterFirstOrder = (BadRequest e, afterFirstOrder).
Proof.
  destruct (same_millisecond_refused (Some 1%Z) (Some 2%Z) (Some (str "王五"))
              (Some (str "13700137000")) (Some (str "广州市天河区ZZ路ZZ号"))
              1729512345000 seeded firstOrder afterFirstOrder order_placed) as [E H].
  split; [exact E|].
  destruct (H (Some 1%Z) (Some 2%Z) (Some (str "王五")) (Some (str "13700137000"))
              (Some (str "广州市天河区ZZ路ZZ号"))) as [e He].
  exists e. unfold handle, twoBikes. rewrite He. reflexivity.
Defined.

Lemma nonpositive_quantity_accepted_witness :
  ∃ o t1,
    createOrder (Some 1%Z) (Some (-3)%Z) (Some (str "王五")) None None 1729512345000 seeded
    = Returns (o, t1)
    ∧ quantity o = (-3)%Z
    ∧ totalPrice o = {| unscaledValue := -1199700; scale := 2 |}
    ∧ stockOf 1 t1 = 53%Z.
Proof.
  destruct (nonpositive_quantity_accepted 1 (-3) (str "王五") None None
              1729512345000 seeded bike1) as (o & t1 & E & Hq & Hp & Hs).
  - exact stocked_seeded.
  - reflexivity.
  - split; by compute.
  - by compute.
  - vm_compute. intros H. inversion H as [|? ? ? H']; subst. inversion H' as [|? ? ? H'']; subst.
    inversion H''.
  - exists o, t1. split; [exact E|]. split; [exact Hq|]. split; [exact Hp|exact Hs].
Defined.

Lemma units_conserved_witness :
  (stockOf 1 (serve session seeded) + ordered 1 (orders (serve session seeded))
   = 50 + 2)%Z.
Proof.
  rewrite (units_conserved 1 session seeded).
  - reflexivity.
  - exact stocked_seeded.
  - exact int_quantities_seeded.
  - repeat constructor; by compute.
Defined.

End ShopScenarios.

Module IntentScenarios.
Import Strings Strconv JSON MCP Service OrderIntent IntentWords Fixture.
Import OrderInfoSpec OrderNumberSpec IntentSpec.

Lemma order_info_name_in_class_witness :
  extractOrderInfo orderInLatin = Some infoInLatin
  ∧ infoInLatin !! str "customerName" = Some (VString (str "Hann"))
  ∧ forallb hanLetters (str "Hann") = true.
Proof.
  assert (extractOrderInfo orderInLatin = Some infoInLatin) as E
    by (vm_cast_no_check (eq_refl (Some infoInLatin))).
  destruct (order_info_name_in_class orderInLatin infoInLatin E)
    as (name & Hn & _ & Hc & _).
  assert (infoInLatin !! str "customerName" = Some (VString (str "Hann"))) as Hn'
    by (vm_compute; reflexivity).
  split; [exact E|]. split; [exact Hn'|].
  rewrite Hn' in Hn. injection Hn as <-. exact Hc.
Defined.

Lemma order_without_class_byte_is_incomplete_witness :
  handleOrderIntent rawCodec scripted orderInChinese
    (boot (orderWorld (textResult (str "订单创建成功"))))
  = ((incompleteOrder, true), boot (orderWorld (textResult (str "订单创建成功")))).
Proof.
  apply order_without_class_byte_is_incomplete.
  - vm_compute. reflexivity.
  - vm_compute. reflexivity.
Defined.

Lemma shop_order_number_recognised_witness :
  extractOrderNumber (str "查询订单 " ++ Shop.generateOrderNumber 1729512345000
                      ++ str "，谢谢")
  = str "ORD-1729512345000".
Proof.
  rewrite (shop_order_number_recognised (str "查询订单 ") 1729512345000 (str "，谢谢")).
  - reflexivity.
  - lia.
  - reflexivity.
  - reflexivity.
Defined.

Lemma buying_keyword_comes_first_witness :
  (handleOrderIntent rawCodec scripted (str "取消订单 ORD-1729512345000，不想买了")
     (boot (orderWorld (textResult (str "订单已取消"))))).1.2 = true
  ∧ (handleOrderIntent rawCodec scripted (str "取消订单 ORD-1729512345000，不想买了")
       (boot (orderWorld (textResult (str "订单已取消"))))).1.1 = incompleteOrder.
Proof.
  destruct (buying_keyword_comes_first rawCodec scripted
              (str "取消订单 ORD-1729512345000，不想买了")
              (boot (orderWorld (textResult (str "订单已取消"))))) as [H _].
  - vm_compute. reflexivity.
  - split; [exact H|]. vm_compute. reflexivity.
Defined.

Lemma order_number_dispatched_witness :
  handleOrderIntent rawCodec scripted (str "取消订单 ORD-1729512345000，谢谢")
    (boot (orderWorld (textResult (str "订单已取消"))))
  = let '(r, st') :=
      Execute rawCodec scripted (str "cancel_order")
        (Marshal plainQuote {[ str "orderNumber" := VString (str "ORD-1729512345000") ]})
        (boot (orderWorld (textResult (str "订单已取消")))) in
    ((match r with Ok result => result | Err err => str "订单取消失败：" ++ err end, true),
     st').
Proof.
  rewrite (order_number_dispatched rawCodec scripted
             (str "取消订单 ORD-1729512345000，谢谢")
             (str "取消订单 ") (str "1729512345000") (str "，谢谢")).
  - reflexivity.
  - vm_compute. reflexivity.
  - reflexivity.
  - vm_compute. reflexivity.
  - discriminate.
  - reflexivity.
  - reflexivity.
Defined.

End IntentScenarios.
